(** * LAGraph_tricount: triangle counting over a GraphBLAS engine

    A shallow embedding of [Source/Algorithm/LAGraph_tricount.c]: the static
    helper [tricount_prep] (both of its conditionally compiled bodies) and
    [LAGraph_tricount] with its six methods, run against an executable model
    of the GraphBLAS objects and operations the file calls. *)

From Stdlib Require Import ZArith Lia.
From stdpp Require Import base decidable option list gmap fin_maps.

Set Warnings "-clear-no-such-hyp".

(* ===================================================================== *)
(** * Part I.  Definitions                                                *)
(* ===================================================================== *)

(** ** Signed 64-bit integers ([int64_t], [GrB_INT64]) *)

Definition INT64_MAX : Z := 2 ^ 63 - 1.
Definition INT64_MIN : Z := - 2 ^ 63.

(** Reduction of an integer to its two's complement 64-bit representative. *)
Definition wrap64 (z : Z) : Z := ((z + 2 ^ 63) mod 2 ^ 64 - 2 ^ 63)%Z.

Definition plus_int64 (x y : Z) : Z := wrap64 (x + y).
Definition times_int64 (x y : Z) : Z := wrap64 (x * y).

(** [x /= d] on an [int64_t]: C division truncates toward zero. *)
Definition div_int64 (x d : Z) : Z := wrap64 (Z.quot x d).

Definition b2z (b : bool) : Z := if b then 1%Z else 0%Z.

(** Finite sums over index ranges [0 .. n-1]. *)
Fixpoint sum_below (n : nat) (f : nat → Z) : Z :=
  match n with
  | O => 0%Z
  | S m => (sum_below m f + f m)%Z
  end.

Definition sum2 (r c : nat) (f : nat → nat → Z) : Z :=
  sum_below r (λ i, sum_below c (λ j, f i j)).

Definition sum3 (n : nat) (f : nat → nat → nat → Z) : Z :=
  sum_below n (λ i, sum_below n (λ j, sum_below n (λ k, f i j k))).

(** ** GraphBLAS vocabulary used by the file *)

(** Modelled from the spec: the status codes of [GrB_Info] (declared in
    GraphBLAS.h, which is not part of the sources); section 6 of the
    specification distinguishes success, invalid input and engine failures. *)
Inductive GrB_Info :=
| GrB_SUCCESS
| GrB_NO_VALUE
| GrB_UNINITIALIZED_OBJECT
| GrB_INVALID_OBJECT
| GrB_NULL_POINTER
| GrB_INVALID_VALUE
| GrB_INVALID_INDEX
| GrB_DOMAIN_MISMATCH
| GrB_DIMENSION_MISMATCH
| GrB_OUTPUT_NOT_EMPTY
| GrB_OUT_OF_MEMORY
| GrB_INSUFFICIENT_SPACE
| GrB_INDEX_OUT_OF_BOUNDS
| GrB_PANIC.

#[global] Instance GrB_Info_eq_dec : EqDecision GrB_Info.
Proof. solve_decision. Defined.

(** The two element types the file names. *)
Inductive GrB_Type := GrB_BOOL | GrB_INT64.

#[global] Instance GrB_Type_eq_dec : EqDecision GrB_Type.
Proof. solve_decision. Defined.

(** Typecast of a stored integer value into a type. *)
Definition typecast (ty : GrB_Type) (v : Z) : Z :=
  match ty with
  | GrB_BOOL => if (v =? 0)%Z then 0%Z else 1%Z
  | GrB_INT64 => wrap64 v
  end.

Inductive GrB_Semiring := GxB_PLUS_PAIR_INT64 | LAGraph_PLUS_TIMES_INT64.
Inductive GrB_Monoid := LAGraph_PLUS_INT64_MONOID.
Inductive GrB_BinaryOp := GrB_LOR.
Inductive GxB_SelectOp := GxB_TRIL | GxB_TRIU.

(** The multiplicative operator of a semiring, on values typecast to INT64:
    PAIR is f(x,y)=1, TIMES is f(x,y)=x*y. *)
Definition multiply (s : GrB_Semiring) (x y : Z) : Z :=
  match s with
  | GxB_PLUS_PAIR_INT64 => 1%Z
  | LAGraph_PLUS_TIMES_INT64 =>
      times_int64 (typecast GrB_INT64 x) (typecast GrB_INT64 y)
  end.

Definition binop (op : GrB_BinaryOp) (x y : Z) : Z :=
  match op with
  | GrB_LOR => b2z (negb (typecast GrB_BOOL x =? 0)%Z || negb (typecast GrB_BOOL y =? 0)%Z)
  end.

(** A descriptor: the four settings of GraphBLAS (output replace, mask
    complement, mask structure, input transposes). *)
Record GrB_Descriptor := Descriptor {
  outp_replace : bool;
  mask_comp : bool;
  mask_structure : bool;
  inp0_tran : bool;
  inp1_tran : bool
}.

(** [NULL] descriptor: every setting at its default. *)
Definition desc_default : GrB_Descriptor := Descriptor false false false false false.
(** [GrB_DESC_S]: structural mask. *)
Definition GrB_DESC_S : GrB_Descriptor := Descriptor false false true false false.
(** [GrB_DESC_ST1]: structural mask, second input transposed. *)
Definition GrB_DESC_ST1 : GrB_Descriptor := Descriptor false false true false true.
(** Modelled from the spec: [LAGraph_desc_otoo] (declared in LAGraph.h, not in
    the sources), the descriptor the file binds to [desc_st1] when the PAIR
    semiring is unavailable: second input transposed, valued mask. *)
Definition LAGraph_desc_otoo : GrB_Descriptor := Descriptor false false false false true.

Definition settings (d : option GrB_Descriptor) : GrB_Descriptor := default desc_default d.

(** ** Sparse matrices *)

Definition pos : Type := nat * nat.

(** The content of a [GrB_Matrix]: its type, dimensions and stored entries.
    The structure of the matrix is the domain of [entries]. *)
Record Matrix := Mat {
  mtype : GrB_Type;
  nrows : nat;
  ncols : nat;
  entries : gmap (nat * nat) Z
}.

Definition structure (A : Matrix) : gset (nat * nat) := dom (entries A).

(** Every stored entry lies inside the dimensions. *)
Definition in_bounds (A : Matrix) : Prop :=
  map_Forall (λ (p : nat * nat) (_ : Z), p.1 < nrows A ∧ p.2 < ncols A) (entries A).

(** Square, and (i,j) stored iff (j,i) stored. *)
Definition symmetric (A : Matrix) : Prop :=
  nrows A = ncols A ∧
  map_Forall (λ (p : nat * nat) (_ : Z), is_Some (entries A !! (p.2, p.1))) (entries A).

(** No diagonal entry is stored. *)
Definition no_self_edges (A : Matrix) : Prop :=
  map_Forall (λ (p : nat * nat) (_ : Z), p.1 ≠ p.2) (entries A).

(** Every stored value is 1. *)
Definition binary (A : Matrix) : Prop :=
  map_Forall (λ (_ : nat * nat) (v : Z), v = 1%Z) (entries A).

(** [edge A i j]: position (i,j) belongs to the structure of [A]. *)
Definition edge (A : Matrix) (i j : nat) : bool :=
  bool_decide (is_Some (entries A !! (i, j))).

(** The strictly lower and the strictly upper triangular part of a relation
    on indices. *)
Definition lower (e : nat → nat → bool) (i j : nat) : bool := bool_decide (j < i) && e i j.
Definition upper (e : nat → nat → bool) (i j : nat) : bool := bool_decide (i < j) && e i j.

(** [i < j < k] are pairwise connected. *)
Definition triangle_at (e : nat → nat → bool) (i j k : nat) : bool :=
  bool_decide (i < j) && bool_decide (j < k) && e i j && e j k && e i k.

(** The true triangle count: the unordered vertex triples that are pairwise
    connected, each listed once by its increasing enumeration i < j < k. *)
Definition is_triangle (A : Matrix) (i j k : nat) : bool := triangle_at (edge A) i j k.

Definition triangles (A : Matrix) : Z :=
  sum3 (nrows A) (λ i j k, b2z (is_triangle A i j k)).

(** [A] with its diagonal entries removed. *)
Definition strip_diagonal (A : Matrix) : Matrix :=
  Mat (mtype A) (nrows A) (ncols A) (filter (λ kv : (nat * nat) * Z, kv.1.1 ≠ kv.1.2) (entries A)).

(** The diagonal part of a structure, and its transpose. *)
Definition diagonal (s : gset (nat * nat)) : gset (nat * nat) :=
  filter (λ p : nat * nat, p.1 = p.2) s.

Definition transpose (s : gset (nat * nat)) : gset (nat * nat) :=
  set_map (λ p : nat * nat, (p.2, p.1)) s.

(** The complete graph on [n] nodes, every edge stored with value 1. *)
Definition complete_entry (p : nat * nat) : option Z :=
  if decide (p.1 = p.2) then None else Some 1%Z.

(** All positions of an [r] by [c] matrix, row by row. *)
Definition positions (r c : nat) : list (nat * nat) :=
  i ← seq 0 r; j ← seq 0 c; [(i, j)].

(** The map holding [f p] at every position [p] of the list where [f] is
    defined. *)
Definition tabulate (ps : list (nat * nat)) (f : nat * nat → option Z) : gmap (nat * nat) Z :=
  list_to_map (omap (λ p, (λ v, (p, v)) <$> f p) ps).

Definition complete (n : nat) : Matrix :=
  Mat GrB_BOOL n n (tabulate (positions n n) complete_entry).

(** ** The mathematics of the engine's operations

    Modelled from the spec: the operations of the sparse-matrix engine
    (GraphBLAS; an external collaborator whose code is not in the sources),
    as section 6 of the specification and the comments of the file describe
    them: structural selection with a threshold, masked multiply over a
    semiring, reduction to a scalar, extraction of all tuples, build with a
    duplicate policy. *)

(** Entry (i,j) of [A], or of its transpose. *)
Definition at_ (tr : bool) (A : Matrix) (i j : nat) : option Z :=
  entries A !! (if tr then (j, i) else (i, j)).

Definition rows_of (tr : bool) (A : Matrix) : nat := if tr then ncols A else nrows A.
Definition cols_of (tr : bool) (A : Matrix) : nat := if tr then nrows A else ncols A.

(** Whether the mask lets position [p] of the output be written: a
    structural mask allows the positions it stores, a valued mask those whose
    stored value is true; no mask allows every position. *)
Definition mask_allows (d : GrB_Descriptor) (mask : option Matrix) (p : nat * nat) : bool :=
  xorb (mask_comp d)
    match mask with
    | None => true
    | Some m =>
        match entries m !! p with
        | Some v => mask_structure d || negb (typecast GrB_BOOL v =? 0)%Z
        | None => false
        end
    end.

Definition accumulate (accum : option GrB_BinaryOp) (c z : option Z) : option Z :=
  match accum with
  | None => z
  | Some op =>
      match c, z with
      | Some x, Some y => Some (binop op x y)
      | Some x, None => Some x
      | None, _ => z
      end
  end.

(** The entry of the output at [p] after [C<Mask> = accum (C, T)]. *)
Definition write_back (d : GrB_Descriptor) (mask : option Matrix)
    (accum : option GrB_BinaryOp) (C : Matrix) (T : nat * nat → option Z)
    (p : nat * nat) : option Z :=
  if mask_allows d mask p
  then typecast (mtype C) <$> accumulate accum (entries C !! p) (T p)
  else if outp_replace d then None else entries C !! p.

Definition assign (d : GrB_Descriptor) (mask : option Matrix)
    (accum : option GrB_BinaryOp) (C : Matrix) (T : nat * nat → option Z) : Matrix :=
  Mat (mtype C) (nrows C) (ncols C)
      (tabulate (positions (nrows C) (ncols C)) (write_back d mask accum C T)).

(** The products that meet at output position [p], over the inner index. *)
Definition products (s : GrB_Semiring) (ta : bool) (A : Matrix) (tb : bool) (B : Matrix)
    (p : nat * nat) : list Z :=
  omap (λ k, a ← at_ ta A p.1 k; b ← at_ tb B k p.2; Some (multiply s a b))
       (seq 0 (cols_of ta A)).

(** Entry [p] of the product: present when at least one pair of entries
    meets, and then their sum in the additive monoid. *)
Definition dot (s : GrB_Semiring) (ta : bool) (A : Matrix) (tb : bool) (B : Matrix)
    (p : nat * nat) : option Z :=
  match products s ta A tb B p with
  | [] => None
  | ts => Some (foldr plus_int64 0%Z ts)
  end.

(** [GxB_TRIL] keeps the entries on or below diagonal [thunk], [GxB_TRIU]
    those on or above it; diagonal k holds the positions with j - i = k. *)
Definition select_keeps (op : GxB_SelectOp) (thunk : Z) (i j : nat) : bool :=
  match op with
  | GxB_TRIL => (Z.of_nat j - Z.of_nat i <=? thunk)%Z
  | GxB_TRIU => (thunk <=? Z.of_nat j - Z.of_nat i)%Z
  end.

Definition selected (op : GxB_SelectOp) (thunk : Z) (ta : bool) (A : Matrix)
    (p : nat * nat) : option Z :=
  v ← at_ ta A p.1 p.2; if select_keeps op thunk p.1 p.2 then Some v else None.

(** Reduction of all stored entries by the PLUS_INT64 monoid. *)
Definition reduce_entries (m : gmap (nat * nat) Z) : Z :=
  map_fold (λ (_ : nat * nat) (v acc : Z), plus_int64 (typecast GrB_INT64 v) acc) 0%Z m.

(** All tuples of a matrix; the order is the engine's. *)
Definition tuples_of (A : Matrix) : list (nat * nat * Z) := map_to_list (entries A).

(** Insertion of one tuple, duplicates combined by [dup]. *)
Definition build_step (ty : GrB_Type) (dup : GrB_BinaryOp)
    (m : gmap (nat * nat) Z) (t : nat * nat * Z) : gmap (nat * nat) Z :=
  partial_alter
    (λ o, Some (match o with
                | Some y => typecast ty (binop dup y t.2)
                | None => typecast ty t.2
                end)) t.1 m.

Definition build_entries (ty : GrB_Type) (dup : GrB_BinaryOp)
    (ts : list (nat * nat * Z)) : gmap (nat * nat) Z :=
  foldl (build_step ty dup) ∅ ts.

(** The first [n] tuples (I[k], J[k], X[k]) of three parallel arrays. *)
Definition zip3 (n : nat) (I_ J_ : list nat) (X_ : list Z) : list (nat * nat * Z) :=
  take n (zip (zip I_ J_) X_).

(** One pass of the loop that keeps the tuples with I[k] > J[k], moving
    them to the front of the three arrays ([I_], [J_], [X_] stand for the
    arrays I, J, X); [nedges] counts the kept ones. *)
Definition compact_step (a : list nat * list nat * list Z * nat) (k : nat)
    : list nat * list nat * list Z * nat :=
  let '(I_, J_, X_, nedges) := a in
  if bool_decide (J_ !!! k < I_ !!! k)   (* I [k] > J [k] *)
  then (<[nedges := I_ !!! k]> I_, <[nedges := J_ !!! k]> J_, <[nedges := X_ !!! k]> X_, S nedges)
  else a.

Definition compact (I_ J_ : list nat) (X_ : list Z) (nvals : nat)
    : list nat * list nat * list Z * nat :=
  foldl compact_step (I_, J_, X_, 0) (seq 0 nvals).

(** What [tricount_prep] leaves in L and U. With [GxB_select]: the result of
    [L = tril (A,-1)] and of [U = triu (A,1)] written into fresh [n] by [n]
    boolean matrices. *)
Definition tril_of (n : nat) (A : Matrix) : Matrix :=
  assign desc_default None None (Mat GrB_BOOL n n ∅) (selected GxB_TRIL (-1) false A).

Definition triu_of (n : nat) (A : Matrix) : Matrix :=
  assign desc_default None None (Mat GrB_BOOL n n ∅) (selected GxB_TRIU 1 false A).

(** With extractTuples: the tuples of [A], as bool, with row > column, and
    the matrices built from them as (I,J,X) and as (J,I,X). *)
Definition lower_tuples (A : Matrix) : list (nat * nat * Z) :=
  filter (λ t : nat * nat * Z, t.1.2 < t.1.1)
         ((λ t : nat * nat * Z, (t.1, typecast GrB_BOOL t.2)) <$> tuples_of A).

Definition swap_tuple (t : nat * nat * Z) : nat * nat * Z := (t.1.2, t.1.1, t.2).

Definition built_lower (n : nat) (A : Matrix) : Matrix :=
  Mat GrB_BOOL n n (build_entries GrB_BOOL GrB_LOR (lower_tuples A)).

Definition built_upper (n : nat) (A : Matrix) : Matrix :=
  Mat GrB_BOOL n n (build_entries GrB_BOOL GrB_LOR (swap_tuple <$> lower_tuples A)).

(** ** The engine: objects, handles and calls *)

(** A [GrB_Matrix] or [GxB_Scalar] variable holds a handle or [NULL]. *)
Definition handle : Type := nat.
Definition GrB_Matrix : Type := option handle.
Definition GxB_Scalar : Type := option handle.

Inductive object :=
| Matrix_object (A : Matrix)
| Scalar_object (ty : GrB_Type) (x : option Z).

(** The engine and allocator calls the file makes, as they are recorded:
    every call that yields a status or an array. The releases ([GrB_free],
    [LAGRAPH_FREE]) yield neither and are not recorded. *)
Inductive call :=
| Matrix_nrows
| Matrix_nvals
| Matrix_new (ty : GrB_Type) (nr nc : nat)
| Scalar_new (ty : GrB_Type)
| Scalar_setElement (x : Z)
| Select (op : GxB_SelectOp)
| Mxm (s : GrB_Semiring) (d : GrB_Descriptor)
| Reduce
| Matrix_extractTuples
| Matrix_build
| Malloc (n : nat).

Record event := Event { called : call; returned : GrB_Info }.

(** What a call of the file runs against:
    - [heap]: the live engine objects;
    - [faults]: the outcome scheduled for each coming call (a status other
      than [GrB_SUCCESS] makes that call fail with it; once the schedule is
      used up every call is carried out);
    - [trace]: the calls made so far with their status, most recent first
      (the releases apart);
    - [blocks]: the arrays obtained from [LAGraph_malloc] and not yet freed;
    - [ntri]: the values stored through the caller's pointer [ntri], most
      recent first. *)
Record state := State {
  heap : gmap handle object;
  faults : list GrB_Info;
  trace : list event;
  blocks : nat;
  ntri : list Z
}.

Definition set_heap (h : gmap handle object) (st : state) : state :=
  State h (faults st) (trace st) (blocks st) (ntri st).
Definition set_faults (f : list GrB_Info) (st : state) : state :=
  State (heap st) f (trace st) (blocks st) (ntri st).
Definition set_blocks (b : nat) (st : state) : state :=
  State (heap st) (faults st) (trace st) b (ntri st).
Definition store_ntri (x : Z) (st : state) : state :=
  State (heap st) (faults st) (trace st) (blocks st) (x :: ntri st).
Definition log (c : call) (i : GrB_Info) (st : state) : state :=
  State (heap st) (faults st) (Event c i :: trace st) (blocks st) (ntri st).

(** The outcome scheduled for the coming call. *)
Definition scheduled (st : state) : GrB_Info := default GrB_SUCCESS (head (faults st)).

(** A call: the scheduled outcome is consumed; on a scheduled failure the
    call does nothing and yields [x0]; otherwise [work] is carried out. The
    call and its status are recorded. *)
Definition primitive {X : Type} (c : call) (x0 : X)
    (work : state → GrB_Info * X * state) (st : state) : GrB_Info * X * state :=
  let st1 := set_faults (tail (faults st)) st in
  if decide (scheduled st = GrB_SUCCESS)
  then let '(info, x, st2) := work st1 in (info, x, log c info st2)
  else (scheduled st, x0, log c (scheduled st) st1).

Definition matrix_at (st : state) (A : GrB_Matrix) : option Matrix :=
  h ← A; o ← heap st !! h;
  match o with Matrix_object a => Some a | Scalar_object _ _ => None end.

Definition scalar_at (st : state) (s : GxB_Scalar) : option (GrB_Type * option Z) :=
  h ← s; o ← heap st !! h;
  match o with Scalar_object ty x => Some (ty, x) | Matrix_object _ => None end.

(** An optional matrix argument: [NULL] stands for "none". *)
Definition optional_matrix (st : state) (M : GrB_Matrix) : option (option Matrix) :=
  match M with
  | None => Some None
  | Some _ => Some <$> matrix_at st M
  end.

(** A mask, when given, has the dimensions of the output. *)
Definition mask_fits (mask : option Matrix) (c : Matrix) : Prop :=
  match mask with
  | Some m => nrows m = nrows c ∧ ncols m = ncols c
  | None => True
  end.

#[global] Instance mask_fits_dec mask c : Decision (mask_fits mask c).
Proof. destruct mask; simpl; apply _. Defined.

Definition put (A : GrB_Matrix) (o : object) (st : state) : state :=
  match A with
  | Some h => set_heap (<[h := o]> (heap st)) st
  | None => st
  end.

Definition GrB_Matrix_nrows (A : GrB_Matrix) : state → GrB_Info * nat * state :=
  primitive Matrix_nrows 0 (λ st,
    match matrix_at st A with
    | Some a => (GrB_SUCCESS, nrows a, st)
    | None => (GrB_UNINITIALIZED_OBJECT, 0, st)
    end).

Definition GrB_Matrix_nvals (A : GrB_Matrix) : state → GrB_Info * nat * state :=
  primitive Matrix_nvals 0 (λ st,
    match matrix_at st A with
    | Some a => (GrB_SUCCESS, size (entries a), st)
    | None => (GrB_UNINITIALIZED_OBJECT, 0, st)
    end).

(** A new object gets a handle that is not in use; on failure the output
    handle is [NULL]. *)
Definition GrB_Matrix_new (ty : GrB_Type) (nr nc : nat) : state → GrB_Info * GrB_Matrix * state :=
  primitive (Matrix_new ty nr nc) None (λ st,
    let h := fresh (dom (heap st)) in
    (GrB_SUCCESS, Some h, set_heap (<[h := Matrix_object (Mat ty nr nc ∅)]> (heap st)) st)).

Definition GxB_Scalar_new (ty : GrB_Type) : state → GrB_Info * GxB_Scalar * state :=
  primitive (Scalar_new ty) None (λ st,
    let h := fresh (dom (heap st)) in
    (GrB_SUCCESS, Some h, set_heap (<[h := Scalar_object ty None]> (heap st)) st)).

Definition GxB_Scalar_setElement (s : GxB_Scalar) (x : Z) : state → GrB_Info * unit * state :=
  primitive (Scalar_setElement x) () (λ st,
    match scalar_at st s with
    | Some (ty, _) => (GrB_SUCCESS, (), put s (Scalar_object ty (Some (typecast ty x))) st)
    | None => (GrB_UNINITIALIZED_OBJECT, (), st)
    end).

(** [GrB_free (&x)]: a live object is released; a [NULL] or stale handle is
    left alone. The variable is [NULL] afterwards. A release consumes no
    scheduled outcome and leaves no event in the trace. *)
Definition GrB_free (x : option handle) (st : state) : state :=
  match x with
  | Some h => set_heap (delete h (heap st)) st
  | None => st
  end.

Definition GrB_free_call (x : option handle) (st : state) : GrB_Info * option handle * state :=
  (GrB_SUCCESS, None, GrB_free x st).

(** [GxB_select (C, Mask, accum, op, A, thunk, desc)]. An empty or [NULL]
    thunk counts as 0. *)
Definition GxB_select (C Mask : GrB_Matrix) (accum : option GrB_BinaryOp)
    (op : GxB_SelectOp) (A : GrB_Matrix) (thunk : GxB_Scalar)
    (desc : option GrB_Descriptor) : state → GrB_Info * unit * state :=
  primitive (Select op) () (λ st,
    let d := settings desc in
    match matrix_at st C, optional_matrix st Mask, matrix_at st A with
    | Some c, Some mask, Some a =>
        if bool_decide (rows_of (inp0_tran d) a = nrows c ∧ cols_of (inp0_tran d) a = ncols c
                        ∧ mask_fits mask c)
        then
          let k := default 0%Z (scalar_at st thunk ≫= snd) in
          (GrB_SUCCESS, (),
           put C (Matrix_object (assign d mask accum c (selected op k (inp0_tran d) a))) st)
        else (GrB_DIMENSION_MISMATCH, (), st)
    | _, _, _ => (GrB_UNINITIALIZED_OBJECT, (), st)
    end).

(** [GrB_mxm (C, Mask, accum, semiring, A, B, desc)]. *)
Definition GrB_mxm (C Mask : GrB_Matrix) (accum : option GrB_BinaryOp)
    (s : GrB_Semiring) (A B : GrB_Matrix)
    (desc : option GrB_Descriptor) : state → GrB_Info * unit * state :=
  primitive (Mxm s (settings desc)) () (λ st,
    let d := settings desc in
    match matrix_at st C, optional_matrix st Mask, matrix_at st A, matrix_at st B with
    | Some c, Some mask, Some a, Some b =>
        if bool_decide (rows_of (inp0_tran d) a = nrows c ∧ cols_of (inp1_tran d) b = ncols c
                        ∧ cols_of (inp0_tran d) a = rows_of (inp1_tran d) b
                        ∧ mask_fits mask c)
        then
          (GrB_SUCCESS, (),
           put C (Matrix_object
                    (assign d mask accum c (dot s (inp0_tran d) a (inp1_tran d) b))) st)
        else (GrB_DIMENSION_MISMATCH, (), st)
    | _, _, _, _ => (GrB_UNINITIALIZED_OBJECT, (), st)
    end).

(** [GrB_reduce (ntri, accum, monoid, A, desc)]: the scalar is stored
    through [ntri]. *)
Definition GrB_reduce (accum : option GrB_BinaryOp) (monoid : GrB_Monoid)
    (A : GrB_Matrix) (desc : option GrB_Descriptor) : state → GrB_Info * unit * state :=
  primitive Reduce () (λ st,
    match matrix_at st A with
    | Some a =>
        let r := reduce_entries (entries a) in
        let x := match accum with
                 | Some op => typecast GrB_INT64 (binop op (default 0%Z (head (ntri st))) r)
                 | None => r
                 end in
        (GrB_SUCCESS, (), store_ntri x st)
    | None => (GrB_UNINITIALIZED_OBJECT, (), st)
    end).

(** [( *ntri) /= d]. *)
Definition divide_ntri (d : Z) (st : state) : state :=
  store_ntri (div_int64 (default 0%Z (head (ntri st))) d) st.

(** Modelled from the spec: [LAGraph_malloc] (LAGraph's allocator, not in
    the sources): a fresh array of [n] items, or [NULL] when the allocation
    fails (recorded as [GrB_OUT_OF_MEMORY]). The items are overwritten before
    they are read; they start as [filler]. *)
Definition LAGraph_malloc {T : Type} (filler : T) (n : nat) (st : state) : option (list T) * state :=
  let st1 := set_faults (tail (faults st)) st in
  if decide (scheduled st = GrB_SUCCESS)
  then (Some (replicate n filler), log (Malloc n) GrB_SUCCESS (set_blocks (S (blocks st1)) st1))
  else (None, log (Malloc n) GrB_OUT_OF_MEMORY st1).

(** [LAGRAPH_FREE (p)]. *)
Definition LAGRAPH_FREE {T : Type} (p : option (list T)) (st : state) : state :=
  match p with
  | Some _ => set_blocks (pred (blocks st)) st
  | None => st
  end.

(** [GrB_Matrix_extractTuples (I, J, X, &nvals, A)]: needs room for every
    tuple; the values are typecast to the type of [X] (bool). *)
Definition GrB_Matrix_extractTuples (I_ J_ : list nat) (X_ : list Z) (nvals : nat)
    (A : GrB_Matrix) : state → GrB_Info * (list nat * list nat * list Z * nat) * state :=
  primitive Matrix_extractTuples (I_, J_, X_, nvals) (λ st,
    match matrix_at st A with
    | Some a =>
        let ts := tuples_of a in
        if bool_decide (length ts ≤ nvals)
        then (GrB_SUCCESS,
              (ts.*1.*1 ++ drop (length ts) I_,
               ts.*1.*2 ++ drop (length ts) J_,
               (typecast GrB_BOOL <$> ts.*2) ++ drop (length ts) X_,
               length ts), st)
        else (GrB_INSUFFICIENT_SPACE, (I_, J_, X_, nvals), st)
    | None => (GrB_UNINITIALIZED_OBJECT, (I_, J_, X_, nvals), st)
    end).

(** [GrB_Matrix_build (C, I, J, X, nvals, dup)]: [C] must be empty and every
    index inside its dimensions. *)
Definition GrB_Matrix_build (C : GrB_Matrix) (I_ J_ : list nat) (X_ : list Z) (nvals : nat)
    (dup : GrB_BinaryOp) : state → GrB_Info * unit * state :=
  primitive Matrix_build () (λ st,
    match matrix_at st C with
    | Some c =>
        let ts := zip3 nvals I_ J_ X_ in
        if bool_decide (entries c ≠ ∅) then (GrB_OUTPUT_NOT_EMPTY, (), st)
        else if bool_decide (Forall (λ t : nat * nat * Z, t.1.1 < nrows c ∧ t.1.2 < ncols c) ts)
        then (GrB_SUCCESS, (),
              put C (Matrix_object (Mat (mtype c) (nrows c) (ncols c)
                                        (build_entries (mtype c) dup ts))) st)
        else (GrB_INDEX_OUT_OF_BOUNDS, (), st)
    | None => (GrB_UNINITIALIZED_OBJECT, (), st)
    end).

(** ** Function bodies with early return *)

(** A fragment of the body of a C function whose result type is [R]: it
    either goes on with a value or leaves the function with a result. *)
Inductive flow (R A : Type) :=
| Next (a : A)
| Exit (r : R).
Arguments Next {R A} a.
Arguments Exit {R A} r.

Definition body (R A : Type) : Type := state → flow R A * state.

#[global] Instance body_ret {R} : MRet (body R) := λ A a st, (Next a, st).
#[global] Instance body_bind {R} : MBind (body R) := λ A B k m st,
  match m st with
  | (Next a, st') => k a st'
  | (Exit r, st') => (Exit r, st')
  end.

(** [return (r)]. *)
Definition return_ {R A} (r : R) : body R A := λ st, (Exit r, st).

(** A statement that only changes the state. *)
Definition effect {R} (f : state → state) : body R unit := λ st, (Next (), f st).

(** A function whose body ends in a [return]. *)
Definition run {R} (b : body R R) (st : state) : R * state :=
  match b st with
  | (Next r, st') => (r, st')
  | (Exit r, st') => (r, st')
  end.

(** Modelled from the spec: the [LAGr_*] wrappers and [LAGRAPH_OK] of
    LAGraph.h (macros, not in the sources): the wrapped call is made, and a
    status other than [GrB_SUCCESS] runs the [LAGRAPH_FREE_ALL] in force and
    returns that status from the enclosing function ("any primitive-operation
    failure aborts the call, releases every intermediate structure allocated
    so far, and surfaces the originating failure"). [on_failure] is that
    cleanup-and-return, given what the call left in its outputs; a call
    that fails to create an object leaves [NULL] in its output handle. *)
Definition LAGRAPH_OK {R X} (on_failure : X → GrB_Info → body R X)
    (method : state → GrB_Info * X * state) : body R X :=
  λ st, let '(info, x, st') := method st in
        if decide (info = GrB_SUCCESS) then (Next x, st') else on_failure x info st'.

Definition LAGr {R X} (on_failure : GrB_Info → body R X)
    (method : state → GrB_Info * X * state) : body R X :=
  LAGRAPH_OK (λ _, on_failure) method.

(** [LAGraph_malloc] and [LAGRAPH_FREE] as statements. *)
Definition malloc {R T} (filler : T) (n : nat) : body R (option (list T)) :=
  λ st, let '(p, st') := LAGraph_malloc filler n st in (Next p, st').

(** Modelled from the spec: the macro [GxB_VERSION] of GraphBLAS.h (not in
    the sources), which packs a version triple into one number. *)
Definition GxB_VERSION (major minor sub : Z) : Z := ((major * 1000 + minor) * 1000 + sub)%Z.

(** What the source leaves to the build and to the C implementation:
    - whether [GxB_SUITESPARSE_GRAPHBLAS] is defined, and [GxB_IMPLEMENTATION];
    - the status read by the caller of [tricount_prep] when control reaches
      its closing brace (the function has no [return] statement there);
    - the value of the local [thunk] of [tricount_prep] before anything is
      assigned to it (it is declared without an initializer). *)
Record platform := Platform {
  GxB_SUITESPARSE_GRAPHBLAS : bool;
  GxB_IMPLEMENTATION : Z;
  fallthrough_status : GrB_Info;
  indeterminate_thunk : option handle
}.

Section Program.
Context (pf : platform).

(** [#if defined ( GxB_SUITESPARSE_GRAPHBLAS ) && ( GxB_IMPLEMENTATION >= GxB_VERSION (3,0,1) )] *)
Definition have_select : bool :=
  GxB_SUITESPARSE_GRAPHBLAS pf && (GxB_VERSION 3 0 1 <=? GxB_IMPLEMENTATION pf)%Z.

(** [#if defined ( GxB_SUITESPARSE_GRAPHBLAS ) && ( GxB_IMPLEMENTATION >= GxB_VERSION (3,2,0) )] *)
Definition have_pair : bool :=
  GxB_SUITESPARSE_GRAPHBLAS pf && (GxB_VERSION 3 2 0 <=? GxB_IMPLEMENTATION pf)%Z.

(** *** tricount_prep: construct L and U

    [L] and [U] are pointers to the caller's variables: [None] is a [NULL]
    pointer, [Some v] points to a variable holding [v]. The result gives the
    status and what the two variables hold afterwards. *)

Definition prep_outputs : Type := option GrB_Matrix * option GrB_Matrix.

(** [GrB_free (L)] through a pointer that may be [NULL]. *)
Definition free_through (p : option GrB_Matrix) (st : state) : state :=
  match p with
  | Some x => GrB_free x st
  | None => st
  end.

Definition nulled (p : option GrB_Matrix) : option GrB_Matrix :=
  match p with
  | Some _ => Some None
  | None => None
  end.

(** [LAGRAPH_FREE_ALL] of [tricount_prep]:
    [GrB_free (&thunk) ; GrB_free (L) ; GrB_free (U) ;] *)
Definition prep_FREE_ALL (thunk : option handle) (L U : option GrB_Matrix) (st : state) : state :=
  free_through U (free_through L (GrB_free thunk st)).

Definition prep_fails {X} (thunk : option handle) (L U : option GrB_Matrix)
    (info : GrB_Info) : body (GrB_Info * prep_outputs) X :=
  λ st, (Exit (info, (nulled L, nulled U)), prep_FREE_ALL thunk L U st).

(** The body compiled when [GxB_select] is available. *)
Definition tricount_prep_select (L U : option GrB_Matrix) (A : GrB_Matrix)
    : body (GrB_Info * prep_outputs) prep_outputs :=
  let thunk := indeterminate_thunk pf in
  n ← LAGr (prep_fails thunk L U) (GrB_Matrix_nrows A);
  thunk ← LAGr (prep_fails None L U) (GxB_Scalar_new GrB_INT64);
  L ← match L with
      | Some _ =>
          (* L = tril (A,-1) *)
          l ← LAGr (prep_fails thunk (Some None) U) (GrB_Matrix_new GrB_BOOL n n);
          LAGr (prep_fails thunk (Some l) U) (GxB_Scalar_setElement thunk (-1));;
          LAGr (prep_fails thunk (Some l) U) (GxB_select l None None GxB_TRIL A thunk None);;
          mret (Some l)
      | None => mret None
      end;
  U ← match U with
      | Some _ =>
          (* U = triu (A,1) *)
          u ← LAGr (prep_fails thunk L (Some None)) (GrB_Matrix_new GrB_BOOL n n);
          LAGr (prep_fails thunk L (Some u)) (GxB_Scalar_setElement thunk 1);;
          LAGr (prep_fails thunk L (Some u)) (GxB_select u None None GxB_TRIU A thunk None);;
          mret (Some u)
      | None => mret None
      end;
  LAGr (prep_fails thunk L U) (GrB_free_call thunk);;
  mret (L, U).

(** The body compiled otherwise: build L and U with extractTuples. The
    source assigns [nedges] without declaring it and gives [LAGRAPH_ERROR]
    the message only; [nedges] is read as a local counter starting at 0 and
    the error as [GrB_OUT_OF_MEMORY]. [I], [J] and [X] are freed at the end
    of the block only: [LAGRAPH_FREE_ALL] does not mention them. *)
Definition tricount_prep_extract (L U : option GrB_Matrix) (A : GrB_Matrix)
    : body (GrB_Info * prep_outputs) prep_outputs :=
  let thunk := indeterminate_thunk pf in
  n ← LAGr (prep_fails thunk L U) (GrB_Matrix_nrows A);
  if bool_decide (L ≠ None ∨ U ≠ None) then
    nvals ← LAGr (prep_fails thunk L U) (GrB_Matrix_nvals A);
    I_ ← malloc 0 nvals;
    J_ ← malloc 0 nvals;
    X_ ← malloc 0%Z nvals;
    match I_, J_, X_ with
    | Some I_, Some J_, Some X_ =>
        '(I_, J_, X_, nvals) ← LAGr (prep_fails thunk L U)
                               (GrB_Matrix_extractTuples I_ J_ X_ nvals A);
        (* remove entries in the upper triangular part *)
        let '(I_, J_, X_, nedges) := compact I_ J_ X_ nvals in
        L ← match L with
            | Some _ =>
                l ← LAGr (prep_fails thunk (Some None) U) (GrB_Matrix_new GrB_BOOL n n);
                LAGr (prep_fails thunk (Some l) U) (GrB_Matrix_build l I_ J_ X_ nedges GrB_LOR);;
                mret (Some l)
            | None => mret None
            end;
        U ← match U with
            | Some _ =>
                u ← LAGr (prep_fails thunk L (Some None)) (GrB_Matrix_new GrB_BOOL n n);
                LAGr (prep_fails thunk L (Some u)) (GrB_Matrix_build u J_ I_ X_ nedges GrB_LOR);;
                mret (Some u)
            | None => mret None
            end;
        effect (LAGRAPH_FREE (Some I_));;
        effect (LAGRAPH_FREE (Some J_));;
        effect (LAGRAPH_FREE (Some X_));;
        mret (L, U)
    | _, _, _ => prep_fails thunk L U GrB_OUT_OF_MEMORY    (* LAGRAPH_ERROR ("out of memory") *)
    end
  else mret (L, U).

(** [tricount_prep]: whichever body the build selects; when the body runs
    to its closing brace the caller reads [fallthrough_status]. *)
Definition tricount_prep (L U : option GrB_Matrix) (A : GrB_Matrix)
    (st : state) : GrB_Info * prep_outputs * state :=
  match (if have_select then tricount_prep_select L U A else tricount_prep_extract L U A) st with
  | (Next out, st') => (fallthrough_status pf, out, st')
  | (Exit r, st') => (r, st')
  end.

(** *** LAGraph_tricount: count the number of triangles in a graph *)

(** [LAGRAPH_FREE_ALL] of [LAGraph_tricount]:
    [GrB_free (&C) ; GrB_free (&L) ; GrB_free (&U) ;] *)
Definition LAGRAPH_FREE_ALL (C L U : GrB_Matrix) (st : state) : state :=
  GrB_free U (GrB_free L (GrB_free C st)).

Definition fails {X} (C L U : GrB_Matrix) (info : GrB_Info) : body GrB_Info X :=
  λ st, (Exit info, LAGRAPH_FREE_ALL C L U st).

(** The caller's variable after a call that was handed its address. *)
Definition after (v : GrB_Matrix) (p : option GrB_Matrix) : GrB_Matrix := default v p.

Definition prep_failed (C L U : GrB_Matrix) (out : prep_outputs) (info : GrB_Info)
    : body GrB_Info prep_outputs :=
  fails C (after L out.1) (after U out.2) info.

Definition LAGraph_tricount (method : Z) (A : GrB_Matrix) : state → GrB_Info * state :=
  run (
    let C : GrB_Matrix := None in
    let L : GrB_Matrix := None in
    let U : GrB_Matrix := None in
    n ← LAGr (fails C L U) (GrB_Matrix_nrows A);
    let s := if have_pair then GxB_PLUS_PAIR_INT64 else LAGraph_PLUS_TIMES_INT64 in
    let desc_s := if have_pair then Some GrB_DESC_S else None in
    let desc_st1 := if have_pair then Some GrB_DESC_ST1 else Some LAGraph_desc_otoo in
    let sum := LAGraph_PLUS_INT64_MONOID in
    C ← LAGr (fails None L U) (GrB_Matrix_new GrB_INT64 n n);
    '(L, U) ←
      match method with
      | 1%Z =>   (* Burkhardt:  ntri = sum (sum ((A^2) .* A)) / 6 *)
          LAGr (fails C L U) (GrB_mxm C A None s A A desc_s);;
          LAGr (fails C L U) (GrB_reduce None sum C None);;
          effect (divide_ntri 6);;
          mret (L, U)
      | 2%Z =>   (* Cohen:      ntri = sum (sum ((L * U) .* A)) / 2 *)
          out ← LAGRAPH_OK (prep_failed C L U) (tricount_prep (Some L) (Some U) A);
          let L := after L out.1 in
          let U := after U out.2 in
          LAGr (fails C L U) (GrB_mxm C A None s L U desc_s);;
          LAGr (fails C L U) (GrB_reduce None sum C None);;
          effect (divide_ntri 2);;
          mret (L, U)
      | 3%Z =>   (* Sandia:     ntri = sum (sum ((L * L) .* L)) *)
          out ← LAGRAPH_OK (prep_failed C L U) (tricount_prep (Some L) None A);
          let L := after L out.1 in
          let U := after U out.2 in
          LAGr (fails C L U) (GrB_mxm C L None s L L desc_s);;
          LAGr (fails C L U) (GrB_reduce None sum C None);;
          mret (L, U)
      | 4%Z =>   (* Sandia2:    ntri = sum (sum ((U * U) .* U)) *)
          out ← LAGRAPH_OK (prep_failed C L U) (tricount_prep None (Some U) A);
          let L := after L out.1 in
          let U := after U out.2 in
          LAGr (fails C L U) (GrB_mxm C U None s U U desc_s);;
          LAGr (fails C L U) (GrB_reduce None sum C None);;
          mret (L, U)
      | 5%Z =>   (* SandiaDot:  ntri = sum (sum ((L * U') .* L)) *)
          out ← LAGRAPH_OK (prep_failed C L U) (tricount_prep (Some L) (Some U) A);
          let L := after L out.1 in
          let U := after U out.2 in
          LAGr (fails C L U) (GrB_mxm C L None s L U desc_st1);;
          LAGr (fails C L U) (GrB_reduce None sum C None);;
          mret (L, U)
      | 6%Z =>   (* SandiaDot2: ntri = sum (sum ((U * L') .* U)) *)
          out ← LAGRAPH_OK (prep_failed C L U) (tricount_prep (Some L) (Some U) A);
          let L := after L out.1 in
          let U := after U out.2 in
          LAGr (fails C L U) (GrB_mxm C U None s U L desc_st1);;
          LAGr (fails C L U) (GrB_reduce None sum C None);;
          mret (L, U)
      | _ =>     (* invalid method *)
          return_ GrB_INVALID_VALUE
      end;
    effect (LAGRAPH_FREE_ALL C L U);;
    mret GrB_SUCCESS).

End Program.

(** ** Names for what the program computes and records *)

(** The L and U that [tricount_prep] constructs from [A] on a platform. *)
Definition lower_of (pf : platform) (A : Matrix) : Matrix :=
  if have_select pf then tril_of (nrows A) A else built_lower (nrows A) A.

Definition upper_of (pf : platform) (A : Matrix) : Matrix :=
  if have_select pf then triu_of (nrows A) A else built_upper (nrows A) A.

(** The heap once a requested output has been stored under handle [x]. *)
Definition install (p : option GrB_Matrix) (x : handle) (M : Matrix)
    (h : gmap handle object) : gmap handle object :=
  match p with
  | Some _ => <[x := Matrix_object M]> h
  | None => h
  end.

(** The value [GrB_reduce] yields on the result of
    [GrB_mxm (C, Mask, NULL, s, A, B, desc)] for a fresh [n] by [n] INT64
    matrix [C]. *)
Definition masked_sum (s : GrB_Semiring) (desc : option GrB_Descriptor) (n : nat)
    (Mask A B : Matrix) : Z :=
  reduce_entries
    (entries (assign (settings desc) (Some Mask) None (Mat GrB_INT64 n n ∅)
                (dot s (inp0_tran (settings desc)) A (inp1_tran (settings desc)) B))).

(** The semiring and the two descriptors [LAGraph_tricount] selects. *)
Definition semiring_of (pf : platform) : GrB_Semiring :=
  if have_pair pf then GxB_PLUS_PAIR_INT64 else LAGraph_PLUS_TIMES_INT64.
Definition desc_s_of (pf : platform) : option GrB_Descriptor :=
  if have_pair pf then Some GrB_DESC_S else None.
Definition desc_st1_of (pf : platform) : option GrB_Descriptor :=
  if have_pair pf then Some GrB_DESC_ST1 else Some LAGraph_desc_otoo.

(** The descriptors of the [GrB_mxm] calls recorded in a trace, most recent
    first. *)
Definition mxm_descriptors (tr : list event) : list GrB_Descriptor :=
  omap (λ e, match called e with Mxm _ d => Some d | _ => None end) tr.

(** The allocations recorded in a trace: the calls that created an object
    or an array. *)
Definition is_allocation (e : event) : bool :=
  match called e, returned e with
  | Matrix_new _ _ _, GrB_SUCCESS => true
  | Scalar_new _, GrB_SUCCESS => true
  | Malloc _, GrB_SUCCESS => true
  | _, _ => false
  end.

Definition allocations (tr : list event) : nat := length (filter (λ e, is_allocation e = true) tr).

(** The calls that compute: split, multiply, reduce. *)
Definition is_computation (e : event) : bool :=
  match called e with
  | Select _ | Mxm _ _ | Reduce | Matrix_extractTuples | Matrix_build => true
  | _ => false
  end.

(** The events a call added to the trace, most recent first. *)
Definition new_events (before after : list event) : list event :=
  take (length after - length before) after.

(** The status of the first call that failed among [evs] (most recent
    first), if any did. *)
Definition first_failure (evs : list event) : option GrB_Info :=
  last (filter (λ i, i ≠ GrB_SUCCESS) (returned <$> evs)).

(** A state holding one graph under handle 0 and nothing else, with a
    schedule of outcomes. *)
Definition graph_state (A : Matrix) (schedule : list GrB_Info) : state :=
  State {[ 0 := Matrix_object A ]} schedule [] 0 [].

(** Platforms: a recent SuiteSparse:GraphBLAS (select and PAIR), one with
    select only, and a plain GraphBLAS. *)
Definition suitesparse_3_2 : platform := Platform true 3002000 GrB_SUCCESS None.
Definition suitesparse_3_0 : platform := Platform true 3000001 GrB_SUCCESS None.
Definition plain_graphblas : platform := Platform false 0 GrB_SUCCESS None.

(** A triangle 0-1-2 with a self-edge at node 2. *)
Definition triangle_with_loop : Matrix :=
  Mat GrB_BOOL 3 3 (<[(2, 2) := 1%Z]> (entries (complete 3))).

(** A complete graph too large for its 6-fold count to fit in 64 bits. *)
Definition huge : nat := Z.to_nat 2097154.

(** The least number of nodes of a complete graph whose doubled triangle
    count does not fit in 64 bits. *)
Definition huger : nat := Z.to_nat 3024618.

(** The value the reduction of each method yields on [A], the divisor the
    method applies to it, and the values it stores through [ntri]. *)
Definition raw_value (pf : platform) (method : Z) (A : Matrix) : Z :=
  let n := nrows A in
  let s := semiring_of pf in
  let L := lower_of pf A in
  let U := upper_of pf A in
  match method with
  | 1%Z => masked_sum s (desc_s_of pf) n A A A
  | 2%Z => masked_sum s (desc_s_of pf) n A L U
  | 3%Z => masked_sum s (desc_s_of pf) n L L L
  | 4%Z => masked_sum s (desc_s_of pf) n U U U
  | 5%Z => masked_sum s (desc_st1_of pf) n L L U
  | 6%Z => masked_sum s (desc_st1_of pf) n U U L
  | _ => 0%Z
  end.

Definition divisor (method : Z) : Z :=
  match method with
  | 1%Z => 6%Z
  | 2%Z => 2%Z
  | _ => 1%Z
  end.

Definition stores (pf : platform) (method : Z) (A : Matrix) : list Z :=
  match method with
  | 1%Z | 2%Z => [div_int64 (raw_value pf method A) (divisor method); raw_value pf method A]
  | _ => [raw_value pf method A]
  end.

(** The descriptor each method hands to [GrB_mxm]. *)
Definition method_descriptor (pf : platform) (method : Z) : GrB_Descriptor :=
  match method with
  | 5%Z | 6%Z => settings (desc_st1_of pf)
  | _ => settings (desc_s_of pf)
  end.

(** The count a call stored last through [ntri], if it stored any. *)
Definition count_of (st : state) : option Z := head (ntri st).

(** ** Following a call through its failures *)

(** The handle a variable holds, as a set. *)
Definition held (x : option handle) : gset handle :=
  match x with
  | Some h => {[ h ]}
  | None => ∅
  end.

Definition held_through (p : option GrB_Matrix) : gset handle :=
  match p with
  | Some x => held x
  | None => ∅
  end.

(** [tracked st0 owned status st]: since [st0] the call recorded events
    whose first failure is [status], has stored nothing through [ntri], and
    every live object is one of [st0] or one of [owned]. *)
Definition tracked (st0 : state) (owned : gset handle) (status : option GrB_Info)
    (st : state) : Prop :=
  ∃ evs, trace st = evs ++ trace st0
         ∧ first_failure evs = status
         ∧ ntri st = ntri st0
         ∧ dom (heap st) ⊆ dom (heap st0) ∪ owned.

(** What a call did: the event it recorded, the handle it created, the
    value it stored through [ntri]. A failed call creates and stores
    nothing and leaves the heap as it was. *)
Definition call_effect (c : call) (st : state) (info : GrB_Info)
    (created : option handle) (stored : option Z) (st' : state) : Prop :=
  trace st' = Event c info :: trace st
  ∧ ntri st' = match stored with Some v => v :: ntri st | None => ntri st end
  ∧ dom (heap st') = held created ∪ dom (heap st)
  ∧ (info ≠ GrB_SUCCESS → created = None ∧ stored = None).

(** Weakest preconditions of function bodies: [Qn] on going on, [Qe] on
    leaving the function. *)
Definition wp {R A : Type} (m : body R A) (Qn : A → state → Prop)
    (Qe : R → state → Prop) (st : state) : Prop :=
  match m st with
  | (Next a, st') => Qn a st'
  | (Exit r, st') => Qe r st'
  end.

(** On leaving [tricount_prep] through a failure: its status is that of
    the first failed call, and L and U are [NULL]. *)
Definition prep_exit (st0 : state) (owned : gset handle) (L0 U0 : option GrB_Matrix)
    (r : GrB_Info * prep_outputs) (st : state) : Prop :=
  tracked st0 owned (Some r.1) st ∧ r.2 = (nulled L0, nulled U0).

(** On reaching its closing brace: no call failed, and the objects created
    are those left in L and U. *)
Definition prep_end (st0 : state) (owned : gset handle) (out : prep_outputs)
    (st : state) : Prop :=
  tracked st0 (owned ∪ held_through out.1 ∪ held_through out.2) None st.

(** The contract of a failed call of [LAGraph_tricount]: when some call
    made since [st] failed, the status of the first such call is returned,
    no object created since [st] is live, and nothing was stored through
    [ntri]. *)
Definition failure_contract (st : state) (info : GrB_Info) (st' : state) : Prop :=
  ∀ e, first_failure (new_events (trace st) (trace st')) = Some e →
       info = e ∧ dom (heap st') ⊆ dom (heap st) ∧ ntri st' = ntri st.

(** No call made since [st0] has failed. *)
Definition unfailed (st0 st : state) : Prop :=
  ∃ evs, trace st = evs ++ trace st0 ∧ first_failure evs = None.

(** How a call of [LAGraph_tricount] started in [st0] ends: either the
    status is that of the first failed call, nothing created since [st0] is
    live and nothing was stored through [ntri], or no call failed. *)
Definition settled (st0 : state) (info : GrB_Info) (st : state) : Prop :=
  tracked st0 ∅ (Some info) st ∨ unfailed st0 st.

(** ** What a call returns and what the builder hands back *)

(** A call that succeeded and stored [x] last through [ntri]. *)
Definition returns (r : GrB_Info * state) (x : Z) : Prop :=
  r.1 = GrB_SUCCESS ∧ count_of r.2 = Some x.

(** The strictly lower and strictly upper part of a structure. *)
Definition strictly_lower (s : gset (nat * nat)) : gset (nat * nat) :=
  filter (λ p : nat * nat, p.2 < p.1) s.

Definition strictly_upper (s : gset (nat * nat)) : gset (nat * nat) :=
  filter (λ p : nat * nat, p.1 < p.2) s.

(** The dimensions and the structure of the matrix an output variable of
    [tricount_prep] holds; [None] for an output that was not requested. *)
Definition output_structure (st : state) (p : option GrB_Matrix)
    : option (nat * nat * gset (nat * nat)) :=
  x ← p; M ← matrix_at st x; Some (nrows M, ncols M, structure M).

(** ** Further names for what a call records *)

(** The arrays obtained in a trace: the [LAGraph_malloc] calls that
    succeeded. *)
Definition is_array (e : event) : bool :=
  match called e, returned e with
  | Malloc _, GrB_SUCCESS => true
  | _, _ => false
  end.

Definition arrays (evs : list event) : nat := length (filter (λ e, is_array e = true) evs).

(** The number of ordered index triples (i,j,k) below [n] with (i,j), (i,k)
    and (k,j) all in the structure of [A]: what the masked product A*A
    summed over the structure of A counts. *)
Definition ordered_triples (A : Matrix) : Z :=
  sum3 (nrows A) (λ i j k, b2z (edge A i j && edge A i k && edge A k j)).

(** The largest number of nodes for which six times the triangle count of
    any graph fits in a signed 64-bit integer. *)
Definition exact_nodes : nat := Z.to_nat 2097153.

(** [A] with every stored value replaced by [w], as an INT64 matrix. *)
Definition weighted (A : Matrix) (w : Z) : Matrix :=
  Mat GrB_INT64 (nrows A) (ncols A) ((λ _ : Z, w) <$> entries A).

#[global] Instance GrB_Semiring_eq_dec : EqDecision GrB_Semiring.
Proof. solve_decision. Defined.

#[global] Instance GrB_Descriptor_eq_dec : EqDecision GrB_Descriptor.
Proof. solve_decision. Defined.

(** Whether GrB_mxm has been called in a trace. *)
Definition is_mxm (e : event) : bool :=
  match called e with
  | Mxm _ _ => true
  | _ => false
  end.

Definition multiplied (evs : list event) : bool := existsb is_mxm evs.

(** The calls the file can make on a platform ([sel]: GxB_select is
    available; [pair]: the PAIR semiring is): the calls of the body of
    tricount_prep that is compiled, square matrices only, and GrB_mxm with
    the semiring and one of the two descriptors bound at the top of
    LAGraph_tricount. *)
Definition permitted (sel pair : bool) (e : event) : bool :=
  match called e with
  | Matrix_nrows | Reduce => true
  | Matrix_new ty nr nc => bool_decide (nr = nc)
  | Scalar_new ty => sel && bool_decide (ty = GrB_INT64)
  | Scalar_setElement x => sel && (bool_decide (x = (-1)%Z) || bool_decide (x = 1%Z))
  | Select _ => sel
  | Matrix_nvals | Malloc _ | Matrix_extractTuples | Matrix_build => negb sel
  | Mxm s d =>
      if pair
      then bool_decide (s = GxB_PLUS_PAIR_INT64)
           && (bool_decide (d = GrB_DESC_S) || bool_decide (d = GrB_DESC_ST1))
      else bool_decide (s = LAGraph_PLUS_TIMES_INT64)
           && (bool_decide (d = desc_default) || bool_decide (d = LAGraph_desc_otoo))
  end.

(** A trace (most recent first) in which a call other than
    [LAGraph_malloc] is made only when no earlier call has failed. *)
Definition succeeded (e : event) : bool := bool_decide (returned e = GrB_SUCCESS).

Definition is_malloc (e : event) : bool :=
  match called e with
  | Malloc _ => true
  | _ => false
  end.

Fixpoint prompt (evs : list event) : bool :=
  match evs with
  | [] => true
  | e :: earlier => (is_malloc e || forallb succeeded earlier) && prompt earlier
  end.

(** The arrays a call leaves allocated: those it obtained, when it failed
    before reaching GrB_mxm. *)
Definition leaked (evs : list event) : nat :=
  if bool_decide (first_failure evs ≠ None) && negb (multiplied evs) then arrays evs else 0.

(** What one engine call does to the state besides what [call_effect]
    says: the arrays are untouched, only the object the call writes to
    ([target]) or creates can differ afterwards, and a created object gets a
    handle that was not in use. *)
Definition call_record (c : call) (target created : option handle)
    (st : state) (info : GrB_Info) (st' : state) : Prop :=
  trace st' = Event c info :: trace st
  ∧ blocks st' = blocks st
  ∧ (∀ k, k ∉ held target ∪ held created → heap st' !! k = heap st !! k)
  ∧ (∀ h, created = Some h → heap st !! h = None)
  ∧ (info ≠ GrB_SUCCESS → created = None).

(** [audited st0 sel pair G owned status a k m st]: since [st0] the call
    recorded permitted events only, whose first failure is [status], of
    which [a] obtained an array, [m] telling whether GrB_mxm was among them,
    none but LAGraph_malloc made after a failure; [k] arrays more than in
    [st0] are allocated; and, under the proviso [G]
    (that the handles the call started with name no object of [st0]), the
    handles in [owned] name none either and every object of [st0] is as it
    was. *)
Definition audited (st0 : state) (sel pair : bool) (G : Prop)
    (owned : gset handle) (status : option GrB_Info) (a k : nat) (m : bool)
    (st : state) : Prop :=
  ∃ evs, trace st = evs ++ trace st0
         ∧ first_failure evs = status
         ∧ Forall (λ e, permitted sel pair e = true) evs
         ∧ arrays evs = a
         ∧ multiplied evs = m
         ∧ blocks st = blocks st0 + k
         ∧ prompt evs = true
         ∧ (G → owned ## dom (heap st0)
                ∧ ∀ h, h ∈ dom (heap st0) → heap st !! h = heap st0 !! h).

(** On leaving tricount_prep through a failure L and U are [NULL] and every
    array obtained is still allocated; at its closing brace none is, and the
    objects created are those left in L and U. *)
Definition audit_exit (st0 : state) (pair : bool) (G : Prop) (owned0 : gset handle)
    (L0 U0 : option GrB_Matrix) (sel : bool) (r : GrB_Info * prep_outputs) (st : state) : Prop :=
  r.2 = (nulled L0, nulled U0)
  ∧ ∃ a, audited st0 sel pair G owned0 (Some r.1) a a false st.

Definition audit_end (st0 : state) (pair : bool) (G : Prop) (owned0 : gset handle)
    (sel : bool) (out : prep_outputs) (st : state) : Prop :=
  ∃ a, audited st0 sel pair G (owned0 ∪ held_through out.1 ∪ held_through out.2)
         None a 0 false st.

(** How a call of LAGraph_tricount started in [st0] ends, whatever failed:
    it has made permitted calls only, none but LAGraph_malloc after a
    failure, it leaves allocated the arrays of [leaked], and (under the proviso [G]) every object of [st0] is as it
    was. *)
Definition accounted (st0 : state) (sel pair : bool) (G : Prop) (st : state) : Prop :=
  ∃ evs, trace st = evs ++ trace st0
         ∧ Forall (λ e, permitted sel pair e = true) evs
         ∧ blocks st = blocks st0 + leaked evs
         ∧ prompt evs = true
         ∧ (G → ∀ h, h ∈ dom (heap st0) → heap st !! h = heap st0 !! h).

(** The boolean [n] by [n] matrix holding 1 at every position of [s]. *)
Definition ones_at (n : nat) (s : gset (nat * nat)) : Matrix :=
  Mat GrB_BOOL n n (gset_to_gmap 1%Z s).

(** The matrix an output variable of [tricount_prep] holds; [None] for an
    output that was not requested. *)
Definition output_matrix (st : state) (p : option GrB_Matrix) : option Matrix :=
  x ← p; matrix_at st x.

(* ===================================================================== *)
(** * Part II.  Properties                                                *)
(* ===================================================================== *)

(** ** 64-bit arithmetic *)

Section Int64.
Local Open Scope Z_scope.

Lemma wrap64_range z : INT64_MIN <= wrap64 z <= INT64_MAX.
Proof.
  unfold wrap64, INT64_MIN, INT64_MAX.
  pose proof (Z.mod_pos_bound (z + 2 ^ 63) (2 ^ 64) ltac:(lia)). lia.
Qed.

Lemma wrap64_small z : INT64_MIN <= z <= INT64_MAX → wrap64 z = z.
Proof.
  unfold wrap64, INT64_MIN, INT64_MAX. intros H.
  rewrite Z.mod_small; lia.
Qed.

Lemma wrap64_congr x y : x mod 2 ^ 64 = y mod 2 ^ 64 → wrap64 x = wrap64 y.
Proof.
  intros H. unfold wrap64. f_equal.
  rewrite (Z.add_mod x), (Z.add_mod y), H by lia. reflexivity.
Qed.

Lemma wrap64_mod z : wrap64 z mod 2 ^ 64 = z mod 2 ^ 64.
Proof.
  unfold wrap64. rewrite Zminus_mod_idemp_l. f_equal. lia.
Qed.

Lemma wrap64_idem z : wrap64 (wrap64 z) = wrap64 z.
Proof. apply wrap64_congr, wrap64_mod. Qed.

Lemma wrap64_plus x y : wrap64 (wrap64 x + wrap64 y) = wrap64 (x + y).
Proof.
  apply wrap64_congr.
  rewrite Z.add_mod, !wrap64_mod, <- Z.add_mod by lia. reflexivity.
Qed.

Lemma wrap64_plus_l x y : wrap64 (wrap64 x + y) = wrap64 (x + y).
Proof.
  apply wrap64_congr.
  rewrite Z.add_mod, wrap64_mod, <- Z.add_mod by lia. reflexivity.
Qed.

Lemma wrap64_plus_r x y : wrap64 (x + wrap64 y) = wrap64 (x + y).
Proof. rewrite Z.add_comm, wrap64_plus_l. f_equal. lia. Qed.

Lemma wrap64_0 : wrap64 0 = 0.
Proof. reflexivity. Qed.

Lemma wrap64_1 : wrap64 1 = 1.
Proof. reflexivity. Qed.

(** A wrapped even number is even: 2 divides 2^64. *)
Lemma wrap64_even z : (2 | z) → (2 | wrap64 z).
Proof.
  intros [q ->]. unfold wrap64.
  rewrite (Z.mod_eq (q * 2 + 2 ^ 63) (2 ^ 64)) by lia.
  exists (q + 2 ^ 62 - 2 ^ 63 * ((q * 2 + 2 ^ 63) / 2 ^ 64) - 2 ^ 62). lia.
Qed.

Lemma foldr_plus_int64 (ts : list Z) :
  foldr plus_int64 0 ts = wrap64 (foldr Z.add 0 ts).
Proof.
  induction ts as [|t ts IH]; simpl; [reflexivity|].
  unfold plus_int64 at 1. rewrite IH, wrap64_plus_r. reflexivity.
Qed.

End Int64.

(** ** Finite sums *)

Section Sums.
Local Open Scope Z_scope.

Lemma sum_below_ext n f g :
  (∀ i, (i < n)%nat → f i = g i) → sum_below n f = sum_below n g.
Proof.
  induction n as [|n IH]; simpl; intros H; [reflexivity|].
  rewrite IH, H by (intros; try apply H; lia). reflexivity.
Qed.

Lemma sum_below_zero n : sum_below n (λ _, 0) = 0.
Proof. induction n as [|n IH]; simpl; lia. Qed.

Lemma sum_below_plus n f g :
  sum_below n (λ i, f i + g i) = sum_below n f + sum_below n g.
Proof. induction n as [|n IH]; simpl; lia. Qed.

Lemma sum_below_scale n c f :
  sum_below n (λ i, c * f i) = c * sum_below n f.
Proof. induction n as [|n IH]; simpl; lia. Qed.

Lemma sum_below_nonneg n f :
  (∀ i, (i < n)%nat → 0 <= f i) → 0 <= sum_below n f.
Proof.
  induction n as [|n IH]; simpl; intros H; [lia|].
  specialize (H n ltac:(lia)) as Hn.
  assert (0 <= sum_below n f) by (apply IH; intros; apply H; lia). lia.
Qed.

Lemma sum_below_le n f g :
  (∀ i, (i < n)%nat → f i <= g i) → sum_below n f <= sum_below n g.
Proof.
  induction n as [|n IH]; simpl; intros H; [lia|].
  specialize (H n ltac:(lia)) as Hn.
  assert (sum_below n f <= sum_below n g) by (apply IH; intros; apply H; lia). lia.
Qed.

Lemma sum_below_const n c : sum_below n (λ _, c) = Z.of_nat n * c.
Proof. induction n as [|n IH]; simpl sum_below; lia. Qed.

(** Exchange of two summations. *)
Lemma sum_below_swap n m (f : nat → nat → Z) :
  sum_below n (λ i, sum_below m (λ j, f i j)) =
  sum_below m (λ j, sum_below n (λ i, f i j)).
Proof.
  induction n as [|n IH]; simpl.
  - symmetry. apply sum_below_zero.
  - rewrite IH, <- sum_below_plus. reflexivity.
Qed.

(** A function that vanishes away from one index sums to its value there. *)
Lemma sum_below_point n i0 x :
  sum_below n (λ i, if decide (i = i0) then x else 0) = if decide (i0 < n)%nat then x else 0.
Proof.
  induction n as [|n IH]; simpl.
  - destruct (decide (i0 < 0)%nat); [lia|reflexivity].
  - rewrite IH.
    destruct (decide (i0 < n)%nat), (decide (n = i0)), (decide (i0 < S n)%nat); lia.
Qed.

Lemma sum_below_wrap n f :
  wrap64 (sum_below n (λ i, wrap64 (f i))) = wrap64 (sum_below n f).
Proof.
  induction n as [|n IH]; simpl; [reflexivity|].
  rewrite <- wrap64_plus_l, IH, wrap64_plus. reflexivity.
Qed.

Lemma sum2_ext r c f g :
  (∀ i j, (i < r)%nat → (j < c)%nat → f i j = g i j) → sum2 r c f = sum2 r c g.
Proof.
  intros H. unfold sum2. apply sum_below_ext. intros i Hi.
  apply sum_below_ext. intros j Hj. auto.
Qed.

Lemma sum2_plus r c f g :
  sum2 r c (λ i j, f i j + g i j) = sum2 r c f + sum2 r c g.
Proof.
  unfold sum2. rewrite <- sum_below_plus. apply sum_below_ext. intros i _.
  apply sum_below_plus.
Qed.

Lemma sum2_wrap r c f :
  wrap64 (sum2 r c (λ i j, wrap64 (f i j))) = wrap64 (sum2 r c f).
Proof.
  unfold sum2. rewrite <- (sum_below_wrap r (λ i, sum_below c (λ j, f i j))).
  rewrite <- sum_below_wrap. f_equal. apply sum_below_ext. intros i _.
  apply sum_below_wrap.
Qed.

Lemma sum2_point r c i0 j0 x :
  sum2 r c (λ i j, if decide ((i, j) = (i0, j0)) then x else 0) =
  if decide (i0 < r ∧ j0 < c)%nat then x else 0.
Proof.
  unfold sum2.
  rewrite (sum_below_ext r _ (λ i, if decide (i = i0) then (if decide (j0 < c)%nat then x else 0) else 0)).
  - rewrite sum_below_point.
    destruct (decide (i0 < r)%nat), (decide (j0 < c)%nat), (decide (i0 < r ∧ j0 < c)%nat);
      (reflexivity || lia).
  - intros i _. destruct (decide (i = i0)) as [->|Hne].
    + rewrite <- sum_below_point. apply sum_below_ext. intros j _.
      destruct (decide (j = j0)) as [->|].
      * rewrite decide_True by reflexivity. reflexivity.
      * rewrite decide_False by congruence. reflexivity.
    + transitivity (sum_below c (λ _, 0)); [|apply sum_below_zero].
      apply sum_below_ext. intros j _.
      rewrite decide_False by congruence. reflexivity.
Qed.

Lemma sum3_ext n f g :
  (∀ i j k, (i < n)%nat → (j < n)%nat → (k < n)%nat → f i j k = g i j k) →
  sum3 n f = sum3 n g.
Proof.
  intros H. unfold sum3. apply sum_below_ext. intros i Hi.
  apply sum_below_ext. intros j Hj. apply sum_below_ext. intros k Hk. auto.
Qed.

Lemma sum3_plus n f g :
  sum3 n (λ i j k, f i j k + g i j k) = sum3 n f + sum3 n g.
Proof.
  unfold sum3. rewrite <- sum_below_plus. apply sum_below_ext. intros i _.
  rewrite <- sum_below_plus. apply sum_below_ext. intros j _.
  apply sum_below_plus.
Qed.

(** The order of the three summation indices is immaterial. *)
Lemma sum3_swap12 n f : sum3 n (λ i j k, f j i k) = sum3 n f.
Proof. unfold sum3. apply sum_below_swap. Qed.

Lemma sum3_swap23 n f : sum3 n (λ i j k, f i k j) = sum3 n f.
Proof.
  unfold sum3. apply sum_below_ext. intros i _. apply sum_below_swap.
Qed.

Lemma sum3_rot n f : sum3 n (λ i j k, f j k i) = sum3 n f.
Proof.
  transitivity (sum3 n (λ i j k, f i k j)).
  - exact (sum3_swap12 n (λ i j k, f i k j)).
  - apply sum3_swap23.
Qed.

Lemma sum3_rot' n f : sum3 n (λ i j k, f k i j) = sum3 n f.
Proof.
  transitivity (sum3 n (λ i j k, f j i k)).
  - exact (sum3_swap23 n (λ i j k, f j i k)).
  - apply sum3_swap12.
Qed.

Lemma sum3_swap13 n f : sum3 n (λ i j k, f k j i) = sum3 n f.
Proof.
  transitivity (sum3 n (λ i j k, f k i j)).
  - exact (sum3_swap12 n (λ i j k, f k i j)).
  - apply sum3_rot'.
Qed.

Lemma sum3_nonneg n f :
  (∀ i j k, 0 <= f i j k) → 0 <= sum3 n f.
Proof.
  intros H. unfold sum3. apply sum_below_nonneg. intros i _.
  apply sum_below_nonneg. intros j _. apply sum_below_nonneg. intros k _. apply H.
Qed.

End Sums.

(** ** Counting triangles by sums of products

    The six formulas, as sums over all index triples of an adjacency
    relation [e]: position (i,j) of the mask, inner index k. *)

Section Counting.
Local Open Scope Z_scope.
Context (e : nat → nat → bool) (n : nat).
Hypothesis e_sym : ∀ i j, e i j = e j i.

Local Ltac orient i j k := rewrite ?(e_sym j i), ?(e_sym k i), ?(e_sym k j).

Local Ltac by_cases i j k :=
  unfold triangle_at, lower, upper; orient i j k;
  destruct (e i j), (e i k), (e j k);
  repeat case_bool_decide; simpl; try reflexivity; try lia.

Lemma count_sandia :
  sum3 n (λ i j k, b2z (lower e i j && lower e i k && lower e k j)) =
  sum3 n (λ i j k, b2z (triangle_at e i j k)).
Proof.
  rewrite <- (sum3_rot n (λ i j k, b2z (triangle_at e i j k))).
  apply sum3_ext. intros i j k _ _ _. by_cases i j k.
Qed.

Lemma count_sandia2 :
  sum3 n (λ i j k, b2z (upper e i j && upper e i k && upper e k j)) =
  sum3 n (λ i j k, b2z (triangle_at e i j k)).
Proof.
  rewrite <- (sum3_swap23 n (λ i j k, b2z (triangle_at e i j k))).
  apply sum3_ext. intros i j k _ _ _. by_cases i j k.
Qed.

Lemma count_sandia_dot :
  sum3 n (λ i j k, b2z (lower e i j && lower e i k && upper e j k)) =
  sum3 n (λ i j k, b2z (triangle_at e i j k)).
Proof.
  rewrite <- (sum3_rot n (λ i j k, b2z (triangle_at e i j k))).
  apply sum3_ext. intros i j k _ _ _. by_cases i j k.
Qed.

Lemma count_sandia_dot2 :
  sum3 n (λ i j k, b2z (upper e i j && upper e i k && lower e j k)) =
  sum3 n (λ i j k, b2z (triangle_at e i j k)).
Proof.
  rewrite <- (sum3_swap23 n (λ i j k, b2z (triangle_at e i j k))).
  apply sum3_ext. intros i j k _ _ _. by_cases i j k.
Qed.

Hypothesis e_irrefl : ∀ i, e i i = false.

Local Ltac distinct i j :=
  assert (e i j = true → i ≠ j)
    by (let H := fresh in let E := fresh in
        intros H E; rewrite E, e_irrefl in H; discriminate).

Local Ltac by_distinct_cases i j k :=
  distinct i j; distinct i k; distinct j k;
  unfold triangle_at, lower, upper; orient i j k;
  destruct (e i j), (e i k), (e j k);
  repeat match goal with H : true = true → _ |- _ => specialize (H eq_refl) end;
  repeat case_bool_decide; simpl; try reflexivity; try lia.

(** Every triangle lies under two positions of the mask [A] of Cohen's
    formula: the two orders of its two larger vertices. *)
Lemma count_cohen :
  sum3 n (λ i j k, b2z (e i j && lower e i k && upper e k j)) =
  2 * sum3 n (λ i j k, b2z (triangle_at e i j k)).
Proof.
  set (t := λ i j k, b2z (triangle_at e i j k)).
  transitivity (sum3 n (λ i j k, t k i j + t k j i)).
  - apply sum3_ext. intros i j k _ _ _. unfold t. by_distinct_cases i j k.
  - rewrite sum3_plus.
    rewrite (sum3_rot' n t), (sum3_swap13 n t). lia.
Qed.

(** Every triangle is met six times by Burkhardt's formula: once for each
    order of its three vertices. *)
Lemma count_burkhardt :
  sum3 n (λ i j k, b2z (e i j && e i k && e k j)) =
  6 * sum3 n (λ i j k, b2z (triangle_at e i j k)).
Proof.
  set (t := λ i j k, b2z (triangle_at e i j k)).
  transitivity (sum3 n (λ i j k, t i j k + t i k j + t j i k + t j k i + t k i j + t k j i)).
  - apply sum3_ext. intros i j k _ _ _. unfold t. by_distinct_cases i j k.
  - rewrite !sum3_plus.
    rewrite (sum3_rot' n t), (sum3_swap13 n t), (sum3_rot n t),
      (sum3_swap12 n t), (sum3_swap23 n t). lia.
Qed.

End Counting.

(** The ordered triples of pairwise distinct indices below [n]. *)
Section Distinct.
Local Open Scope Z_scope.

Lemma count_distinct_inner n i j :
  (i < n)%nat → (j < n)%nat → i ≠ j →
  sum_below n (λ k, b2z (bool_decide (i ≠ k) && bool_decide (k ≠ j))) = Z.of_nat n - 2.
Proof.
  intros Hi Hj Hij.
  transitivity (sum_below n (λ k, 1 + ((if decide (k = i) then (-1) else 0)
                                      + (if decide (k = j) then (-1) else 0)))).
  - apply sum_below_ext. intros k _.
    repeat case_bool_decide; repeat case_decide; simpl; lia.
  - rewrite !sum_below_plus, !sum_below_point, sum_below_const.
    rewrite !decide_True by lia. lia.
Qed.

Lemma count_distinct n :
  sum3 n (λ i j k, b2z (bool_decide (i ≠ j) && bool_decide (i ≠ k) && bool_decide (k ≠ j))) =
  Z.of_nat n * (Z.of_nat n - 1) * (Z.of_nat n - 2).
Proof.
  unfold sum3.
  transitivity (sum_below n (λ i, (Z.of_nat n - 1) * (Z.of_nat n - 2))).
  2: { rewrite sum_below_const. lia. }
  apply sum_below_ext. intros i Hi.
  transitivity (sum_below n (λ j, (Z.of_nat n - 2) * (1 + (if decide (j = i) then (-1) else 0)))).
  2: { rewrite sum_below_scale, sum_below_plus, sum_below_point, sum_below_const.
       rewrite decide_True by lia. lia. }
  apply sum_below_ext. intros j Hj.
  destruct (decide (j = i)) as [->|Hne].
  - transitivity (sum_below n (λ _, 0)); [|rewrite sum_below_zero; lia].
    apply sum_below_ext. intros k _. rewrite bool_decide_eq_false_2 by tauto. reflexivity.
  - rewrite <- (count_distinct_inner n i j) by (auto; lia).
    replace (sum_below n _ * (1 + 0)) with
      (sum_below n (λ k, b2z (bool_decide (i ≠ k) && bool_decide (k ≠ j)))) by lia.
    apply sum_below_ext. intros k _. rewrite bool_decide_eq_true_2 by auto. reflexivity.
Qed.

End Distinct.

(** ** Tabulated maps and the engine's operations *)

Section Engine_math.
Local Open Scope Z_scope.

Lemma elem_of_positions r c (p : nat * nat) :
  p ∈ positions r c ↔ (p.1 < r ∧ p.2 < c)%nat.
Proof.
  unfold positions. rewrite list_elem_of_bind. split.
  - intros (i & Hp & Hi). apply list_elem_of_bind in Hp as (j & Hp & Hj).
    apply list_elem_of_singleton in Hp as ->.
    apply elem_of_seq in Hi, Hj. simpl. lia.
  - intros [Hr Hc]. exists p.1. split; [|apply elem_of_seq; lia].
    apply list_elem_of_bind. exists p.2. split; [|apply elem_of_seq; lia].
    destruct p. apply list_elem_of_singleton. reflexivity.
Qed.

Lemma tabulate_cons q ps f :
  tabulate (q :: ps) f =
  match f q with
  | Some v => <[q := v]> (tabulate ps f)
  | None => tabulate ps f
  end.
Proof. unfold tabulate. simpl. destruct (f q); reflexivity. Qed.

Lemma lookup_tabulate ps f (p : nat * nat) :
  tabulate ps f !! p = if decide (p ∈ ps) then f p else None.
Proof.
  induction ps as [|q ps IH].
  - unfold tabulate. simpl list_to_map. rewrite lookup_empty.
    case_decide as H; [|reflexivity]. apply not_elem_of_nil in H. contradiction.
  - rewrite tabulate_cons. destruct (decide (p = q)) as [->|Hne].
    + rewrite (decide_True (P := q ∈ q :: ps)) by apply list_elem_of_here.
      destruct (f q) as [v|] eqn:E.
      * apply lookup_insert_eq.
      * rewrite IH. case_decide; reflexivity.
    + assert ((match f q with
               | Some v => <[q := v]> (tabulate ps f)
               | None => tabulate ps f
               end) !! p = tabulate ps f !! p) as ->.
      { destruct (f q); [|reflexivity]. apply lookup_insert_ne. congruence. }
      rewrite IH.
      destruct (decide (p ∈ ps)) as [H|H], (decide (p ∈ q :: ps)) as [H'|H']; try reflexivity.
      * exfalso. apply H'. apply list_elem_of_further. assumption.
      * exfalso. apply elem_of_cons in H' as [?|?]; [congruence|contradiction].
Qed.

Lemma lookup_tabulate_positions r c f (i j : nat) :
  tabulate (positions r c) f !! (i, j) = if decide (i < r ∧ j < c)%nat then f (i, j) else None.
Proof.
  rewrite lookup_tabulate.
  destruct (decide ((i, j) ∈ positions r c)) as [H|H], (decide (i < r ∧ j < c)%nat) as [H'|H'];
    try reflexivity; exfalso.
  - apply H'. apply elem_of_positions in H. exact H.
  - apply H. apply elem_of_positions. exact H'.
Qed.

Lemma entries_assign d mask accum C T (i j : nat) :
  entries (assign d mask accum C T) !! (i, j) =
  if decide (i < nrows C ∧ j < ncols C)%nat then write_back d mask accum C T (i, j) else None.
Proof. apply lookup_tabulate_positions. Qed.

Lemma assign_in_bounds d mask accum C T : in_bounds (assign d mask accum C T).
Proof.
  intros [i j] v H. simpl in *. rewrite lookup_tabulate_positions in H.
  case_decide; [assumption|discriminate].
Qed.

(** The reduction of a matrix is the wrapped sum of its entries over all
    positions inside its dimensions. *)
Lemma reduce_entries_sum (m : gmap (nat * nat) Z) r c :
  map_Forall (λ (p : nat * nat) (_ : Z), (p.1 < r ∧ p.2 < c)%nat) m →
  reduce_entries m = wrap64 (sum2 r c (λ i j, default 0 (m !! (i, j)))).
Proof.
  unfold reduce_entries.
  apply (map_fold_weak_ind
    (λ acc (m : gmap (nat * nat) Z),
       map_Forall (λ (p : nat * nat) (_ : Z), (p.1 < r ∧ p.2 < c)%nat) m →
       acc = wrap64 (sum2 r c (λ i j, default 0 (m !! (i, j)))))).
  - intros _. rewrite (sum2_ext r c _ (λ _ _, 0)).
    + unfold sum2. rewrite (sum_below_ext r _ (λ _, 0)).
      * rewrite sum_below_zero. reflexivity.
      * intros. apply sum_below_zero.
    + intros. rewrite lookup_empty. reflexivity.
  - intros [i0 j0] x m' acc Hnone IH Hb.
    apply map_Forall_insert in Hb as [Hin Hb]; [|assumption].
    rewrite (IH Hb). simpl in Hin.
    unfold plus_int64. simpl typecast. rewrite wrap64_plus. f_equal. symmetry.
    rewrite (sum2_ext r c (λ i j, default 0 (<[(i0, j0) := x]> m' !! (i, j)))
      (λ i j, (if decide ((i, j) = (i0, j0)) then x else 0) + default 0 (m' !! (i, j)))).
    + rewrite sum2_plus, sum2_point. rewrite decide_True by assumption. reflexivity.
    + intros i j _ _. destruct (decide ((i, j) = (i0, j0))) as [->|Hne].
      * rewrite lookup_insert_eq, Hnone. simpl. lia.
      * rewrite lookup_insert_ne by congruence. lia.
Qed.

Lemma foldr_add_app (l1 l2 : list Z) :
  foldr Z.add 0 (l1 ++ l2) = foldr Z.add 0 l1 + foldr Z.add 0 l2.
Proof. induction l1 as [|x l1 IH]; simpl; lia. Qed.

Lemma sum_omap_seq (f : nat → option Z) n :
  foldr Z.add 0 (omap f (seq 0 n)) = sum_below n (λ k, default 0 (f k)).
Proof.
  induction n as [|n IH]; [reflexivity|].
  rewrite seq_S, omap_app, foldr_add_app, IH. simpl.
  destruct (f n); simpl; lia.
Qed.

(** The value of an entry of the product, 0 standing for "no entry". *)
Lemma dot_value s ta A tb B p :
  default 0 (dot s ta A tb B p) =
  wrap64 (sum_below (cols_of ta A)
            (λ k, default 0 (a ← at_ ta A p.1 k; b ← at_ tb B k p.2; Some (multiply s a b)))).
Proof.
  unfold dot. rewrite <- sum_omap_seq. fold (products s ta A tb B p).
  destruct (products s ta A tb B p) as [|t ts] eqn:E.
  - reflexivity.
  - exact (foldr_plus_int64 (t :: ts)).
Qed.

Lemma multiply_unit s a b :
  s = GxB_PLUS_PAIR_INT64 ∨ (a = 1 ∧ b = 1) → multiply s a b = 1.
Proof. intros [->|[-> ->]]; [reflexivity|]. destruct s; reflexivity. Qed.

(** With the PAIR operator, or on matrices whose stored values are all 1, an
    entry of the product counts the inner indices where both operands have
    an entry. *)
Lemma dot_count s ta A tb B p :
  s = GxB_PLUS_PAIR_INT64 ∨ (binary A ∧ binary B) →
  default 0 (dot s ta A tb B p) =
  wrap64 (sum_below (cols_of ta A)
            (λ k, b2z (bool_decide (is_Some (at_ ta A p.1 k))
                       && bool_decide (is_Some (at_ tb B k p.2))))).
Proof.
  intros Hs. rewrite dot_value. f_equal. apply sum_below_ext. intros k _.
  destruct (at_ ta A p.1 k) as [a|] eqn:Ea; simpl; [|reflexivity].
  destruct (at_ tb B k p.2) as [b|] eqn:Eb; simpl; [|reflexivity].
  apply multiply_unit. destruct Hs as [?|[HA HB]]; [left; assumption|right].
  unfold at_ in Ea, Eb. split; [eapply HA|eapply HB]; eassumption.
Qed.

Lemma mask_allows_edge d M p :
  mask_comp d = false → mask_structure d = true ∨ binary M →
  mask_allows d (Some M) p = edge M p.1 p.2.
Proof.
  intros Hc Hs. unfold mask_allows, edge. rewrite Hc. simpl. destruct p as [i j]. simpl.
  destruct (entries M !! (i, j)) as [v|] eqn:E.
  - rewrite bool_decide_eq_true_2 by eauto.
    destruct Hs as [->|HM]; [reflexivity|].
    rewrite (HM _ _ E). apply orb_true_r.
  - rewrite bool_decide_eq_false_2; [reflexivity|]. intros [? ?]; discriminate.
Qed.

(** Reduction of a masked product written into a fresh INT64 matrix. *)
Lemma reduce_masked_product d M s ta A tb B r c :
  mask_comp d = false → mask_structure d = true ∨ binary M →
  s = GxB_PLUS_PAIR_INT64 ∨ (binary A ∧ binary B) →
  reduce_entries
    (entries (assign d (Some M) None (Mat GrB_INT64 r c ∅) (dot s ta A tb B))) =
  wrap64 (sum2 r c (λ i j,
            sum_below (cols_of ta A)
              (λ k, b2z (edge M i j
                         && bool_decide (is_Some (at_ ta A i k))
                         && bool_decide (is_Some (at_ tb B k j)))))).
Proof.
  intros Hc Hm Hs.
  rewrite (reduce_entries_sum _ r c) by apply (assign_in_bounds _ _ _ (Mat GrB_INT64 r c ∅)).
  rewrite <- sum2_wrap. symmetry. rewrite <- sum2_wrap. symmetry. f_equal.
  apply sum2_ext. intros i j Hi Hj.
  rewrite entries_assign. simpl nrows. simpl ncols. rewrite decide_True by auto.
  unfold write_back. rewrite (mask_allows_edge d M (i, j) Hc Hm). simpl fst. simpl snd.
  destruct (edge M i j); simpl.
  - unfold accumulate.
    transitivity (wrap64 (default 0 (dot s ta A tb B (i, j)))).
    { destruct (dot s ta A tb B (i, j)) as [z|]; [|reflexivity].
      change (wrap64 (wrap64 z) = wrap64 z). apply wrap64_idem. }
    rewrite (dot_count s ta A tb B (i, j) Hs). rewrite wrap64_idem. reflexivity.
  - rewrite lookup_empty. destruct (outp_replace d); simpl; rewrite sum_below_zero; reflexivity.
Qed.

End Engine_math.

(** ** The triangular parts *)

Section Triangular.

Lemma edge_true A i j : edge A i j = true ↔ is_Some (entries A !! (i, j)).
Proof. unfold edge. apply bool_decide_eq_true. Qed.

Lemma edge_in_bounds A i j :
  in_bounds A → edge A i j = true → i < nrows A ∧ j < ncols A.
Proof.
  intros Hb [v Hv]%edge_true. exact (Hb (i, j) v Hv).
Qed.

Lemma edge_symmetric A i j : symmetric A → edge A i j = edge A j i.
Proof.
  intros [_ Hs].
  assert (∀ a b, edge A a b = true → edge A b a = true) as H.
  { intros a b [v Hv]%edge_true. apply edge_true. exact (Hs (a, b) v Hv). }
  destruct (edge A i j) eqn:E1, (edge A j i) eqn:E2; try reflexivity.
  - apply H in E1. congruence.
  - apply H in E2. congruence.
Qed.

Lemma edge_no_self A i : no_self_edges A → edge A i i = false.
Proof.
  intros Hn. destruct (edge A i i) eqn:E; [|reflexivity].
  apply edge_true in E as [v Hv]. destruct (Hn (i, i) v Hv). reflexivity.
Qed.

Lemma entries_select n op k A i j :
  entries (assign desc_default None None (Mat GrB_BOOL n n ∅) (selected op k false A)) !! (i, j) =
  if decide (i < n ∧ j < n)
  then typecast GrB_BOOL <$>
         (v ← entries A !! (i, j); if select_keeps op k i j then Some v else None)
  else None.
Proof. rewrite entries_assign. reflexivity. Qed.

Lemma edge_tril n A i j :
  in_bounds A → nrows A = n → ncols A = n →
  edge (tril_of n A) i j = lower (edge A) i j.
Proof.
  intros Hb Hr Hc. unfold lower.
  destruct (edge A i j) eqn:E.
  - pose proof (edge_in_bounds A i j Hb E) as [? ?].
    apply edge_true in E as [v Hv].
    unfold edge, tril_of. rewrite entries_select, decide_True by lia. rewrite Hv. simpl.
    rewrite andb_true_r. destruct (Z.leb_spec (Z.of_nat j - Z.of_nat i) (-1)); simpl.
    + symmetry. apply bool_decide_eq_true_2. lia.
    + symmetry. apply bool_decide_eq_false_2. lia.
  - rewrite andb_false_r. apply bool_decide_eq_false_2. intros [v Hv].
    unfold tril_of in Hv. rewrite entries_select in Hv. case_decide; [|discriminate].
    destruct (entries A !! (i, j)) as [w|] eqn:Ew; [|discriminate].
    assert (edge A i j = true) by (apply edge_true; eauto). congruence.
Qed.

Lemma edge_triu n A i j :
  in_bounds A → nrows A = n → ncols A = n →
  edge (triu_of n A) i j = upper (edge A) i j.
Proof.
  intros Hb Hr Hc. unfold upper.
  destruct (edge A i j) eqn:E.
  - pose proof (edge_in_bounds A i j Hb E) as [? ?].
    apply edge_true in E as [v Hv].
    unfold edge, triu_of. rewrite entries_select, decide_True by lia. rewrite Hv. simpl.
    rewrite andb_true_r. destruct (Z.leb_spec 1 (Z.of_nat j - Z.of_nat i)); simpl.
    + symmetry. apply bool_decide_eq_true_2. lia.
    + symmetry. apply bool_decide_eq_false_2. lia.
  - rewrite andb_false_r. apply bool_decide_eq_false_2. intros [v Hv].
    unfold triu_of in Hv. rewrite entries_select in Hv. case_decide; [|discriminate].
    destruct (entries A !! (i, j)) as [w|] eqn:Ew; [|discriminate].
    assert (edge A i j = true) by (apply edge_true; eauto). congruence.
Qed.

Lemma binary_select n op k A :
  binary A → binary (assign desc_default None None (Mat GrB_BOOL n n ∅) (selected op k false A)).
Proof.
  intros HA [i j] v Hv. rewrite entries_select in Hv. case_decide; [|discriminate].
  destruct (entries A !! (i, j)) as [w|] eqn:Ew; [|discriminate]. simpl in Hv.
  rewrite (HA _ _ Ew) in Hv. destruct (select_keeps op k i j); simpl in Hv; congruence.
Qed.

(** *** Build from tuples *)

Lemma dom_build_step ty dup m t :
  dom (build_step ty dup m t) = {[ t.1 ]} ∪ dom m.
Proof.
  apply set_eq. intros p. rewrite elem_of_union, elem_of_singleton, !elem_of_dom.
  unfold build_step. destruct (decide (p = t.1)) as [->|Hne].
  - rewrite lookup_partial_alter_eq. split; eauto.
  - rewrite lookup_partial_alter_ne by congruence. split; [eauto|]. intros [?|?]; [congruence|assumption].
Qed.

Lemma dom_foldl_build ty dup ts m :
  dom (foldl (build_step ty dup) m ts) = list_to_set ts.*1 ∪ dom m.
Proof.
  revert m. induction ts as [|t ts IH]; intros m; simpl.
  - set_solver.
  - rewrite IH, dom_build_step. set_solver.
Qed.

Lemma dom_build_entries ty dup ts :
  dom (build_entries ty dup ts) = list_to_set ts.*1.
Proof. unfold build_entries. rewrite dom_foldl_build, dom_empty_L. set_solver. Qed.

Lemma ones_foldl_build ts m :
  Forall (λ t : nat * nat * Z, t.2 = 1%Z) ts →
  map_Forall (λ (_ : nat * nat) (v : Z), v = 1%Z) m →
  map_Forall (λ (_ : nat * nat) (v : Z), v = 1%Z) (foldl (build_step GrB_BOOL GrB_LOR) m ts).
Proof.
  revert m. induction ts as [|t ts IH]; intros m Hts Hm; simpl; [assumption|].
  apply Forall_cons in Hts as [Ht Hts]. apply IH; [assumption|].
  intros p v. unfold build_step. destruct (decide (p = t.1)) as [->|Hne].
  - rewrite lookup_partial_alter_eq. rewrite Ht. intros [= <-].
    destruct (m !! t.1) as [y|] eqn:E; [|reflexivity]. rewrite (Hm _ _ E). reflexivity.
  - rewrite lookup_partial_alter_ne by congruence. apply Hm.
Qed.

Lemma elem_of_lower_tuples A (p : nat * nat) :
  p ∈ (lower_tuples A).*1 ↔ is_Some (entries A !! p) ∧ p.2 < p.1.
Proof.
  unfold lower_tuples, tuples_of. rewrite list_elem_of_fmap. split.
  - intros (t & -> & Ht). apply list_elem_of_filter in Ht as [Hlt Ht].
    apply list_elem_of_fmap in Ht as ([q v] & -> & Hq). simpl in *.
    apply elem_of_map_to_list in Hq. eauto.
  - intros [[v Hv] Hlt]. exists (p, typecast GrB_BOOL v). split; [reflexivity|].
    apply list_elem_of_filter. split; [exact Hlt|].
    apply list_elem_of_fmap. exists (p, v). split; [reflexivity|].
    apply elem_of_map_to_list. exact Hv.
Qed.

Lemma edge_built_lower n A i j : edge (built_lower n A) i j = lower (edge A) i j.
Proof.
  unfold lower, edge at 1, built_lower. simpl entries.
  rewrite <- (bool_decide_ext _ _ (elem_of_dom _ _)), dom_build_entries.
  rewrite (bool_decide_ext _ _ (elem_of_list_to_set _ _)).
  rewrite (bool_decide_ext _ _ (elem_of_lower_tuples A (i, j))). simpl.
  unfold edge. repeat case_bool_decide; simpl; try reflexivity; tauto.
Qed.

Lemma elem_of_swapped_tuples A (p : nat * nat) :
  p ∈ (swap_tuple <$> lower_tuples A).*1 ↔ is_Some (entries A !! (p.2, p.1)) ∧ p.1 < p.2.
Proof.
  rewrite <- list_fmap_compose, list_elem_of_fmap. split.
  - intros (t & -> & Ht).
    assert (t.1 ∈ (lower_tuples A).*1) as Hin by (apply list_elem_of_fmap; eauto).
    apply elem_of_lower_tuples in Hin. destruct t as [[a b] v]. exact Hin.
  - intros H. apply (elem_of_lower_tuples A (p.2, p.1)) in H.
    apply list_elem_of_fmap in H as (t & Heq & Ht). exists t. split; [|assumption].
    destruct t as [[a b] v], p as [x y]. simpl in *. congruence.
Qed.

Lemma edge_built_upper n A i j : edge (built_upper n A) i j = lower (edge A) j i.
Proof.
  unfold lower, edge at 1, built_upper. simpl entries.
  rewrite <- (bool_decide_ext _ _ (elem_of_dom _ _)), dom_build_entries.
  rewrite (bool_decide_ext _ _ (elem_of_list_to_set _ _)).
  rewrite (bool_decide_ext _ _ (elem_of_swapped_tuples A (i, j))). simpl.
  unfold edge. repeat case_bool_decide; simpl; try reflexivity; tauto.
Qed.

Lemma ones_lower_tuples A :
  binary A → Forall (λ t : nat * nat * Z, t.2 = 1%Z) (lower_tuples A).
Proof.
  intros HA. apply Forall_forall. intros t Ht.
  apply list_elem_of_filter in Ht as [_ Ht].
  apply list_elem_of_fmap in Ht as ([q v] & -> & Hq). simpl.
  apply elem_of_map_to_list in Hq. rewrite (HA _ _ Hq). reflexivity.
Qed.

Lemma binary_built_lower n A : binary A → binary (built_lower n A).
Proof.
  intros HA. unfold binary, built_lower, build_entries. simpl.
  apply ones_foldl_build; [apply ones_lower_tuples, HA|apply map_Forall_empty].
Qed.

Lemma binary_built_upper n A : binary A → binary (built_upper n A).
Proof.
  intros HA. unfold binary, built_upper, build_entries. simpl.
  apply ones_foldl_build; [|apply map_Forall_empty].
  apply Forall_fmap. eapply Forall_impl; [apply ones_lower_tuples, HA|]. intros [[a b] v] H. exact H.
Qed.

Lemma lower_tuples_in_bounds A :
  in_bounds A →
  Forall (λ t : nat * nat * Z, t.1.1 < nrows A ∧ t.1.2 < ncols A) (lower_tuples A).
Proof.
  intros Hb. apply Forall_forall. intros t Ht.
  assert (t.1 ∈ (lower_tuples A).*1) as Hin by (apply list_elem_of_fmap; eauto).
  apply elem_of_lower_tuples in Hin as [[v Hv] _]. exact (Hb _ _ Hv).
Qed.

End Triangular.

(** *** The in-place loop over the extracted tuples *)

Section Compaction.

Local Abbreviation keep := (λ t : nat * nat * Z, t.1.2 < t.1.1).

Lemma lookup_zip3 (I_ J_ : list nat) (X_ : list Z) k i j x :
  zip (zip I_ J_) X_ !! k = Some (i, j, x) →
  I_ !! k = Some i ∧ J_ !! k = Some j ∧ X_ !! k = Some x.
Proof.
  intros H. apply lookup_zip_with_Some in H as ([i' j'] & x' & Heq & H1 & Hx).
  apply lookup_zip_with_Some in H1 as (i'' & j'' & Heq' & Hi & Hj).
  simplify_eq. auto.
Qed.

Lemma compact_step_at (I_ J_ : list nat) (X_ : list Z) ne k i j x :
  zip (zip I_ J_) X_ !! k = Some (i, j, x) →
  compact_step (I_, J_, X_, ne) k =
  if bool_decide (j < i)
  then (<[ne := i]> I_, <[ne := j]> J_, <[ne := x]> X_, S ne)
  else (I_, J_, X_, ne).
Proof.
  intros (Hi & Hj & Hx)%lookup_zip3. unfold compact_step.
  rewrite (list_lookup_total_correct I_ k i Hi), (list_lookup_total_correct J_ k j Hj),
    (list_lookup_total_correct X_ k x Hx). reflexivity.
Qed.

(** After [k] rounds: the kept tuples among the first [k] stand in front,
    and the tuples from [k] on are as they were. *)
Lemma compact_invariant (I_ J_ : list nat) (X_ : list Z) k :
  length I_ = length J_ → length J_ = length X_ → k ≤ length I_ →
  ∃ I' J' X' ne,
    foldl compact_step (I_, J_, X_, 0) (seq 0 k) = (I', J', X', ne)
    ∧ length I' = length I_ ∧ length J' = length J_ ∧ length X' = length X_
    ∧ ne ≤ k
    ∧ take ne (zip (zip I' J') X') = filter keep (take k (zip (zip I_ J_) X_))
    ∧ drop k (zip (zip I' J') X') = drop k (zip (zip I_ J_) X_).
Proof.
  intros HIJ HJX. induction k as [|k IH]; intros Hk.
  - exists I_, J_, X_, 0. repeat split; auto.
  - destruct IH as (I' & J' & X' & ne & Hfold & HI & HJ & HX & Hne & Htake & Hdrop); [lia|].
    rewrite seq_S, foldl_app, Hfold. cbn [foldl Nat.add].
    assert (length (zip (zip I_ J_) X_) = length I_) as Hlen0.
    { rewrite !length_zip_with. lia. }
    assert (length (zip (zip I' J') X') = length I_) as Hlen.
    { rewrite !length_zip_with. lia. }
    destruct (lookup_lt_is_Some_2 (zip (zip I_ J_) X_) k ltac:(lia)) as [[[i j] x] Ht].
    assert (zip (zip I' J') X' !! k = Some (i, j, x)) as Ht'.
    { pose proof (f_equal (λ l, l !! 0) Hdrop) as H0. simpl in H0.
      rewrite !lookup_drop, Nat.add_0_r in H0. congruence. }
    assert (drop (S k) (zip (zip I' J') X') = drop (S k) (zip (zip I_ J_) X_)) as Hdrop'.
    { replace (S k) with (k + 1) by lia. rewrite <- !drop_drop, Hdrop. reflexivity. }
    rewrite (take_S_r _ _ _ Ht), filter_app.
    rewrite (compact_step_at _ _ _ _ _ _ _ _ Ht'). case_bool_decide as Hkeep.
    + exists (<[ne := i]> I'), (<[ne := j]> J'), (<[ne := x]> X'), (S ne).
      rewrite !length_insert. repeat split; auto; [lia| |].
      * rewrite <- !insert_zip_with.
        rewrite (take_S_r _ ne (i, j, x)).
        -- rewrite take_insert_ge by lia. rewrite Htake.
           rewrite filter_cons_True by exact Hkeep. reflexivity.
        -- apply list_lookup_insert_eq. lia.
      * rewrite <- !insert_zip_with. rewrite drop_insert_lt by lia. exact Hdrop'.
    + exists I', J', X', ne. repeat split; auto.
      rewrite Htake, filter_cons_False by exact Hkeep. rewrite filter_nil, app_nil_r. reflexivity.
Qed.

Lemma zip3_swap n (I_ J_ : list nat) (X_ : list Z) :
  zip3 n J_ I_ X_ = swap_tuple <$> zip3 n I_ J_ X_.
Proof.
  unfold zip3. rewrite fmap_take. f_equal.
  revert J_ X_. induction I_ as [|i I_ IH]; intros [|j J_] [|x X_]; simpl; try reflexivity.
  f_equal. apply IH.
Qed.

(** The loop leaves, in the first [nedges] slots, the tuples with row >
    column, in their original order. *)
Lemma compact_spec (I_ J_ : list nat) (X_ : list Z) n :
  length I_ = n → length J_ = n → length X_ = n →
  ∃ I' J' X' nedges,
    compact I_ J_ X_ n = (I', J', X', nedges)
    ∧ zip3 nedges I' J' X' = filter keep (zip (zip I_ J_) X_)
    ∧ zip3 nedges J' I' X' = swap_tuple <$> filter keep (zip (zip I_ J_) X_).
Proof.
  intros HI HJ HX.
  destruct (compact_invariant I_ J_ X_ n) as (I' & J' & X' & ne & Hfold & _ & _ & _ & _ & Htake & _);
    [lia..|].
  exists I', J', X', ne. split; [exact Hfold|].
  assert (zip3 ne I' J' X' = filter keep (zip (zip I_ J_) X_)) as H.
  { unfold zip3. rewrite Htake. rewrite take_ge; [reflexivity|].
    rewrite !length_zip_with. lia. }
  split; [exact H|]. rewrite zip3_swap, H. reflexivity.
Qed.

(** The arrays filled by extractTuples, zipped back. *)
Lemma zip_extracted (ts : list (nat * nat * Z)) :
  zip (zip ts.*1.*1 ts.*1.*2) (typecast GrB_BOOL <$> ts.*2) =
  (λ t : nat * nat * Z, (t.1, typecast GrB_BOOL t.2)) <$> ts.
Proof.
  induction ts as [|[[i j] x] ts IH]; simpl; [reflexivity|]. f_equal. exact IH.
Qed.

End Compaction.

(** ** Running the calls when no failure is scheduled *)

Section Steps.
Context {R : Type}.

Lemma bind_assoc {A B C} (m : body R A) (f : A → body R B) (g : B → body R C) st :
  ((m ≫= f) ≫= g) st = (m ≫= (λ x, f x ≫= g)) st.
Proof.
  unfold mbind, body_bind. destruct (m st) as [[a|r] st']; reflexivity.
Qed.

Lemma ret_bind {A B} (a : A) (g : A → body R B) st : (mret a ≫= g) st = g a st.
Proof. reflexivity. Qed.

Lemma effect_bind {B} (f : state → state) (g : unit → body R B) st :
  (effect f ≫= g) st = g () (f st).
Proof. reflexivity. Qed.

Lemma LAGRAPH_OK_ok {X B} onf (op : state → GrB_Info * X * state) (k : X → body R B) st x st' :
  op st = (GrB_SUCCESS, x, st') → (LAGRAPH_OK onf op ≫= k) st = k x st'.
Proof. intros H. unfold mbind, body_bind, LAGRAPH_OK. rewrite H. reflexivity. Qed.

Lemma LAGr_ok {X B} onf (op : state → GrB_Info * X * state) (k : X → body R B) st x st' :
  op st = (GrB_SUCCESS, x, st') → (LAGr onf op ≫= k) st = k x st'.
Proof. apply LAGRAPH_OK_ok. Qed.

Lemma LAGRAPH_OK_fail {X B} onf (op : state → GrB_Info * X * state) (k : X → body R B)
    st info x st' :
  op st = (info, x, st') → info ≠ GrB_SUCCESS →
  (LAGRAPH_OK onf op ≫= k) st = (onf x info ≫= k) st'.
Proof.
  intros H Hi. unfold mbind, body_bind, LAGRAPH_OK. rewrite H.
  rewrite decide_False by assumption. reflexivity.
Qed.

Lemma malloc_bind {T B} (filler : T) n (k : option (list T) → body R B) st p st' :
  LAGraph_malloc filler n st = (p, st') → (malloc filler n ≫= k) st = k p st'.
Proof. intros H. unfold mbind, body_bind, malloc. rewrite H. reflexivity. Qed.

End Steps.

Section Quiet.
Context (h : gmap handle object) (tr : list event) (b : nat) (nt : list Z).

Local Abbreviation quiet h tr nt := (State h [] tr b nt).

Lemma GrB_Matrix_nrows_quiet a A :
  h !! a = Some (Matrix_object A) →
  GrB_Matrix_nrows (Some a) (quiet h tr nt) =
  (GrB_SUCCESS, nrows A, quiet h (Event Matrix_nrows GrB_SUCCESS :: tr) nt).
Proof.
  intros H. unfold GrB_Matrix_nrows, primitive, matrix_at. simpl. rewrite H. reflexivity.
Qed.

Lemma GrB_Matrix_nvals_quiet a A :
  h !! a = Some (Matrix_object A) →
  GrB_Matrix_nvals (Some a) (quiet h tr nt) =
  (GrB_SUCCESS, size (entries A), quiet h (Event Matrix_nvals GrB_SUCCESS :: tr) nt).
Proof.
  intros H. unfold GrB_Matrix_nvals, primitive, matrix_at. simpl. rewrite H. reflexivity.
Qed.

Lemma GrB_Matrix_new_quiet ty r c :
  GrB_Matrix_new ty r c (quiet h tr nt) =
  (GrB_SUCCESS, Some (fresh (dom h)),
   quiet (<[fresh (dom h) := Matrix_object (Mat ty r c ∅)]> h)
         (Event (Matrix_new ty r c) GrB_SUCCESS :: tr) nt).
Proof. reflexivity. Qed.

Lemma GxB_Scalar_new_quiet ty :
  GxB_Scalar_new ty (quiet h tr nt) =
  (GrB_SUCCESS, Some (fresh (dom h)),
   quiet (<[fresh (dom h) := Scalar_object ty None]> h)
         (Event (Scalar_new ty) GrB_SUCCESS :: tr) nt).
Proof. reflexivity. Qed.

Lemma GxB_Scalar_setElement_quiet s ty x0 x :
  h !! s = Some (Scalar_object ty x0) →
  GxB_Scalar_setElement (Some s) x (quiet h tr nt) =
  (GrB_SUCCESS, (),
   quiet (<[s := Scalar_object ty (Some (typecast ty x))]> h)
         (Event (Scalar_setElement x) GrB_SUCCESS :: tr) nt).
Proof.
  intros H. unfold GxB_Scalar_setElement, primitive, scalar_at. simpl. rewrite H. reflexivity.
Qed.

Lemma GrB_free_call_quiet x :
  GrB_free_call (Some x) (quiet h tr nt) = (GrB_SUCCESS, None, quiet (delete x h) tr nt).
Proof. reflexivity. Qed.

Lemma GxB_select_quiet c C0 op a A t ty k :
  h !! c = Some (Matrix_object C0) →
  h !! a = Some (Matrix_object A) →
  h !! t = Some (Scalar_object ty (Some k)) →
  nrows A = nrows C0 → ncols A = ncols C0 →
  GxB_select (Some c) None None op (Some a) (Some t) None (quiet h tr nt) =
  (GrB_SUCCESS, (),
   quiet (<[c := Matrix_object (assign desc_default None None C0 (selected op k false A))]> h)
         (Event (Select op) GrB_SUCCESS :: tr) nt).
Proof.
  intros Hc Ha Ht Hr Hcol. unfold GxB_select, primitive, matrix_at, scalar_at, optional_matrix.
  simpl. rewrite Hc, Ha, Ht. simpl.
  rewrite bool_decide_eq_true_2; [reflexivity|]. simpl. auto.
Qed.

Lemma GrB_mxm_quiet c C0 m M s a A b' B desc :
  h !! c = Some (Matrix_object C0) →
  h !! m = Some (Matrix_object M) →
  h !! a = Some (Matrix_object A) →
  h !! b' = Some (Matrix_object B) →
  rows_of (inp0_tran (settings desc)) A = nrows C0 →
  cols_of (inp1_tran (settings desc)) B = ncols C0 →
  cols_of (inp0_tran (settings desc)) A = rows_of (inp1_tran (settings desc)) B →
  nrows M = nrows C0 → ncols M = ncols C0 →
  GrB_mxm (Some c) (Some m) None s (Some a) (Some b') desc (quiet h tr nt) =
  (GrB_SUCCESS, (),
   quiet (<[c := Matrix_object
                   (assign (settings desc) (Some M) None C0
                      (dot s (inp0_tran (settings desc)) A (inp1_tran (settings desc)) B))]> h)
         (Event (Mxm s (settings desc)) GrB_SUCCESS :: tr) nt).
Proof.
  intros Hc Hm Ha Hb H1 H2 H3 H4 H5.
  unfold GrB_mxm, primitive, matrix_at, optional_matrix, matrix_at.
  simpl. rewrite Hc, Hm, Ha, Hb. simpl.
  rewrite bool_decide_eq_true_2; [reflexivity|]. simpl. auto.
Qed.

Lemma GrB_reduce_quiet monoid c C0 :
  h !! c = Some (Matrix_object C0) →
  GrB_reduce None monoid (Some c) None (quiet h tr nt) =
  (GrB_SUCCESS, (),
   quiet h (Event Reduce GrB_SUCCESS :: tr) (reduce_entries (entries C0) :: nt)).
Proof.
  intros H. unfold GrB_reduce, primitive, matrix_at. simpl. rewrite H. reflexivity.
Qed.

End Quiet.

Section Quiet_arrays.
Context (h : gmap handle object) (tr : list event) (nt : list Z).

Lemma LAGraph_malloc_quiet {T} (filler : T) n b :
  LAGraph_malloc filler n (State h [] tr b nt) =
  (Some (replicate n filler), State h [] (Event (Malloc n) GrB_SUCCESS :: tr) (S b) nt).
Proof. reflexivity. Qed.

Lemma GrB_Matrix_extractTuples_quiet a A b :
  h !! a = Some (Matrix_object A) →
  GrB_Matrix_extractTuples (replicate (size (entries A)) 0) (replicate (size (entries A)) 0)
    (replicate (size (entries A)) 0%Z) (size (entries A)) (Some a) (State h [] tr b nt) =
  (GrB_SUCCESS,
   ((tuples_of A).*1.*1, (tuples_of A).*1.*2, typecast GrB_BOOL <$> (tuples_of A).*2,
    size (entries A)),
   State h [] (Event Matrix_extractTuples GrB_SUCCESS :: tr) b nt).
Proof.
  intros H. unfold GrB_Matrix_extractTuples, primitive, matrix_at. simpl. rewrite H. simpl.
  assert (length (tuples_of A) = size (entries A)) as Hlen by apply length_map_to_list.
  rewrite bool_decide_eq_true_2 by lia.
  rewrite !drop_ge by (rewrite length_replicate; lia). rewrite !app_nil_r, Hlen. reflexivity.
Qed.

Lemma GrB_Matrix_build_quiet c ty r c0 (I_ J_ : list nat) (X_ : list Z) n dup b :
  h !! c = Some (Matrix_object (Mat ty r c0 ∅)) →
  Forall (λ t : nat * nat * Z, t.1.1 < r ∧ t.1.2 < c0) (zip3 n I_ J_ X_) →
  GrB_Matrix_build (Some c) I_ J_ X_ n dup (State h [] tr b nt) =
  (GrB_SUCCESS, (),
   State (<[c := Matrix_object (Mat ty r c0 (build_entries ty dup (zip3 n I_ J_ X_)))]> h)
         [] (Event Matrix_build GrB_SUCCESS :: tr) b nt).
Proof.
  intros H Hb. unfold GrB_Matrix_build, primitive, matrix_at. simpl. rewrite H. simpl.
  rewrite bool_decide_eq_false_2 by (intros Hne; apply Hne; reflexivity).
  rewrite bool_decide_eq_true_2 by exact Hb. reflexivity.
Qed.

End Quiet_arrays.

(** ** tricount_prep when no failure is scheduled *)

(** Names the handle of the latest allocation and records that it differs
    from the handles in use. *)
Ltac name_fresh x :=
  let H := fresh "Hfresh" in
  match goal with
  | |- context [fresh (dom ?m)] =>
      pose proof (is_fresh (dom m)) as H;
      set (x := fresh (dom m)) in *; clearbody x;
      rewrite ?dom_insert_L, ?not_elem_of_union, ?not_elem_of_singleton, ?not_elem_of_dom in H;
      destruct_and?
  end.

(** Looks a handle up in a heap built by insertions and deletions. *)
Ltac lookup :=
  repeat first
    [ rewrite lookup_insert_eq
    | rewrite lookup_insert_ne by congruence
    | rewrite lookup_delete_ne by congruence ];
  first [eassumption | reflexivity].

(** Equality of two heaps, key by key. *)
Ltac split_on_keys x :=
  repeat match goal with
         | |- context [ <[?k := _]> _ ] =>
             lazymatch goal with
             | _ : k = x |- _ => fail
             | _ : k ≠ x |- _ => fail
             | _ => destruct (decide (k = x))
             end
         | |- context [ delete ?k _ ] =>
             lazymatch goal with
             | _ : k = x |- _ => fail
             | _ : k ≠ x |- _ => fail
             | _ => destruct (decide (k = x))
             end
         end.

Ltac heap_eq :=
  let x := fresh "x" in
  apply map_eq; intros x; split_on_keys x;
  try congruence;
  repeat first
    [ rewrite lookup_insert_eq
    | rewrite lookup_delete_eq
    | rewrite lookup_insert_ne by congruence
    | rewrite lookup_delete_ne by congruence
    | progress subst ];
  congruence.

Section Prep_select.
Context (pf : platform) (hA : handle) (A : Matrix).
Context (h : gmap handle object) (tr : list event) (b : nat) (nt : list Z).
Hypothesis HA : h !! hA = Some (Matrix_object A).
Hypothesis Hsquare : nrows A = ncols A.

Lemma tricount_prep_select_quiet (L U : option GrB_Matrix) :
  ∃ l u tr',
    tricount_prep_select pf L U (Some hA) (State h [] tr b nt) =
      (Next ((λ _, Some l) <$> L, (λ _, Some u) <$> U),
       State (install U u (triu_of (nrows A) A) (install L l (tril_of (nrows A) A) h))
             [] tr' b nt)
    ∧ h !! l = None ∧ h !! u = None ∧ l ≠ u
    ∧ mxm_descriptors tr' = mxm_descriptors tr.
Proof.
  unfold tricount_prep_select. cbv zeta.
  erewrite LAGr_ok by (apply GrB_Matrix_nrows_quiet; eassumption). cbv beta.
  erewrite LAGr_ok by apply GxB_Scalar_new_quiet. cbv beta.
  name_fresh t.
  destruct L as [L0|], U as [U0|]; cbv beta iota.
  - rewrite bind_assoc.
    erewrite LAGr_ok by apply GrB_Matrix_new_quiet. cbv beta. name_fresh l.
    rewrite bind_assoc.
    erewrite LAGr_ok by (eapply GxB_Scalar_setElement_quiet; lookup). cbv beta.
    rewrite bind_assoc.
    erewrite LAGr_ok by (eapply GxB_select_quiet; [lookup|lookup|lookup|simpl; congruence..]).
    cbv beta. rewrite ret_bind. cbv beta iota.
    rewrite bind_assoc.
    erewrite LAGr_ok by apply GrB_Matrix_new_quiet. cbv beta. name_fresh u.
    rewrite bind_assoc.
    erewrite LAGr_ok by (eapply GxB_Scalar_setElement_quiet; lookup). cbv beta.
    rewrite bind_assoc.
    erewrite LAGr_ok by (eapply GxB_select_quiet; [lookup|lookup|lookup|simpl; congruence..]).
    cbv beta. rewrite ret_bind. cbv beta iota.
    erewrite LAGr_ok by apply GrB_free_call_quiet. cbv beta.
    exists l, u. eexists. split.
    { unfold mret, body_ret. simpl fmap. do 2 f_equal. f_equal.
      unfold install, triu_of, tril_of.
    change (typecast GrB_INT64 (-1)) with (-1)%Z. change (typecast GrB_INT64 1) with 1%Z.
      heap_eq. }
    repeat split; try eassumption; try congruence; reflexivity.
  - rewrite bind_assoc.
    erewrite LAGr_ok by apply GrB_Matrix_new_quiet. cbv beta. name_fresh l.
    rewrite bind_assoc.
    erewrite LAGr_ok by (eapply GxB_Scalar_setElement_quiet; lookup). cbv beta.
    rewrite bind_assoc.
    erewrite LAGr_ok by (eapply GxB_select_quiet; [lookup|lookup|lookup|simpl; congruence..]).
    cbv beta. rewrite ret_bind. cbv beta iota. rewrite ret_bind. cbv beta.
    erewrite LAGr_ok by apply GrB_free_call_quiet. cbv beta.
    exists l, t. eexists. split.
    { unfold mret, body_ret. simpl fmap. do 2 f_equal. f_equal.
      unfold install, tril_of.
    change (typecast GrB_INT64 (-1)) with (-1)%Z.
      heap_eq. }
    repeat split; try eassumption; try congruence; reflexivity.
  - rewrite ret_bind. cbv beta. rewrite bind_assoc.
    erewrite LAGr_ok by apply GrB_Matrix_new_quiet. cbv beta. name_fresh u.
    rewrite bind_assoc.
    erewrite LAGr_ok by (eapply GxB_Scalar_setElement_quiet; lookup). cbv beta.
    rewrite bind_assoc.
    erewrite LAGr_ok by (eapply GxB_select_quiet; [lookup|lookup|lookup|simpl; congruence..]).
    cbv beta. rewrite ret_bind. cbv beta iota.
    erewrite LAGr_ok by apply GrB_free_call_quiet. cbv beta.
    exists t, u. eexists. split.
    { unfold mret, body_ret. simpl fmap. do 2 f_equal. f_equal.
      unfold install, triu_of.
    change (typecast GrB_INT64 1) with 1%Z.
      heap_eq. }
    repeat split; try eassumption; try congruence; reflexivity.
  - rewrite !ret_bind. cbv beta.
    erewrite LAGr_ok by apply GrB_free_call_quiet. cbv beta.
    pose proof (is_fresh (dom (<[t := Scalar_object GrB_INT64 None]> h))) as Hu.
    set (u := fresh (dom (<[t := Scalar_object GrB_INT64 None]> h))) in *. clearbody u.
    rewrite dom_insert_L, not_elem_of_union, not_elem_of_singleton, not_elem_of_dom in Hu.
    destruct Hu as [Hut Hu].
    exists t, u. eexists. split.
    { unfold mret, body_ret. simpl fmap. do 2 f_equal. f_equal.
      unfold install. heap_eq. }
    repeat split; try eassumption; try congruence; reflexivity.
Qed.

End Prep_select.

Section Prep_extract.
Context (pf : platform) (hA : handle) (A : Matrix).
Context (h : gmap handle object) (tr : list event) (b : nat) (nt : list Z).
Hypothesis HA : h !! hA = Some (Matrix_object A).
Hypothesis Hsquare : nrows A = ncols A.
Hypothesis Hbounds : in_bounds A.

Lemma lower_tuples_fit :
  Forall (λ t : nat * nat * Z, t.1.1 < nrows A ∧ t.1.2 < nrows A) (lower_tuples A).
Proof.
  eapply Forall_impl; [apply lower_tuples_in_bounds, Hbounds|].
  intros t [? ?]. split; lia.
Qed.

Lemma swapped_tuples_fit :
  Forall (λ t : nat * nat * Z, t.1.1 < nrows A ∧ t.1.2 < nrows A) (swap_tuple <$> lower_tuples A).
Proof.
  apply Forall_fmap. eapply Forall_impl; [apply lower_tuples_fit|].
  intros [[i j] x] [? ?]. simpl in *. auto.
Qed.

Lemma tricount_prep_extract_quiet (L U : option GrB_Matrix) :
  ∃ l u tr',
    tricount_prep_extract pf L U (Some hA) (State h [] tr b nt) =
      (Next ((λ _, Some l) <$> L, (λ _, Some u) <$> U),
       State (install U u (built_upper (nrows A) A) (install L l (built_lower (nrows A) A) h))
             [] tr' b nt)
    ∧ h !! l = None ∧ h !! u = None ∧ l ≠ u
    ∧ mxm_descriptors tr' = mxm_descriptors tr.
Proof.
  unfold tricount_prep_extract. cbv zeta.
  erewrite LAGr_ok by (apply GrB_Matrix_nrows_quiet; eassumption). cbv beta.
  destruct (compact_spec (tuples_of A).*1.*1 (tuples_of A).*1.*2
              (typecast GrB_BOOL <$> (tuples_of A).*2) (size (entries A)))
    as (I' & J' & X' & nedges & Hcompact & HL & HU).
  1-3: rewrite ?length_fmap; apply length_map_to_list.
  rewrite zip_extracted in HL, HU. fold (lower_tuples A) in HL, HU.
  assert (∀ (x : handle) (m : gmap handle object), ∃ y, m !! y = None ∧ y ≠ x) as Hother.
  { intros x m. exists (fresh ({[x]} ∪ dom m)).
    pose proof (is_fresh ({[x]} ∪ dom m)) as Hf.
    rewrite not_elem_of_union, not_elem_of_singleton, not_elem_of_dom in Hf. tauto. }
  destruct L as [L0|], U as [U0|].
  - rewrite bool_decide_eq_true_2 by (left; discriminate).
    erewrite LAGr_ok by (apply GrB_Matrix_nvals_quiet; eassumption). cbv beta.
    erewrite !malloc_bind by apply LAGraph_malloc_quiet. cbv beta iota.
    erewrite LAGr_ok by (apply GrB_Matrix_extractTuples_quiet; eassumption). cbv beta iota.
    rewrite Hcompact. cbv beta iota.
    rewrite bind_assoc.
    erewrite LAGr_ok by apply GrB_Matrix_new_quiet. cbv beta. name_fresh l.
    rewrite bind_assoc.
    erewrite LAGr_ok by (eapply GrB_Matrix_build_quiet; [lookup|rewrite HL; apply lower_tuples_fit]).
    cbv beta. rewrite ret_bind. cbv beta iota.
    rewrite bind_assoc.
    erewrite LAGr_ok by apply GrB_Matrix_new_quiet. cbv beta. name_fresh u.
    rewrite bind_assoc.
    erewrite LAGr_ok by (eapply GrB_Matrix_build_quiet; [lookup|rewrite HU; apply swapped_tuples_fit]).
    cbv beta. rewrite ret_bind. cbv beta iota.
    rewrite !effect_bind. cbv beta.
    exists l, u. eexists. split.
    { unfold mret, body_ret. simpl fmap.
      cbv beta iota delta [LAGRAPH_FREE set_blocks heap faults trace blocks ntri Nat.pred].
      do 2 f_equal. f_equal.
      unfold install, built_upper, built_lower. rewrite HL, HU. heap_eq. }
    repeat split; try eassumption; try congruence; reflexivity.
  - rewrite bool_decide_eq_true_2 by (left; discriminate).
    erewrite LAGr_ok by (apply GrB_Matrix_nvals_quiet; eassumption). cbv beta.
    erewrite !malloc_bind by apply LAGraph_malloc_quiet. cbv beta iota.
    erewrite LAGr_ok by (apply GrB_Matrix_extractTuples_quiet; eassumption). cbv beta iota.
    rewrite Hcompact. cbv beta iota.
    rewrite bind_assoc.
    erewrite LAGr_ok by apply GrB_Matrix_new_quiet. cbv beta. name_fresh l.
    rewrite bind_assoc.
    erewrite LAGr_ok by (eapply GrB_Matrix_build_quiet; [lookup|rewrite HL; apply lower_tuples_fit]).
    cbv beta. rewrite ret_bind. cbv beta iota. rewrite ret_bind. cbv beta.
    rewrite !effect_bind. cbv beta.
    destruct (Hother l h) as (u & Hu & Hul).
    exists l, u. eexists. split.
    { unfold mret, body_ret. simpl fmap.
      cbv beta iota delta [LAGRAPH_FREE set_blocks heap faults trace blocks ntri Nat.pred].
      do 2 f_equal. f_equal.
      unfold install, built_lower. rewrite HL. heap_eq. }
    repeat split; try eassumption; try congruence; reflexivity.
  - rewrite bool_decide_eq_true_2 by (right; discriminate).
    erewrite LAGr_ok by (apply GrB_Matrix_nvals_quiet; eassumption). cbv beta.
    erewrite !malloc_bind by apply LAGraph_malloc_quiet. cbv beta iota.
    erewrite LAGr_ok by (apply GrB_Matrix_extractTuples_quiet; eassumption). cbv beta iota.
    rewrite Hcompact. cbv beta iota.
    rewrite ret_bind. cbv beta. rewrite bind_assoc.
    erewrite LAGr_ok by apply GrB_Matrix_new_quiet. cbv beta. name_fresh u.
    rewrite bind_assoc.
    erewrite LAGr_ok by (eapply GrB_Matrix_build_quiet; [lookup|rewrite HU; apply swapped_tuples_fit]).
    cbv beta. rewrite ret_bind. cbv beta iota.
    rewrite !effect_bind. cbv beta.
    destruct (Hother u h) as (l & Hl & Hlu).
    exists l, u. eexists. split.
    { unfold mret, body_ret. simpl fmap.
      cbv beta iota delta [LAGRAPH_FREE set_blocks heap faults trace blocks ntri Nat.pred].
      do 2 f_equal. f_equal.
      unfold install, built_upper. rewrite HU. heap_eq. }
    repeat split; try eassumption; try congruence; reflexivity.
  - rewrite bool_decide_eq_false_2 by (intros [?|?]; congruence).
    destruct (Hother 0 h) as (l & Hl & _). destruct (Hother l h) as (u & Hu & Hul).
    exists l, u. eexists. split; [reflexivity|].
    repeat split; try eassumption; try congruence; reflexivity.
Qed.

End Prep_extract.

(** [tricount_prep] on either platform. *)
Lemma tricount_prep_quiet pf hA A h tr b nt (L U : option GrB_Matrix) :
  h !! hA = Some (Matrix_object A) → nrows A = ncols A → in_bounds A →
  ∃ l u tr',
    tricount_prep pf L U (Some hA) (State h [] tr b nt) =
      (fallthrough_status pf, ((λ _, Some l) <$> L, (λ _, Some u) <$> U),
       State (install U u (upper_of pf A) (install L l (lower_of pf A) h)) [] tr' b nt)
    ∧ h !! l = None ∧ h !! u = None ∧ l ≠ u
    ∧ mxm_descriptors tr' = mxm_descriptors tr.
Proof.
  intros HA Hsq Hb. unfold tricount_prep, upper_of, lower_of.
  destruct (have_select pf).
  - destruct (tricount_prep_select_quiet pf hA A h tr b nt HA Hsq L U)
      as (l & u & tr' & -> & H). exists l, u, tr'. split; [reflexivity|exact H].
  - destruct (tricount_prep_extract_quiet pf hA A h tr b nt HA Hsq Hb L U)
      as (l & u & tr' & -> & H). exists l, u, tr'. split; [reflexivity|exact H].
Qed.

(** ** LAGraph_tricount when no failure is scheduled *)

Lemma dims_lower_of pf A : nrows (lower_of pf A) = nrows A ∧ ncols (lower_of pf A) = nrows A.
Proof. unfold lower_of. destruct (have_select pf); split; reflexivity. Qed.

Lemma dims_upper_of pf A : nrows (upper_of pf A) = nrows A ∧ ncols (upper_of pf A) = nrows A.
Proof. unfold upper_of. destruct (have_select pf); split; reflexivity. Qed.

Section Run.
Context (pf : platform) (hA : handle) (A : Matrix).
Context (h : gmap handle object) (tr : list event) (b : nat) (nt : list Z).
Hypothesis HA : h !! hA = Some (Matrix_object A).
Hypothesis Hsquare : nrows A = ncols A.
Hypothesis Hbounds : in_bounds A.

Local Ltac dims :=
  cbv beta iota delta [settings default from_option id inp0_tran inp1_tran
       GrB_DESC_S GrB_DESC_ST1 LAGraph_desc_otoo desc_default rows_of cols_of];
  cbn [nrows ncols];
  rewrite ?(proj1 (dims_lower_of pf A)), ?(proj2 (dims_lower_of pf A)),
    ?(proj1 (dims_upper_of pf A)), ?(proj2 (dims_upper_of pf A));
  congruence.

Local Ltac start c :=
  unfold LAGraph_tricount, run, stores, raw_value, divisor, method_descriptor,
    semiring_of, desc_s_of, desc_st1_of;
  cbv zeta; destruct (have_pair pf);
  erewrite LAGr_ok by (apply GrB_Matrix_nrows_quiet; eassumption); cbv beta;
  erewrite LAGr_ok by apply GrB_Matrix_new_quiet; cbv beta iota;
  name_fresh c.

Local Ltac prep l u tr1 L U :=
  let Hl := fresh "Hl" in let Hu := fresh "Hu" in let Hlu := fresh "Hlu" in
  let Hd := fresh "Hd" in let Hrun := fresh "Hrun" in
  match goal with
  | |- context [ State ?h1 [] ?tr0 _ _ ] =>
      destruct (tricount_prep_quiet pf hA A h1 tr0 b nt L U ltac:(lookup) Hsquare Hbounds)
        as (l & u & tr1 & Hrun & Hl & Hu & Hlu & Hd)
  end;
  apply lookup_insert_None in Hl as [? ?]; apply lookup_insert_None in Hu as [? ?];
  rewrite bind_assoc;
  erewrite LAGRAPH_OK_ok
    by (refine (eq_trans Hrun _);
        match goal with H : fallthrough_status pf = _ |- _ => rewrite H end; reflexivity);
  cbv beta iota zeta;
  cbn [after default from_option id fst snd fmap option_fmap option_map install].

Local Ltac multiply_reduce :=
  rewrite ?bind_assoc;
  erewrite LAGr_ok by (eapply GrB_mxm_quiet; [lookup|lookup|lookup|lookup|dims..]); cbv beta;
  rewrite ?bind_assoc;
  erewrite LAGr_ok by (eapply GrB_reduce_quiet; lookup); cbv beta;
  rewrite ?bind_assoc, ?effect_bind, ?ret_bind; cbv beta iota;
  rewrite ?effect_bind; cbv beta.

Local Ltac finish :=
  eexists; split;
  [ unfold mret, body_ret;
    cbv beta iota delta [LAGRAPH_FREE_ALL GrB_free set_heap divide_ntri store_ntri
                         heap faults trace blocks ntri head default from_option id];
    f_equal; f_equal; [heap_eq|reflexivity..]
  | cbn [mxm_descriptors omap list_omap called];
    try match goal with H : mxm_descriptors _ = _ |- _ => unfold mxm_descriptors in H; rewrite H end;
    reflexivity ].

Lemma LAGraph_tricount_quiet method :
  (1 ≤ method ≤ 6)%Z → method = 1%Z ∨ fallthrough_status pf = GrB_SUCCESS →
  ∃ tr',
    LAGraph_tricount pf method (Some hA) (State h [] tr b nt) =
    (GrB_SUCCESS, State h [] tr' b (stores pf method A ++ nt))
    ∧ mxm_descriptors tr' = method_descriptor pf method :: mxm_descriptors tr.
Proof.
  intros Hm Hft.
  assert (method = 1 ∨ method = 2 ∨ method = 3 ∨ method = 4 ∨ method = 5 ∨ method = 6)%Z
    as [->|[->|[->|[->|[->| ->]]]]] by lia.
  - start c; multiply_reduce; finish.
  - destruct Hft as [?|Hft]; [discriminate|].
    start c; prep l u tr1 (Some (@None handle)) (Some (@None handle));
    multiply_reduce; finish.
  - destruct Hft as [?|Hft]; [discriminate|].
    start c; prep l u tr1 (Some (@None handle)) (@None GrB_Matrix);
    multiply_reduce; finish.
  - destruct Hft as [?|Hft]; [discriminate|].
    start c; prep l u tr1 (@None GrB_Matrix) (Some (@None handle));
    multiply_reduce; finish.
  - destruct Hft as [?|Hft]; [discriminate|].
    start c; prep l u tr1 (Some (@None handle)) (Some (@None handle));
    multiply_reduce; finish.
  - destruct Hft as [?|Hft]; [discriminate|].
    start c; prep l u tr1 (Some (@None handle)) (Some (@None handle));
    multiply_reduce; finish.
Qed.

End Run.

(** ** The six formulas count triangles *)

Section Formulas.
Local Open Scope Z_scope.
Context (pf : platform) (A : Matrix).
Hypothesis Hbounds : in_bounds A.
Hypothesis Hsym : symmetric A.

Lemma edge_lower_of i j : edge (lower_of pf A) i j = lower (edge A) i j.
Proof.
  unfold lower_of. destruct (have_select pf).
  - apply edge_tril; [assumption|reflexivity|]. symmetry. apply Hsym.
  - apply edge_built_lower.
Qed.

Lemma edge_upper_of i j : edge (upper_of pf A) i j = upper (edge A) i j.
Proof.
  unfold upper_of. destruct (have_select pf).
  - apply edge_triu; [assumption|reflexivity|]. symmetry. apply Hsym.
  - rewrite edge_built_upper. unfold lower, upper.
    rewrite (edge_symmetric A j i Hsym). reflexivity.
Qed.

Lemma binary_lower_of : binary A → binary (lower_of pf A).
Proof.
  unfold lower_of. destruct (have_select pf); [apply binary_select|apply binary_built_lower].
Qed.

Lemma binary_upper_of : binary A → binary (upper_of pf A).
Proof.
  unfold upper_of. destruct (have_select pf); [apply binary_select|apply binary_built_upper].
Qed.

(** A masked product reduced under the platform's semiring and either of
    its two descriptors, as a count over index triples. *)
Lemma masked_sum_edges (transposed : bool) (M P Q : Matrix) :
  ncols P = nrows A →
  have_pair pf = true ∨ (binary M ∧ binary P ∧ binary Q) →
  masked_sum (semiring_of pf) (if transposed then desc_st1_of pf else desc_s_of pf)
    (nrows A) M P Q =
  wrap64 (sum3 (nrows A)
            (λ i j k, b2z (edge M i j && edge P i k
                           && (if transposed then edge Q j k else edge Q k j)))).
Proof.
  intros Hcols Hval. unfold masked_sum.
  rewrite reduce_masked_product.
  - f_equal. unfold sum3, sum2.
    apply sum_below_ext. intros i _. apply sum_below_ext. intros j _.
    assert (cols_of (inp0_tran (settings (if transposed then desc_st1_of pf else desc_s_of pf))) P
            = nrows A) as ->.
    { unfold desc_st1_of, desc_s_of. destruct transposed, (have_pair pf); exact Hcols. }
    apply sum_below_ext. intros k _.
    assert (inp0_tran (settings (if transposed then desc_st1_of pf else desc_s_of pf)) = false) as ->.
    { unfold desc_st1_of, desc_s_of. destruct transposed, (have_pair pf); reflexivity. }
    assert (inp1_tran (settings (if transposed then desc_st1_of pf else desc_s_of pf)) = transposed) as ->.
    { unfold desc_st1_of, desc_s_of. destruct transposed, (have_pair pf); reflexivity. }
    unfold at_, edge. destruct transposed; reflexivity.
  - unfold desc_st1_of, desc_s_of. destruct transposed, (have_pair pf); reflexivity.
  - unfold desc_st1_of, desc_s_of.
    destruct Hval as [->|(HM & _ & _)]; [left; destruct transposed; reflexivity|right; exact HM].
  - unfold semiring_of. destruct Hval as [->|(_ & HP & HQ)]; [left; reflexivity|right; auto].
Qed.

Hypothesis Hvalues : have_pair pf = true ∨ binary A.

Local Ltac values :=
  destruct Hvalues as [?|?]; [left; assumption|right];
  repeat split; first [assumption | apply binary_lower_of | apply binary_upper_of]; assumption.

Local Ltac edges :=
  f_equal; apply sum3_ext; intros i j k _ _ _;
  rewrite ?edge_lower_of, ?edge_upper_of; reflexivity.

Lemma raw_sandia : raw_value pf 3 A = wrap64 (triangles A).
Proof.
  unfold raw_value. cbv zeta.
  rewrite (masked_sum_edges false) by (first [apply dims_lower_of | values]).
  unfold triangles, is_triangle.
  rewrite <- (count_sandia (edge A) (nrows A)) by (intros; apply edge_symmetric, Hsym). edges.
Qed.

Lemma raw_sandia2 : raw_value pf 4 A = wrap64 (triangles A).
Proof.
  unfold raw_value. cbv zeta.
  rewrite (masked_sum_edges false) by (first [apply dims_upper_of | values]).
  unfold triangles, is_triangle.
  rewrite <- (count_sandia2 (edge A) (nrows A)) by (intros; apply edge_symmetric, Hsym). edges.
Qed.

Lemma raw_sandia_dot : raw_value pf 5 A = wrap64 (triangles A).
Proof.
  unfold raw_value. cbv zeta.
  rewrite (masked_sum_edges true) by (first [apply dims_lower_of | values]).
  unfold triangles, is_triangle.
  rewrite <- (count_sandia_dot (edge A) (nrows A)) by (intros; apply edge_symmetric, Hsym). edges.
Qed.

Lemma raw_sandia_dot2 : raw_value pf 6 A = wrap64 (triangles A).
Proof.
  unfold raw_value. cbv zeta.
  rewrite (masked_sum_edges true) by (first [apply dims_upper_of | values]).
  unfold triangles, is_triangle.
  rewrite <- (count_sandia_dot2 (edge A) (nrows A)) by (intros; apply edge_symmetric, Hsym). edges.
Qed.

Hypothesis Hloops : no_self_edges A.

Lemma raw_burkhardt : raw_value pf 1 A = wrap64 (6 * triangles A).
Proof.
  unfold raw_value. cbv zeta.
  rewrite (masked_sum_edges false) by (first [symmetry; apply Hsym | values]).
  unfold triangles, is_triangle.
  rewrite <- (count_burkhardt (edge A) (nrows A))
    by (intros; first [apply edge_symmetric, Hsym | apply edge_no_self, Hloops]).
  edges.
Qed.

Lemma raw_cohen : raw_value pf 2 A = wrap64 (2 * triangles A).
Proof.
  unfold raw_value. cbv zeta.
  rewrite (masked_sum_edges false) by (first [apply dims_lower_of | values]).
  unfold triangles, is_triangle.
  rewrite <- (count_cohen (edge A) (nrows A))
    by (intros; first [apply edge_symmetric, Hsym | apply edge_no_self, Hloops]).
  edges.
Qed.

Lemma raw_value_triangles method :
  1 ≤ method ≤ 6 → raw_value pf method A = wrap64 (divisor method * triangles A).
Proof.
  intros Hm.
  assert (method = 1 ∨ method = 2 ∨ method = 3 ∨ method = 4 ∨ method = 5 ∨ method = 6)
    as [->|[->|[->|[->|[->| ->]]]]] by lia.
  - apply raw_burkhardt.
  - apply raw_cohen.
  - rewrite raw_sandia. f_equal. simpl divisor. lia.
  - rewrite raw_sandia2. f_equal. simpl divisor. lia.
  - rewrite raw_sandia_dot. f_equal. simpl divisor. lia.
  - rewrite raw_sandia_dot2. f_equal. simpl divisor. lia.
Qed.

End Formulas.

Section Triangle_counts.
Local Open Scope Z_scope.

Lemma triangles_nonneg A : 0 ≤ triangles A.
Proof.
  unfold triangles. apply sum3_nonneg. intros i j k. destruct (is_triangle A i j k); simpl; lia.
Qed.

Lemma edge_complete n i j :
  edge (complete n) i j = bool_decide (i < n ∧ j < n)%nat && bool_decide (i ≠ j).
Proof.
  unfold edge, complete. simpl entries. rewrite lookup_tabulate_positions.
  unfold complete_entry. simpl.
  destruct (decide (i < n ∧ j < n)%nat) as [H|H].
  - rewrite (bool_decide_eq_true_2 _ H). simpl.
    destruct (decide (i = j)) as [->|Hne].
    + rewrite bool_decide_eq_false_2 by (intros [? ?]; discriminate).
      rewrite bool_decide_eq_false_2 by tauto. reflexivity.
    + rewrite bool_decide_eq_true_2 by eauto. rewrite bool_decide_eq_true_2 by assumption.
      reflexivity.
  - rewrite (bool_decide_eq_false_2 _ H). reflexivity.
Qed.

Lemma complete_in_bounds n : in_bounds (complete n).
Proof.
  intros [i j] v H. unfold complete in H. simpl in H.
  rewrite lookup_tabulate_positions in H. case_decide; [assumption|discriminate].
Qed.

Lemma complete_symmetric n : symmetric (complete n).
Proof.
  split; [reflexivity|]. intros [i j] v H. cbn [fst snd].
  assert (edge (complete n) i j = true) as E by (apply edge_true; eauto).
  apply edge_true. rewrite edge_complete in *.
  apply andb_true_iff in E as [E1 E2].
  apply bool_decide_eq_true in E1, E2.
  rewrite !bool_decide_eq_true_2; [reflexivity|congruence|tauto].
Qed.

Lemma complete_no_self_edges n : no_self_edges (complete n).
Proof.
  intros [i j] v H. cbn [fst snd].
  assert (edge (complete n) i j = true) as E by (apply edge_true; eauto).
  rewrite edge_complete in E. apply andb_true_iff in E as [_ E2].
  apply bool_decide_eq_true in E2. exact E2.
Qed.

Lemma complete_binary n : binary (complete n).
Proof.
  intros [i j] v H. unfold complete in H. simpl in H.
  rewrite lookup_tabulate_positions in H. case_decide; [|discriminate].
  unfold complete_entry in H. case_decide; congruence.
Qed.

(** Six times the triangle count of the complete graph: the ordered triples
    of distinct nodes. *)
Lemma triangles_complete_6 n :
  6 * triangles (complete n) = Z.of_nat n * (Z.of_nat n - 1) * (Z.of_nat n - 2).
Proof.
  unfold triangles, is_triangle. simpl nrows.
  rewrite <- (count_burkhardt (edge (complete n)) n).
  - rewrite <- count_distinct. apply sum3_ext. intros i j k Hi Hj Hk.
    rewrite !edge_complete.
    rewrite !(bool_decide_eq_true_2 (_ < n ∧ _ < n)%nat) by lia. simpl.
    repeat case_bool_decide; simpl; try reflexivity; congruence.
  - intros i j. apply edge_symmetric, complete_symmetric.
  - intros i. apply edge_no_self, complete_no_self_edges.
Qed.

Lemma triangles_complete n :
  triangles (complete n) = Z.of_nat n * (Z.of_nat n - 1) * (Z.of_nat n - 2) / 6.
Proof.
  rewrite <- triangles_complete_6. rewrite Z.mul_comm, Z.div_mul by lia. reflexivity.
Qed.

End Triangle_counts.

(** ** Calls that fail *)

Section First_failure.

Lemma first_failure_nil : first_failure [] = None.
Proof. reflexivity. Qed.

Lemma first_failure_app_ok evs oks :
  first_failure oks = None → first_failure (evs ++ oks) = first_failure evs.
Proof.
  unfold first_failure. intros H. rewrite fmap_app, filter_app.
  apply last_None in H. rewrite H, app_nil_r. reflexivity.
Qed.

Lemma first_failure_cons_ok c evs :
  first_failure (Event c GrB_SUCCESS :: evs) = first_failure evs.
Proof.
  unfold first_failure. rewrite fmap_cons. cbn [returned].
  rewrite filter_cons_False; [reflexivity|]. intros H. apply H. reflexivity.
Qed.

Lemma first_failure_cons_first c i evs :
  i ≠ GrB_SUCCESS → first_failure evs = None → first_failure (Event c i :: evs) = Some i.
Proof.
  unfold first_failure. intros Hi H. rewrite fmap_cons. cbn [returned].
  rewrite filter_cons_True by exact Hi.
  apply last_None in H. rewrite H. reflexivity.
Qed.

Lemma first_failure_cons_later c i j evs :
  first_failure evs = Some j → first_failure (Event c i :: evs) = Some j.
Proof.
  unfold first_failure. intros H. rewrite fmap_cons. cbn [returned].
  rewrite filter_cons. case_decide; [|exact H].
  rewrite last_cons, H. reflexivity.
Qed.

Lemma first_failure_not_success evs i : first_failure evs = Some i → i ≠ GrB_SUCCESS.
Proof.
  unfold first_failure. intros H.
  assert (i ∈ filter (λ i, i ≠ GrB_SUCCESS) (returned <$> evs)) as Hin.
  { apply last_Some in H as (l & ->). apply elem_of_app. right. apply list_elem_of_here. }
  apply list_elem_of_filter in Hin as [Hi _]. exact Hi.
Qed.

Lemma new_events_app tr evs : new_events tr (evs ++ tr) = evs.
Proof.
  unfold new_events. rewrite length_app.
  replace (length evs + length tr - length tr) with (length evs) by lia.
  apply take_app_length.
Qed.

End First_failure.

Section Tracking.
Context (st0 : state).

Lemma tracked_start : tracked st0 ∅ None st0.
Proof. exists []. repeat split; [set_solver]. Qed.

Lemma tracked_weaken owned owned' status st :
  owned ⊆ owned' → tracked st0 owned status st → tracked st0 owned' status st.
Proof. intros Hsub (evs & ? & ? & ? & ?). exists evs. repeat split; auto. set_solver. Qed.

(** One more call, which stored nothing through [ntri]. *)
Lemma tracked_call owned status c st info created st' :
  tracked st0 owned status st →
  call_effect c st info created None st' →
  tracked st0 (owned ∪ held created)
    (match status with
     | Some i => Some i
     | None => if decide (info = GrB_SUCCESS) then None else Some info
     end) st'.
Proof.
  intros (evs & Htr & Hff & Hnt & Hdom) (Htr' & Hnt' & Hdom' & _).
  exists (Event c info :: evs). repeat split.
  - rewrite Htr', Htr. reflexivity.
  - destruct status as [i|].
    + apply first_failure_cons_later. exact Hff.
    + case_decide as Hi.
      * subst info. rewrite first_failure_cons_ok. exact Hff.
      * apply first_failure_cons_first; assumption.
  - congruence.
  - rewrite Hdom'. set_solver.
Qed.

Lemma tracked_free owned status x st :
  tracked st0 owned status st →
  tracked st0 (owned ∖ held x) status (GrB_free x st).
Proof.
  intros (evs & Htr & Hff & Hnt & Hdom).
  exists evs. destruct x as [h|]; simpl; repeat split; auto.
  - rewrite dom_delete_L. set_solver.
  - set_solver.
Qed.

Lemma tracked_blocks owned status b st :
  tracked st0 owned status st → tracked st0 owned status (set_blocks b st).
Proof. intros (evs & ? & ? & ? & ?). exists evs. repeat split; assumption. Qed.

End Tracking.

(** *** What each call does, on any state *)

Section Effects.

Lemma dom_put_matrix st C c o :
  matrix_at st C = Some c → dom (heap (put C o st)) = dom (heap st).
Proof.
  unfold matrix_at, put. destruct C as [x|]; simpl; [|discriminate].
  destruct (heap st !! x) as [o'|] eqn:E; simpl; [|discriminate]. intros _.
  rewrite dom_insert_L. apply elem_of_dom_2 in E. set_solver.
Qed.

Lemma dom_put_scalar st s v o :
  scalar_at st s = Some v → dom (heap (put s o st)) = dom (heap st).
Proof.
  unfold scalar_at, put. destruct s as [x|]; simpl; [|discriminate].
  destruct (heap st !! x) as [o'|] eqn:E; simpl; [|discriminate]. intros _.
  rewrite dom_insert_L. apply elem_of_dom_2 in E. set_solver.
Qed.

Lemma trace_put x o st : trace (put x o st) = trace st.
Proof. destruct x; reflexivity. Qed.

Lemma ntri_put x o st : ntri (put x o st) = ntri st.
Proof. destruct x; reflexivity. Qed.

Local Arguments put : simpl never.

Local Ltac split_calls H :=
  repeat first
    [ case_decide
    | case_bool_decide
    | match type of H with
      | context [ match matrix_at ?s ?x with _ => _ end ] =>
          let E := fresh "E" in destruct (matrix_at s x) eqn:E
      | context [ match scalar_at ?s ?x with _ => _ end ] =>
          let E := fresh "E" in destruct (scalar_at s x) as [[? ?]|] eqn:E
      | context [ match optional_matrix ?s ?x with _ => _ end ] =>
          let E := fresh "E" in destruct (optional_matrix s x) eqn:E
      end ].

Local Ltac effect_of op :=
  let H := fresh "H" in
  intros ? ? ? H; unfold op, primitive in H; split_calls H; simplify_eq;
  unfold call_effect; simpl;
  repeat match goal with
         | E : matrix_at _ _ = Some _ |- _ => rewrite ?(dom_put_matrix _ _ _ _ E); clear E
         | E : scalar_at _ _ = Some _ |- _ => rewrite ?(dom_put_scalar _ _ _ _ E); clear E
         end;
  simpl; rewrite ?trace_put, ?ntri_put, ?union_empty_l_L, ?dom_insert_L;
  repeat split; try reflexivity; try congruence; try tauto.

Lemma GrB_Matrix_nrows_effect A st :
  ∀ info x st', GrB_Matrix_nrows A st = (info, x, st') →
                call_effect Matrix_nrows st info None None st'.
Proof. effect_of GrB_Matrix_nrows. Qed.

Lemma GrB_Matrix_nvals_effect A st :
  ∀ info x st', GrB_Matrix_nvals A st = (info, x, st') →
                call_effect Matrix_nvals st info None None st'.
Proof. effect_of GrB_Matrix_nvals. Qed.

Lemma GrB_Matrix_new_effect ty r c st :
  ∀ info x st', GrB_Matrix_new ty r c st = (info, x, st') →
                call_effect (Matrix_new ty r c) st info x None st'.
Proof. effect_of GrB_Matrix_new. Qed.

Lemma GxB_Scalar_new_effect ty st :
  ∀ info x st', GxB_Scalar_new ty st = (info, x, st') →
                call_effect (Scalar_new ty) st info x None st'.
Proof. effect_of GxB_Scalar_new. Qed.

Lemma GxB_Scalar_setElement_effect s v st :
  ∀ info x st', GxB_Scalar_setElement s v st = (info, x, st') →
                call_effect (Scalar_setElement v) st info None None st'.
Proof. effect_of GxB_Scalar_setElement. Qed.

Lemma GxB_select_effect C M accum op A thunk desc st :
  ∀ info x st', GxB_select C M accum op A thunk desc st = (info, x, st') →
                call_effect (Select op) st info None None st'.
Proof. effect_of GxB_select. Qed.

Lemma GrB_mxm_effect C M accum s A B desc st :
  ∀ info x st', GrB_mxm C M accum s A B desc st = (info, x, st') →
                call_effect (Mxm s (settings desc)) st info None None st'.
Proof. effect_of GrB_mxm. Qed.

Lemma GrB_reduce_effect accum monoid A desc st :
  ∀ info x st', GrB_reduce accum monoid A desc st = (info, x, st') →
                ∃ stored, call_effect Reduce st info None stored st'.
Proof.
  intros info x st' H. unfold GrB_reduce, primitive in H. split_calls H; simplify_eq.
  - eexists (Some _). unfold call_effect. simpl. rewrite union_empty_l_L.
    repeat split; try reflexivity; congruence.
  - exists None. unfold call_effect. simpl. rewrite union_empty_l_L. repeat split; reflexivity.
  - exists None. unfold call_effect. simpl. rewrite union_empty_l_L. repeat split; reflexivity.
Qed.

Lemma GrB_Matrix_extractTuples_effect (I_ J_ : list nat) (X_ : list Z) n A st :
  ∀ info x st', GrB_Matrix_extractTuples I_ J_ X_ n A st = (info, x, st') →
                call_effect Matrix_extractTuples st info None None st'.
Proof. effect_of GrB_Matrix_extractTuples. Qed.

Lemma GrB_Matrix_build_effect C (I_ J_ : list nat) (X_ : list Z) n dup st :
  ∀ info x st', GrB_Matrix_build C I_ J_ X_ n dup st = (info, x, st') →
                call_effect Matrix_build st info None None st'.
Proof. effect_of GrB_Matrix_build. Qed.

Lemma LAGraph_malloc_effect {T} (filler : T) n st :
  ∀ p st', LAGraph_malloc filler n st = (p, st') →
           call_effect (Malloc n) st
             (match p with Some _ => GrB_SUCCESS | None => GrB_OUT_OF_MEMORY end) None None st'.
Proof.
  intros p st' H. unfold LAGraph_malloc in H. case_decide; simplify_eq;
    unfold call_effect; simpl; rewrite union_empty_l_L; repeat split; reflexivity.
Qed.

End Effects.

(** *** Reasoning along a function body *)

Section Wp.
Context {R : Type}.

Lemma wp_bind {A B} (m : body R A) (k : A → body R B) Qn Qe st :
  wp m (λ a st', wp (k a) Qn Qe st') Qe st → wp (m ≫= k) Qn Qe st.
Proof. unfold wp, mbind, body_bind. destruct (m st) as [[a|r] st']; auto. Qed.

Lemma wp_ret {A} (a : A) (Qn : A → state → Prop) (Qe : R → state → Prop) st :
  Qn a st → wp (mret a) Qn Qe st.
Proof. auto. Qed.

Lemma wp_effect f (Qn : unit → state → Prop) (Qe : R → state → Prop) st :
  Qn () (f st) → wp (effect f) Qn Qe st.
Proof. auto. Qed.

Lemma wp_return {A} r (Qn : A → state → Prop) (Qe : R → state → Prop) st :
  Qe r st → wp (return_ r) Qn Qe st.
Proof. auto. Qed.

Lemma wp_LAGRAPH_OK {X} onf (op : state → GrB_Info * X * state) Qn (Qe : R → state → Prop) st :
  (∀ info x st', op st = (info, x, st') →
     if decide (info = GrB_SUCCESS) then Qn x st' else wp (onf x info) Qn Qe st') →
  wp (LAGRAPH_OK onf op) Qn Qe st.
Proof.
  intros H. unfold wp at 1, LAGRAPH_OK. destruct (op st) as [[info x] st'] eqn:E.
  specialize (H info x st' eq_refl). case_decide; [exact H|]. exact H.
Qed.

(** A wrapped engine call made in a tracked state with no failure so far. *)
Lemma wp_LAGr_call {X} st0 owned c (created : X → option handle) onf
    (op : state → GrB_Info * X * state) Qn (Qe : R → state → Prop) st :
  tracked st0 owned None st →
  (∀ info x st', op st = (info, x, st') → call_effect c st info (created x) None st') →
  (∀ x st', tracked st0 (owned ∪ held (created x)) None st' → Qn x st') →
  (∀ info st', tracked st0 owned (Some info) st' → wp (onf info) Qn Qe st') →
  wp (LAGr onf op) Qn Qe st.
Proof.
  intros HT Heff Hn He. apply wp_LAGRAPH_OK. intros info x st' E.
  pose proof (Heff _ _ _ E) as Hc.
  pose proof (tracked_call st0 owned None c st info (created x) st' HT Hc) as HT'.
  case_decide as Hi.
  - apply Hn. exact HT'.
  - apply He. destruct Hc as (_ & _ & _ & Hnone). destruct (Hnone Hi) as [Hcr _].
    rewrite Hcr in HT'. eapply tracked_weaken; [|exact HT']. set_solver.
Qed.

Lemma wp_malloc {T} st0 owned status (filler : T) n Qn (Qe : R → state → Prop) st :
  tracked st0 owned status st →
  (∀ (p : option (list T)) st', tracked st0 owned
              (match status with
               | Some i => Some i
               | None => match p with Some _ => None | None => Some GrB_OUT_OF_MEMORY end
               end) st' → Qn p st') →
  wp (malloc filler n) Qn Qe st.
Proof.
  intros HT H. unfold wp, malloc. destruct (LAGraph_malloc filler n st) as [p st'] eqn:E.
  apply H. pose proof (LAGraph_malloc_effect filler n st p st' E) as Hc.
  pose proof (tracked_call st0 owned status _ st _ None st' HT Hc) as HT'.
  eapply tracked_weaken; [|destruct status, p; exact HT']. set_solver.
Qed.

End Wp.

Lemma tracked_free_through st0 owned status p st :
  tracked st0 owned status st →
  tracked st0 (owned ∖ held_through p) status (free_through p st).
Proof.
  intros HT. destruct p as [x|]; simpl.
  - apply tracked_free. exact HT.
  - eapply tracked_weaken; [|exact HT]. set_solver.
Qed.

(** *** tracked calls of tricount_prep *)

Section Prep_tracked.
Context (pf : platform) (st0 : state) (owned : gset handle).

Lemma wp_prep_fails {X} L0 U0 thunk L U info (Qn : X → state → Prop) owned' st :
  nulled L = nulled L0 → nulled U = nulled U0 →
  owned' ∖ held thunk ∖ held_through L ∖ held_through U ⊆ owned →
  tracked st0 owned' (Some info) st →
  wp (prep_fails thunk L U info) Qn (prep_exit st0 owned L0 U0) st.
Proof.
  intros HL HU Hsub HT. unfold wp, prep_fails, prep_exit. simpl. split; [|congruence].
  unfold prep_FREE_ALL. eapply tracked_weaken; [exact Hsub|].
  apply tracked_free_through, tracked_free_through, tracked_free. exact HT.
Qed.

Local Ltac call c created lem :=
  apply wp_bind; eapply (wp_LAGr_call st0 _ c created);
  [ eassumption | intros ? ? ?; apply lem | | ].

Local Ltac prep_failure :=
  let HT := fresh "HT" in
  intros ? ? HT; eapply wp_prep_fails; [reflexivity | reflexivity | | exact HT];
  cbn [held held_through]; set_solver.

Local Ltac prep_done :=
  apply wp_ret; unfold prep_end; cbn [fst snd held held_through];
  eapply tracked_weaken; [|eassumption]; set_solver.

Lemma tricount_prep_select_tracked L0 U0 A st :
  tracked st0 owned None st →
  wp (tricount_prep_select pf L0 U0 A) (prep_end st0 owned) (prep_exit st0 owned L0 U0) st.
Proof.
  intros HT. unfold tricount_prep_select. cbv zeta.
  call Matrix_nrows (λ _ : nat, @None handle) GrB_Matrix_nrows_effect; [|prep_failure].
  intros n st1 HT1.
  call (Scalar_new GrB_INT64) (λ x : GxB_Scalar, x) GxB_Scalar_new_effect; [|prep_failure].
  intros thunk st2 HT2.
  destruct L0 as [L|], U0 as [U|]; cbv beta iota.
  - apply wp_bind.
    call (Matrix_new GrB_BOOL n n) (λ x : GrB_Matrix, x) GrB_Matrix_new_effect; [|prep_failure].
    intros l st3 HT3.
    call (Scalar_setElement (-1)) (λ _ : unit, @None handle) GxB_Scalar_setElement_effect;
      [|prep_failure].
    intros _ st4 HT4.
    call (Select GxB_TRIL) (λ _ : unit, @None handle) GxB_select_effect; [|prep_failure].
    intros _ st5 HT5. apply wp_ret. cbv beta.
    apply wp_bind.
    call (Matrix_new GrB_BOOL n n) (λ x : GrB_Matrix, x) GrB_Matrix_new_effect; [|prep_failure].
    intros u st6 HT6.
    call (Scalar_setElement 1) (λ _ : unit, @None handle) GxB_Scalar_setElement_effect;
      [|prep_failure].
    intros _ st7 HT7.
    call (Select GxB_TRIU) (λ _ : unit, @None handle) GxB_select_effect; [|prep_failure].
    intros _ st8 HT8. apply wp_ret. cbv beta.
    apply wp_bind, wp_LAGRAPH_OK. intros info x st9 [= <- <- <-]. cbv beta iota.
    pose proof (tracked_free st0 _ _ thunk st8 HT8) as HT9.
    prep_done.
  - apply wp_bind.
    call (Matrix_new GrB_BOOL n n) (λ x : GrB_Matrix, x) GrB_Matrix_new_effect; [|prep_failure].
    intros l st3 HT3.
    call (Scalar_setElement (-1)) (λ _ : unit, @None handle) GxB_Scalar_setElement_effect;
      [|prep_failure].
    intros _ st4 HT4.
    call (Select GxB_TRIL) (λ _ : unit, @None handle) GxB_select_effect; [|prep_failure].
    intros _ st5 HT5. apply wp_ret. cbv beta.
    apply wp_bind, wp_ret. cbv beta.
    apply wp_bind, wp_LAGRAPH_OK. intros info x st9 [= <- <- <-]. cbv beta iota.
    pose proof (tracked_free st0 _ _ thunk st5 HT5) as HT9.
    prep_done.
  - apply wp_bind, wp_ret. cbv beta. apply wp_bind.
    call (Matrix_new GrB_BOOL n n) (λ x : GrB_Matrix, x) GrB_Matrix_new_effect; [|prep_failure].
    intros u st6 HT6.
    call (Scalar_setElement 1) (λ _ : unit, @None handle) GxB_Scalar_setElement_effect;
      [|prep_failure].
    intros _ st7 HT7.
    call (Select GxB_TRIU) (λ _ : unit, @None handle) GxB_select_effect; [|prep_failure].
    intros _ st8 HT8. apply wp_ret. cbv beta.
    apply wp_bind, wp_LAGRAPH_OK. intros info x st9 [= <- <- <-]. cbv beta iota.
    pose proof (tracked_free st0 _ _ thunk st8 HT8) as HT9.
    prep_done.
  - apply wp_bind, wp_ret. cbv beta. apply wp_bind, wp_ret. cbv beta.
    apply wp_bind, wp_LAGRAPH_OK. intros info x st9 [= <- <- <-]. cbv beta iota.
    pose proof (tracked_free st0 _ _ thunk st2 HT2) as HT9.
    prep_done.
Qed.

Local Ltac alloc :=
  apply wp_bind; eapply (wp_malloc st0);
  [ eassumption | ].

Lemma tricount_prep_extract_tracked L0 U0 A st :
  tracked st0 owned None st →
  wp (tricount_prep_extract pf L0 U0 A) (prep_end st0 owned) (prep_exit st0 owned L0 U0) st.
Proof.
  intros HT. unfold tricount_prep_extract. cbv zeta.
  call Matrix_nrows (λ _ : nat, @None handle) GrB_Matrix_nrows_effect; [|prep_failure].
  intros n st1 HT1.
  case_bool_decide as Hwant.
  2: { destruct L0, U0;
         try (exfalso; apply Hwant; first [left; discriminate | right; discriminate]).
       prep_done. }
  call Matrix_nvals (λ _ : nat, @None handle) GrB_Matrix_nvals_effect; [|prep_failure].
  intros nvals st2 HT2.
  alloc. intros I_ st3 HT3. alloc. intros J_ st4 HT4. alloc. intros X_ st5 HT5.
  destruct I_ as [I_|], J_ as [J_|], X_ as [X_|]; cbv beta iota in HT5 |- *;
    try (eapply wp_prep_fails; [reflexivity | reflexivity | | exact HT5];
         cbn [held held_through]; set_solver).
  call Matrix_extractTuples (λ _ : list nat * list nat * list Z * nat, @None handle)
    GrB_Matrix_extractTuples_effect; [|prep_failure].
  intros [[[I' J'] X'] nvals'] st6 HT6. cbv beta iota.
  destruct (compact I' J' X' nvals') as [[[I2 J2] X2] nedges].
  destruct L0 as [L|], U0 as [U|]; cbv beta iota.
  - apply wp_bind.
    call (Matrix_new GrB_BOOL n n) (λ x : GrB_Matrix, x) GrB_Matrix_new_effect; [|prep_failure].
    intros l st7 HT7.
    call Matrix_build (λ _ : unit, @None handle) GrB_Matrix_build_effect; [|prep_failure].
    intros _ st8 HT8. apply wp_ret. cbv beta.
    apply wp_bind.
    call (Matrix_new GrB_BOOL n n) (λ x : GrB_Matrix, x) GrB_Matrix_new_effect; [|prep_failure].
    intros u st9 HT9.
    call Matrix_build (λ _ : unit, @None handle) GrB_Matrix_build_effect; [|prep_failure].
    intros _ st10 HT10. apply wp_ret. cbv beta.
    do 3 (apply wp_bind, wp_effect). apply wp_ret.
    unfold prep_end, LAGRAPH_FREE. cbn [fst snd held held_through].
    do 3 apply tracked_blocks. eapply tracked_weaken; [|eassumption]. set_solver.
  - apply wp_bind.
    call (Matrix_new GrB_BOOL n n) (λ x : GrB_Matrix, x) GrB_Matrix_new_effect; [|prep_failure].
    intros l st7 HT7.
    call Matrix_build (λ _ : unit, @None handle) GrB_Matrix_build_effect; [|prep_failure].
    intros _ st8 HT8. apply wp_ret. cbv beta.
    apply wp_bind, wp_ret. cbv beta.
    do 3 (apply wp_bind, wp_effect). apply wp_ret.
    unfold prep_end, LAGRAPH_FREE. cbn [fst snd held held_through].
    do 3 apply tracked_blocks. eapply tracked_weaken; [|eassumption]. set_solver.
  - apply wp_bind, wp_ret. cbv beta. apply wp_bind.
    call (Matrix_new GrB_BOOL n n) (λ x : GrB_Matrix, x) GrB_Matrix_new_effect; [|prep_failure].
    intros u st9 HT9.
    call Matrix_build (λ _ : unit, @None handle) GrB_Matrix_build_effect; [|prep_failure].
    intros _ st10 HT10. apply wp_ret. cbv beta.
    do 3 (apply wp_bind, wp_effect). apply wp_ret.
    unfold prep_end, LAGRAPH_FREE. cbn [fst snd held held_through].
    do 3 apply tracked_blocks. eapply tracked_weaken; [|eassumption]. set_solver.
  - exfalso. destruct Hwant as [H|H]; apply H; reflexivity.
Qed.

(** [tricount_prep] in a tracked state: either it reaches its closing brace
    with no failed call, and the caller reads the status the platform leaves
    there, or it returns the status of its first failed call with L and U
    released. *)
Lemma tricount_prep_tracked L0 U0 A st :
  tracked st0 owned None st →
  ∀ info out st', tricount_prep pf L0 U0 A st = (info, out, st') →
    (info = fallthrough_status pf ∧ prep_end st0 owned out st')
    ∨ prep_exit st0 owned L0 U0 (info, out) st'.
Proof.
  intros HT info out st' H. unfold tricount_prep in H.
  assert (wp (if have_select pf then tricount_prep_select pf L0 U0 A
              else tricount_prep_extract pf L0 U0 A)
             (prep_end st0 owned) (prep_exit st0 owned L0 U0) st) as Hwp.
  { destruct (have_select pf);
      [apply tricount_prep_select_tracked|apply tricount_prep_extract_tracked]; exact HT. }
  unfold wp in Hwp.
  destruct ((if have_select pf then tricount_prep_select pf L0 U0 A
             else tricount_prep_extract pf L0 U0 A) st) as [[o|[i o]] s].
  - injection H as <- <- <-. left. split; [reflexivity|exact Hwp].
  - injection H as <- <- <-. right. exact Hwp.
Qed.

End Prep_tracked.

(** *** LAGraph_tricount through its failures *)

Lemma wp_mono {R A} (m : body R A) (Qn Qn' : A → state → Prop) (Qe : R → state → Prop) st :
  wp m Qn Qe st → (∀ a st', Qn a st' → Qn' a st') → wp m Qn' Qe st.
Proof. unfold wp. destruct (m st) as [[a|r] st']; auto. Qed.

Lemma run_wp {R} (b : body R R) (Q : R → state → Prop) st :
  wp b Q Q st → Q (run b st).1 (run b st).2.
Proof. unfold wp, run. destruct (b st) as [[r|r] st']; auto. Qed.

Lemma trace_GrB_free x st : trace (GrB_free x st) = trace st.
Proof. destruct x; reflexivity. Qed.

Lemma trace_LAGRAPH_FREE_ALL C L U st : trace (LAGRAPH_FREE_ALL C L U st) = trace st.
Proof. unfold LAGRAPH_FREE_ALL. rewrite !trace_GrB_free. reflexivity. Qed.

Lemma held_after p : held (after None p) = held_through p.
Proof. destruct p; reflexivity. Qed.

(** A method outside 1..6 takes the [default] branch of the switch. *)
Lemma LAGraph_tricount_invalid pf method A st :
  ¬ (1 ≤ method ≤ 6)%Z → LAGraph_tricount pf method A st = LAGraph_tricount pf 0 A st.
Proof.
  intros Hm.
  destruct method as [|[[[]|[]|]|[[]|[]|]|]|]; try reflexivity; exfalso; apply Hm; lia.
Qed.

Section Settled.
Context (pf : platform) (st0 : state).

Lemma tracked_unfailed owned st : tracked st0 owned None st → unfailed st0 st.
Proof. intros (evs & ? & ? & _). exists evs. auto. Qed.

Lemma unfailed_trace st st' : trace st' = trace st → unfailed st0 st → unfailed st0 st'.
Proof. intros E (evs & ? & ?). exists evs. rewrite E. auto. Qed.

Lemma settled_contract info st : settled st0 info st → failure_contract st0 info st.
Proof.
  intros [(evs & Htr & Hff & Hnt & Hdom)|(evs & Htr & Hff)] e; rewrite Htr, new_events_app, Hff.
  - intros [= <-]. repeat split; [set_solver|exact Hnt].
  - discriminate.
Qed.

Lemma wp_fails {X} owned status C L U info (Qn : X → state → Prop) st :
  tracked st0 owned status st → owned ⊆ held C ∪ held L ∪ held U →
  status = Some info ∨ status = None →
  wp (fails C L U info) Qn (settled st0) st.
Proof.
  intros HT Hsub Hst. unfold wp, fails, LAGRAPH_FREE_ALL.
  pose proof (tracked_free st0 _ _ U _ (tracked_free st0 _ _ L _ (tracked_free st0 _ _ C _ HT)))
    as HT'.
  destruct Hst as [-> | ->].
  - left. eapply tracked_weaken; [|exact HT']. set_solver.
  - right. eapply tracked_unfailed. exact HT'.
Qed.

Lemma wp_reduce owned C L U A (Qn : unit → state → Prop) st :
  tracked st0 owned None st → owned ⊆ held C ∪ held L ∪ held U →
  (∀ st', unfailed st0 st' → Qn () st') →
  wp (LAGr (fails C L U) (GrB_reduce None LAGraph_PLUS_INT64_MONOID A None)) Qn (settled st0) st.
Proof.
  intros HT Hsub Hn. apply wp_LAGRAPH_OK. intros info [] st' E.
  destruct (GrB_reduce_effect _ _ _ _ _ _ _ _ E) as [stored Hc].
  case_decide as Hi.
  - apply Hn. destruct HT as (evs & Htr & Hff & _). destruct Hc as (Htr' & _).
    exists (Event Reduce info :: evs). split.
    + rewrite Htr', Htr. reflexivity.
    + subst info. rewrite first_failure_cons_ok. exact Hff.
  - pose proof Hc as (_ & _ & _ & Hnone). destruct (Hnone Hi) as [_ ->].
    pose proof (tracked_call st0 owned None _ st info None st' HT Hc) as HT'.
    cbv beta iota in HT'. rewrite decide_False in HT' by exact Hi.
    eapply wp_fails; [exact HT' | | left; reflexivity]. cbn [held]. set_solver.
Qed.

Local Ltac failure :=
  let HT := fresh "HT" in
  intros ? ? HT; eapply wp_fails; [exact HT | | left; reflexivity];
  rewrite ?held_after; cbn [held held_through fst snd]; set_solver.

Local Ltac call created lem :=
  apply wp_bind; eapply (wp_LAGr_call st0 _ _ created);
  [ eassumption | intros ? ? ?; apply lem | | failure ].

Local Ltac reduce :=
  apply wp_bind; eapply wp_reduce;
  [ eassumption | rewrite ?held_after; cbn [held held_through fst snd]; set_solver | ].

Local Ltac finish :=
  apply wp_ret; cbv beta iota; apply wp_bind, wp_effect, wp_ret; right;
  eapply unfailed_trace; [|eassumption];
  rewrite ?trace_LAGRAPH_FREE_ALL; reflexivity.

Local Ltac prep HT :=
  let Hend := fresh "Hend" in let Hexit := fresh "Hexit" in let Hout := fresh "Hout" in
  let E := fresh "E" in let Hft := fresh "Hft" in
  apply wp_bind, wp_LAGRAPH_OK; intros ? ? ? E;
  destruct (tricount_prep_tracked pf st0 _ _ _ _ _ HT _ _ _ E) as [[-> Hend]|[Hexit Hout]];
  [ case_decide as Hft;
    [ unfold prep_end in Hend; cbv beta zeta
    | unfold prep_failed; eapply wp_fails; [exact Hend | | right; reflexivity];
      rewrite ?held_after; cbn [held held_through fst snd]; set_solver ]
  | cbn [fst snd] in Hexit, Hout; case_decide as Hft;
    [ exfalso; destruct Hexit as (? & _ & Hff & _);
      apply first_failure_not_success in Hff; apply Hff; exact Hft
    | unfold prep_failed; eapply wp_fails; [exact Hexit | | left; reflexivity];
      rewrite ?held_after; cbn [held held_through fst snd]; set_solver ] ].

Lemma LAGraph_tricount_settled method A :
  settled st0 (LAGraph_tricount pf method A st0).1 (LAGraph_tricount pf method A st0).2.
Proof.
  destruct (decide (1 ≤ method ≤ 6)%Z) as [Hm|Hm].
  2: { rewrite (LAGraph_tricount_invalid pf method A st0 Hm).
       unfold LAGraph_tricount. apply run_wp. cbv zeta.
       pose proof (tracked_start st0) as HT0.
       call (λ _ : nat, @None handle) GrB_Matrix_nrows_effect.
       intros n st1 HT1.
       call (λ x : GrB_Matrix, x) GrB_Matrix_new_effect.
       intros C st2 HT2. cbv iota.
       apply wp_bind, wp_return. right. eapply tracked_unfailed. exact HT2. }
  unfold LAGraph_tricount. apply run_wp. cbv zeta.
  pose proof (tracked_start st0) as HT0.
  call (λ _ : nat, @None handle) GrB_Matrix_nrows_effect.
  intros n st1 HT1.
  call (λ x : GrB_Matrix, x) GrB_Matrix_new_effect.
  intros C st2 HT2.
  apply wp_bind.
  assert (method = 1 ∨ method = 2 ∨ method = 3 ∨ method = 4 ∨ method = 5 ∨ method = 6)%Z
    as [->|[->|[->|[->|[->| ->]]]]] by lia; cbv iota.
  - call (λ _ : unit, @None handle) GrB_mxm_effect. intros _ st3 HT3.
    reduce. intros st4 Hun. apply wp_bind, wp_effect.
    assert (unfailed st0 (divide_ntri 6 st4)) by (eapply unfailed_trace; [|exact Hun]; reflexivity).
    finish.
  - prep HT2.
    call (λ _ : unit, @None handle) GrB_mxm_effect. intros _ st4 HT4.
    reduce. intros st5 Hun. apply wp_bind, wp_effect.
    assert (unfailed st0 (divide_ntri 2 st5)) by (eapply unfailed_trace; [|exact Hun]; reflexivity).
    finish.
  - prep HT2.
    call (λ _ : unit, @None handle) GrB_mxm_effect. intros _ st4 HT4.
    reduce. intros st5 Hun. finish.
  - prep HT2.
    call (λ _ : unit, @None handle) GrB_mxm_effect. intros _ st4 HT4.
    reduce. intros st5 Hun. finish.
  - prep HT2.
    call (λ _ : unit, @None handle) GrB_mxm_effect. intros _ st4 HT4.
    reduce. intros st5 Hun. finish.
  - prep HT2.
    call (λ _ : unit, @None handle) GrB_mxm_effect. intros _ st4 HT4.
    reduce. intros st5 Hun. finish.
Qed.

End Settled.

(** ** The call on any state with nothing scheduled to fail *)

Lemma LAGraph_tricount_run pf method hA A st :
  heap st !! hA = Some (Matrix_object A) → faults st = [] →
  nrows A = ncols A → in_bounds A →
  (1 ≤ method ≤ 6)%Z → method = 1%Z ∨ fallthrough_status pf = GrB_SUCCESS →
  (LAGraph_tricount pf method (Some hA) st).1 = GrB_SUCCESS
  ∧ ntri (LAGraph_tricount pf method (Some hA) st).2 = stores pf method A ++ ntri st
  ∧ heap (LAGraph_tricount pf method (Some hA) st).2 = heap st
  ∧ mxm_descriptors (trace (LAGraph_tricount pf method (Some hA) st).2)
    = method_descriptor pf method :: mxm_descriptors (trace st).
Proof.
  destruct st as [h f tr b nt]. cbn [heap faults trace ntri]. intros HA -> Hsq Hb Hm Hft.
  destruct (LAGraph_tricount_quiet pf hA A h tr b nt HA Hsq Hb method Hm Hft) as (tr' & -> & Hd).
  cbn [fst snd heap trace ntri]. auto.
Qed.

Section Values.
Local Open Scope Z_scope.

Lemma div_int64_1 z : div_int64 (wrap64 z) 1 = wrap64 z.
Proof. unfold div_int64. rewrite Z.quot_1_r. apply wrap64_idem. Qed.

Lemma div_int64_exact d t :
  0 < d → 0 ≤ t → d * t ≤ INT64_MAX → div_int64 (wrap64 (d * t)) d = t.
Proof.
  intros Hd Ht Hfit.
  assert (INT64_MIN ≤ d * t ≤ INT64_MAX) as H1 by (unfold INT64_MIN, INT64_MAX in *; nia).
  assert (INT64_MIN ≤ t ≤ INT64_MAX) as H2 by (unfold INT64_MIN, INT64_MAX in *; nia).
  unfold div_int64. rewrite (wrap64_small _ H1), Z.mul_comm, Z.quot_mul by lia.
  apply wrap64_small. exact H2.
Qed.

Lemma divisor_pos method : 0 < divisor method.
Proof. destruct method as [|[[[]|[]|]|[[]|[]|]|]|]; reflexivity. Qed.

(** The value each method stores last, whatever the size of the count. *)
Lemma head_stores pf method A :
  in_bounds A → symmetric A → have_pair pf = true ∨ binary A →
  (method ≤ 2 → no_self_edges A) → 1 ≤ method ≤ 6 →
  head (stores pf method A)
  = Some (div_int64 (wrap64 (divisor method * triangles A)) (divisor method)).
Proof.
  intros Hb Hs Hv Hl Hm.
  assert (method = 1 ∨ method = 2 ∨ method = 3 ∨ method = 4 ∨ method = 5 ∨ method = 6)
    as [->|[->|[->|[->|[->| ->]]]]] by lia; unfold stores, divisor; cbn [head];
    rewrite ?Z.mul_1_l, ?div_int64_1.
  - rewrite raw_burkhardt by (first [assumption | apply Hl; lia]). reflexivity.
  - rewrite raw_cohen by (first [assumption | apply Hl; lia]). reflexivity.
  - rewrite raw_sandia by assumption. reflexivity.
  - rewrite raw_sandia2 by assumption. reflexivity.
  - rewrite raw_sandia_dot by assumption. reflexivity.
  - rewrite raw_sandia_dot2 by assumption. reflexivity.
Qed.

End Values.

(** The call returns the wrapped product of the count and the divisor,
    divided again. *)
Lemma LAGraph_tricount_value pf method hA A st :
  heap st !! hA = Some (Matrix_object A) → faults st = [] →
  in_bounds A → symmetric A → have_pair pf = true ∨ binary A →
  ((method ≤ 2)%Z → no_self_edges A) →
  (1 ≤ method ≤ 6)%Z → method = 1%Z ∨ fallthrough_status pf = GrB_SUCCESS →
  returns (LAGraph_tricount pf method (Some hA) st)
          (div_int64 (wrap64 (divisor method * triangles A)) (divisor method)).
Proof.
  intros HA Hf Hb Hs Hv Hl Hm Hft.
  destruct (LAGraph_tricount_run pf method hA A st HA Hf (proj1 Hs) Hb Hm Hft)
    as (Hi & Hn & _ & _).
  split; [exact Hi|]. unfold count_of. rewrite Hn.
  pose proof (head_stores pf method A Hb Hs Hv Hl Hm) as Hh.
  destruct (stores pf method A) as [|x xs]; [discriminate|]. exact Hh.
Qed.

(** ** Removing the diagonal *)

Lemma entries_strip_diagonal A i j :
  entries (strip_diagonal A) !! (i, j) = if decide (i = j) then None else entries A !! (i, j).
Proof.
  unfold strip_diagonal. cbn [entries].
  destruct (decide (i = j)) as [->|Hij].
  - apply map_lookup_filter_None. right. intros v _ H. apply H. reflexivity.
  - destruct (entries A !! (i, j)) as [v|] eqn:E.
    + apply map_lookup_filter_Some. split; [exact E|exact Hij].
    + apply map_lookup_filter_None. left. exact E.
Qed.

Lemma edge_strip_diagonal A i j :
  edge (strip_diagonal A) i j = bool_decide (i ≠ j) && edge A i j.
Proof.
  unfold edge. rewrite entries_strip_diagonal.
  destruct (decide (i = j)) as [->|Hij].
  - rewrite (bool_decide_eq_false_2 (_ ≠ _)) by (intros H; apply H; reflexivity).
    apply bool_decide_eq_false_2. intros [v Hv]. discriminate.
  - rewrite (bool_decide_eq_true_2 (_ ≠ _)) by exact Hij. reflexivity.
Qed.

Lemma strip_diagonal_in_bounds A : in_bounds A → in_bounds (strip_diagonal A).
Proof.
  intros Hb [i j] v H. rewrite entries_strip_diagonal in H.
  case_decide; [discriminate|]. exact (Hb (i, j) v H).
Qed.

Lemma strip_diagonal_symmetric A : symmetric A → symmetric (strip_diagonal A).
Proof.
  intros [Hsq Hs]. split; [exact Hsq|]. intros [i j] v H. cbn [fst snd].
  rewrite entries_strip_diagonal in *. case_decide; [discriminate|].
  rewrite decide_False by congruence. exact (Hs (i, j) v H).
Qed.

Lemma strip_diagonal_binary A : binary A → binary (strip_diagonal A).
Proof.
  intros Hv [i j] v H. rewrite entries_strip_diagonal in H.
  case_decide; [discriminate|]. exact (Hv (i, j) v H).
Qed.

Lemma strip_diagonal_no_self_edges A : no_self_edges (strip_diagonal A).
Proof.
  intros [i j] v H. rewrite entries_strip_diagonal in H. cbn [fst snd].
  case_decide; [discriminate|assumption].
Qed.

Lemma triangles_strip_diagonal A : triangles (strip_diagonal A) = triangles A.
Proof.
  unfold triangles. change (nrows (strip_diagonal A)) with (nrows A).
  apply sum3_ext. intros i j k _ _ _. unfold is_triangle, triangle_at.
  rewrite !edge_strip_diagonal.
  destruct (decide (i < j)) as [Hij|Hij].
  2: { rewrite (bool_decide_eq_false_2 (i < j)) by exact Hij. reflexivity. }
  destruct (decide (j < k)) as [Hjk|Hjk].
  2: { rewrite (bool_decide_eq_false_2 (j < k)) by exact Hjk. rewrite !andb_false_r.
       reflexivity. }
  rewrite !(bool_decide_eq_true_2 (_ ≠ _)) by lia. reflexivity.
Qed.

(** ** The structures the builder produces *)

Lemma elem_of_structure A i j : (i, j) ∈ structure A ↔ edge A i j = true.
Proof. unfold structure. rewrite elem_of_dom, edge_true. reflexivity. Qed.

Lemma structure_lower_of pf A :
  in_bounds A → symmetric A → structure (lower_of pf A) = strictly_lower (structure A).
Proof.
  intros Hb Hs. apply set_eq. intros [i j]. unfold strictly_lower.
  rewrite elem_of_filter, !elem_of_structure, (edge_lower_of pf A Hb Hs). unfold lower.
  cbn [fst snd]. rewrite andb_true_iff, bool_decide_eq_true. reflexivity.
Qed.

Lemma structure_upper_of pf A :
  in_bounds A → symmetric A → structure (upper_of pf A) = strictly_upper (structure A).
Proof.
  intros Hb Hs. apply set_eq. intros [i j]. unfold strictly_upper.
  rewrite elem_of_filter, !elem_of_structure, (edge_upper_of pf A Hb Hs). unfold upper.
  cbn [fst snd]. rewrite andb_true_iff, bool_decide_eq_true. reflexivity.
Qed.

Lemma split_structure (s : gset (nat * nat)) :
  strictly_lower s ∪ strictly_upper s ∪ diagonal s = s.
Proof.
  apply set_eq. intros [i j]. unfold strictly_lower, strictly_upper, diagonal.
  rewrite !elem_of_union, !elem_of_filter. cbn [fst snd].
  split; [tauto|]. intros H. destruct (Nat.lt_total i j) as [?|[?|?]]; tauto.
Qed.

Lemma transpose_strictly_lower A :
  symmetric A → transpose (strictly_lower (structure A)) = strictly_upper (structure A).
Proof.
  intros Hs. apply set_eq. intros [i j]. unfold transpose, strictly_lower, strictly_upper.
  rewrite elem_of_map, elem_of_filter, elem_of_structure. cbn [fst snd]. split.
  - intros ([a b] & [= -> ->] & [Hlt Hin]%elem_of_filter). cbn [fst snd] in *.
    apply elem_of_structure in Hin. rewrite (edge_symmetric A b a Hs). tauto.
  - intros [Hlt He]. exists (j, i). split; [reflexivity|].
    apply elem_of_filter. cbn [fst snd]. split; [exact Hlt|].
    apply elem_of_structure. rewrite (edge_symmetric A j i Hs). exact He.
Qed.

(** ** The complete graph too large for 64 bits *)

Lemma huge_nodes : Z.of_nat huge = 2097154%Z.
Proof. unfold huge. apply Z2Nat.id. lia. Qed.

Lemma triangles_huge_6 : (6 * triangles (complete huge) = 9223385230998503424)%Z.
Proof. rewrite triangles_complete_6, huge_nodes. reflexivity. Qed.

Lemma triangles_huge : triangles (complete huge) = 1537230871833083904%Z.
Proof. pose proof triangles_huge_6. lia. Qed.

(** * The properties of LAGraph_tricount and tricount_prep *)

Lemma graph_state_lookup A schedule :
  heap (graph_state A schedule) !! 0 = Some (Matrix_object A).
Proof. unfold graph_state. cbn [heap]. apply lookup_singleton_eq. Qed.

(** The six methods on the complete graph on [huge] nodes. *)
Lemma tricount_huge method :
  (1 ≤ method ≤ 6)%Z →
  returns (LAGraph_tricount suitesparse_3_2 method (Some 0) (graph_state (complete huge) []))
          (div_int64 (wrap64 (divisor method * 1537230871833083904)) (divisor method)).
Proof.
  intros Hm. rewrite <- triangles_huge. apply LAGraph_tricount_value.
  - apply graph_state_lookup.
  - reflexivity.
  - apply complete_in_bounds.
  - apply complete_symmetric.
  - left. reflexivity.
  - intros _. apply complete_no_self_edges.
  - exact Hm.
  - right. reflexivity.
Qed.

Lemma stores_huge_1 :
  stores suitesparse_3_2 1 (complete huge) = [-1537226473785174698; -9223358842711048192]%Z.
Proof.
  unfold stores, divisor.
  rewrite raw_burkhardt
    by first [apply complete_in_bounds | apply complete_symmetric
             | apply complete_no_self_edges | left; reflexivity].
  rewrite triangles_huge_6. reflexivity.
Qed.

Lemma ntri_huge_1 :
  ntri (LAGraph_tricount suitesparse_3_2 1 (Some 0) (graph_state (complete huge) [])).2
  = [-1537226473785174698; -9223358842711048192]%Z.
Proof.
  destruct (LAGraph_tricount_run suitesparse_3_2 1 0 (complete huge)
              (graph_state (complete huge) [])) as (_ & Hn & _ & _).
  - apply graph_state_lookup.
  - reflexivity.
  - reflexivity.
  - apply complete_in_bounds.
  - lia.
  - left. reflexivity.
  - etransitivity; [exact Hn|]. rewrite stores_huge_1. reflexivity.
Qed.

Lemma triangles_huger : triangles (complete huger) = 4611687981336411416%Z.
Proof.
  pose proof (triangles_complete_6 huger) as H.
  assert (Z.of_nat huger = 3024618%Z) as Hn by (unfold huger; apply Z2Nat.id; lia).
  rewrite Hn in H. lia.
Qed.

Lemma ntri_huger_2 :
  ntri (LAGraph_tricount suitesparse_3_2 2 (Some 0) (graph_state (complete huger) [])).2
  = [-4611684055518364392; -9223368111036728784]%Z.
Proof.
  destruct (LAGraph_tricount_run suitesparse_3_2 2 0 (complete huger)
              (graph_state (complete huger) [])) as (_ & Hn & _ & _).
  - apply graph_state_lookup.
  - reflexivity.
  - reflexivity.
  - apply complete_in_bounds.
  - lia.
  - right. reflexivity.
  - etransitivity; [exact Hn|]. unfold stores, divisor.
    rewrite raw_cohen
      by first [apply complete_in_bounds | apply complete_symmetric
               | apply complete_no_self_edges | left; reflexivity].
    rewrite triangles_huger. reflexivity.
Qed.

(** ** An out-of-range method *)

(** X18: for every method outside 1..6, every input and every schedule,
    LAGraph_tricount calls GrB_Matrix_nrows and, when that succeeds,
    GrB_Matrix_new for C, and only then reaches the switch: it returns
    GrB_INVALID_VALUE unless one of the two calls failed (then that call's
    status), it has made no computing call (select, extractTuples, build,
    mxm, reduce), it has stored nothing through ntri, and when neither call
    failed it has performed one allocation, that of C. *)
Theorem tricount_invalid_method pf method A st :
  ¬ (1 ≤ method ≤ 6)%Z →
  let r := LAGraph_tricount pf method A st in
  let evs := new_events (trace st) (trace r.2) in
  r.1 = default GrB_INVALID_VALUE (first_failure evs)
  ∧ (first_failure evs = None → allocations evs = 1)
  ∧ Forall (λ e, is_computation e = false) evs
  ∧ ntri r.2 = ntri st.
Proof.
  intros Hm r evs. subst evs r. rewrite (LAGraph_tricount_invalid pf method A st Hm).
  unfold LAGraph_tricount, run. cbv zeta.
  unfold mbind, body_bind, LAGr, LAGRAPH_OK.
  destruct (GrB_Matrix_nrows A st) as [[i1 n] st1] eqn:E1.
  apply GrB_Matrix_nrows_effect in E1 as (Ht1 & Hn1 & _ & _).
  case_decide as H1.
  - destruct (GrB_Matrix_new GrB_INT64 n n st1) as [[i2 C] st2] eqn:E2.
    apply GrB_Matrix_new_effect in E2 as (Ht2 & Hn2 & _ & _).
    case_decide as H2; cbn [fails return_ LAGRAPH_FREE_ALL GrB_free fst snd];
      rewrite Ht2, Ht1, Hn2, Hn1;
      change (Event (Matrix_new GrB_INT64 n n) i2 :: Event Matrix_nrows i1 :: trace st)
        with ([Event (Matrix_new GrB_INT64 n n) i2; Event Matrix_nrows i1] ++ trace st);
      rewrite new_events_app; subst i1.
    + subst i2. repeat split.
      repeat constructor.
    + rewrite first_failure_cons_first by (exact H2 || reflexivity).
      repeat split; [discriminate|]. repeat constructor.
  - cbn [fails return_ LAGRAPH_FREE_ALL GrB_free fst snd]. rewrite Ht1, Hn1.
    change (Event Matrix_nrows i1 :: trace st) with ([Event Matrix_nrows i1] ++ trace st).
    rewrite new_events_app.
    rewrite first_failure_cons_first by (exact H1 || reflexivity).
    repeat split; [discriminate|]. repeat constructor.
Qed.

Lemma tricount_invalid_method_witness :
  let r := LAGraph_tricount plain_graphblas 7 (Some 0) (graph_state (complete 3) []) in
  let evs := new_events [] (trace r.2) in
  r.1 = default GrB_INVALID_VALUE (first_failure evs)
  ∧ (first_failure evs = None → allocations evs = 1)
  ∧ Forall (λ e, is_computation e = false) evs
  ∧ ntri r.2 = [].
Proof.
  apply (tricount_invalid_method plain_graphblas 7 (Some 0) (graph_state (complete 3) [])).
  lia.
Defined.

(** C1: the call with method 0 on a triangle, nothing failing, returns
    GrB_INVALID_VALUE after the two calls GrB_Matrix_nrows and
    GrB_Matrix_new, one allocation having been made, and the matrix C it
    created, which was not live before the call, is still live afterwards:
    the default branch returns without LAGRAPH_FREE_ALL. The call with
    method 1 on the same input leaves no such object. *)
Lemma tricount_invalid_method_allocates :
  let st := graph_state (complete 3) [] in
  let r := LAGraph_tricount suitesparse_3_2 0 (Some 0) st in
  r.1 = GrB_INVALID_VALUE
  ∧ allocations (trace r.2) = 1
  ∧ called <$> trace r.2 = [Matrix_new GrB_INT64 3 3; Matrix_nrows]
  ∧ heap st !! 1 = None
  ∧ heap r.2 !! 1 = Some (Matrix_object (Mat GrB_INT64 3 3 ∅))
  ∧ (LAGraph_tricount suitesparse_3_2 1 (Some 0) st).1 = GrB_SUCCESS
  ∧ heap (LAGraph_tricount suitesparse_3_2 1 (Some 0) st).2 !! 1 = None.
Proof. vm_compute. repeat split. Qed.

(** ** The count *)

(** C2 (amended): for every symmetric matrix A without self-edges (binary,
    unless the PAIR semiring is in use) and every method in 1..6, when no
    call fails, the status tricount_prep leaves is GrB_SUCCESS (methods 2 to
    6) and the method's multiple of the triangle count (6 times, 2 times,
    once) fits in a signed 64-bit integer, LAGraph_tricount succeeds and
    stores the true triangle count of A; that count is 1 on the complete
    graph on 3 nodes and n(n-1)(n-2)/6 on the complete graph on n nodes. *)
Theorem tricount_count pf method hA A st :
  heap st !! hA = Some (Matrix_object A) → faults st = [] →
  in_bounds A → symmetric A → no_self_edges A → have_pair pf = true ∨ binary A →
  (1 ≤ method ≤ 6)%Z → method = 1%Z ∨ fallthrough_status pf = GrB_SUCCESS →
  (divisor method * triangles A ≤ INT64_MAX)%Z →
  returns (LAGraph_tricount pf method (Some hA) st) (triangles A)
  ∧ (A = complete 3 → triangles A = 1%Z)
  ∧ (∀ n, A = complete n →
          triangles A = (Z.of_nat n * (Z.of_nat n - 1) * (Z.of_nat n - 2) / 6)%Z).
Proof.
  intros HA Hf Hb Hs Hl Hv Hm Hft Hfit. split; [|split].
  - pose proof (LAGraph_tricount_value pf method hA A st HA Hf Hb Hs Hv (λ _, Hl) Hm Hft) as Hr.
    rewrite div_int64_exact in Hr
      by first [apply divisor_pos | apply triangles_nonneg | exact Hfit].
    exact Hr.
  - intros ->. rewrite triangles_complete. reflexivity.
  - intros n ->. apply triangles_complete.
Qed.

Lemma tricount_count_witness :
  returns (LAGraph_tricount plain_graphblas 5 (Some 0) (graph_state (complete 3) []))
          (triangles (complete 3))
  ∧ triangles (complete 3) = 1%Z.
Proof.
  destruct (tricount_count plain_graphblas 5 0 (complete 3) (graph_state (complete 3) []))
    as (Hr & H3 & _).
  - reflexivity.
  - reflexivity.
  - apply complete_in_bounds.
  - apply complete_symmetric.
  - apply complete_no_self_edges.
  - right. apply complete_binary.
  - lia.
  - right. reflexivity.
  - vm_compute. intros H. discriminate H.
  - split; [exact Hr | exact (H3 eq_refl)].
Defined.

(** The complete graph on 2097154 nodes has 1537230871833083904 triangles;
    six times that exceeds 2^63 - 1, and method 1 stores a negative count. *)
Lemma tricount_count_overflow :
  symmetric (complete huge) ∧ no_self_edges (complete huge)
  ∧ triangles (complete huge) = 1537230871833083904%Z
  ∧ returns (LAGraph_tricount suitesparse_3_2 1 (Some 0) (graph_state (complete huge) []))
            (-1537226473785174698).
Proof.
  split; [apply complete_symmetric|]. split; [apply complete_no_self_edges|].
  split; [apply triangles_huge|]. apply (tricount_huge 1). lia.
Qed.

(** C3 (amended): for every symmetric matrix A without self-edges (binary,
    unless the PAIR semiring is in use) and any two methods m1, m2 in 1..6,
    when no call fails, tricount_prep leaves GrB_SUCCESS and the multiple of
    the triangle count each of the two methods accumulates fits in a signed
    64-bit integer, the two calls succeed and store the same count. *)
Theorem tricount_methods_agree pf m1 m2 hA A st :
  heap st !! hA = Some (Matrix_object A) → faults st = [] →
  in_bounds A → symmetric A → no_self_edges A → have_pair pf = true ∨ binary A →
  (1 ≤ m1 ≤ 6)%Z → (1 ≤ m2 ≤ 6)%Z → fallthrough_status pf = GrB_SUCCESS →
  (divisor m1 * triangles A ≤ INT64_MAX)%Z → (divisor m2 * triangles A ≤ INT64_MAX)%Z →
  ∃ x, returns (LAGraph_tricount pf m1 (Some hA) st) x
       ∧ returns (LAGraph_tricount pf m2 (Some hA) st) x.
Proof.
  intros HA Hf Hb Hs Hl Hv Hm1 Hm2 Hft Hfit1 Hfit2.
 exists (triangles A). split.
  - pose proof (LAGraph_tricount_value pf m1 hA A st HA Hf Hb Hs Hv (λ _, Hl) Hm1 (or_intror Hft)) as Hr.
    rewrite div_int64_exact in Hr
      by first [apply divisor_pos | apply triangles_nonneg | exact Hfit1].
    exact Hr.
  - pose proof (LAGraph_tricount_value pf m2 hA A st HA Hf Hb Hs Hv (λ _, Hl) Hm2 (or_intror Hft)) as Hr.
    rewrite div_int64_exact in Hr
      by first [apply divisor_pos | apply triangles_nonneg | exact Hfit2].
    exact Hr.
Qed.

Lemma tricount_methods_agree_witness :
  ∃ x, returns (LAGraph_tricount suitesparse_3_0 1 (Some 0) (graph_state (complete 4) [])) x
       ∧ returns (LAGraph_tricount suitesparse_3_0 6 (Some 0) (graph_state (complete 4) [])) x.
Proof.
  apply (tricount_methods_agree suitesparse_3_0 1 6 0 (complete 4)).
  - reflexivity.
  - reflexivity.
  - apply complete_in_bounds.
  - apply complete_symmetric.
  - apply complete_no_self_edges.
  - right. apply complete_binary.
  - lia.
  - lia.
  - reflexivity.
  - vm_compute. intros H. discriminate H.
  - vm_compute. intros H. discriminate H.
Defined.

(** On the complete graph on 2097154 nodes, methods 1 and 3 both succeed and
    store different counts. *)
Lemma tricount_methods_differ :
  symmetric (complete huge) ∧ no_self_edges (complete huge)
  ∧ returns (LAGraph_tricount suitesparse_3_2 1 (Some 0) (graph_state (complete huge) []))
            (-1537226473785174698)
  ∧ returns (LAGraph_tricount suitesparse_3_2 3 (Some 0) (graph_state (complete huge) []))
            1537230871833083904.
Proof.
  split; [apply complete_symmetric|]. split; [apply complete_no_self_edges|]. split.
  - apply (tricount_huge 1). lia.
  - apply (tricount_huge 3). lia.
Qed.

(** ** The builder *)

(** What [tricount_prep] hands back when nothing is scheduled to fail. *)
Lemma tricount_prep_outputs pf hA A st (L U : option GrB_Matrix) :
  heap st !! hA = Some (Matrix_object A) → faults st = [] →
  nrows A = ncols A → in_bounds A →
  ∃ l u st',
    tricount_prep pf L U (Some hA) st
    = (fallthrough_status pf, ((λ _, Some l) <$> L, (λ _, Some u) <$> U), st')
    ∧ (is_Some L → heap st' !! l = Some (Matrix_object (lower_of pf A)))
    ∧ (is_Some U → heap st' !! u = Some (Matrix_object (upper_of pf A))).
Proof.
  destruct st as [h f tr b nt]. cbn [heap faults]. intros HA -> Hsq Hb.
  destruct (tricount_prep_quiet pf hA A h tr b nt L U HA Hsq Hb)
    as (l & u & tr' & E & _ & _ & Hlu & _).
  eexists l, u, _. split; [exact E|]. cbn [heap].
  split; intros [x ->].
  - destruct U; cbn [install]; rewrite ?lookup_insert_ne by congruence;
      apply lookup_insert_eq.
  - destruct L; cbn [install]; apply lookup_insert_eq.
Qed.

Lemma output_structure_lower pf A st l (L : option GrB_Matrix) :
  in_bounds A → symmetric A →
  (is_Some L → heap st !! l = Some (Matrix_object (lower_of pf A))) →
  output_structure st ((λ _, Some l) <$> L)
  = (λ _, (nrows A, nrows A, strictly_lower (structure A))) <$> L.
Proof.
  intros Hb Hs Hl. destruct L as [x|]; [|reflexivity].
  unfold output_structure, matrix_at. cbn [fmap option_fmap option_map mbind option_bind].
  rewrite (Hl (mk_is_Some _ _ eq_refl)). cbn [mbind option_bind].
  rewrite (proj1 (dims_lower_of pf A)), (proj2 (dims_lower_of pf A)),
    (structure_lower_of pf A Hb Hs). reflexivity.
Qed.

Lemma output_structure_upper pf A st u (U : option GrB_Matrix) :
  in_bounds A → symmetric A →
  (is_Some U → heap st !! u = Some (Matrix_object (upper_of pf A))) →
  output_structure st ((λ _, Some u) <$> U)
  = (λ _, (nrows A, nrows A, strictly_upper (structure A))) <$> U.
Proof.
  intros Hb Hs Hu. destruct U as [x|]; [|reflexivity].
  unfold output_structure, matrix_at. cbn [fmap option_fmap option_map mbind option_bind].
  rewrite (Hu (mk_is_Some _ _ eq_refl)). cbn [mbind option_bind].
  rewrite (proj1 (dims_upper_of pf A)), (proj2 (dims_upper_of pf A)),
    (structure_upper_of pf A Hb Hs). reflexivity.
Qed.

(** C4: for every symmetric matrix A (with or without self-edges), when no
    call fails, tricount_prep asked for both outputs leaves in L and U two
    matrices such that the union of the structure of L, the structure of U
    and the diagonal part of the structure of A is exactly the structure of
    A, and the transpose of the structure of L is the structure of U. *)
Theorem tricount_prep_round_trip pf hA A st :
  heap st !! hA = Some (Matrix_object A) → faults st = [] →
  in_bounds A → symmetric A →
  ∃ info l u st' L U,
    tricount_prep pf (Some None) (Some None) (Some hA) st
    = (info, (Some (Some l), Some (Some u)), st')
    ∧ heap st' !! l = Some (Matrix_object L)
    ∧ heap st' !! u = Some (Matrix_object U)
    ∧ structure L ∪ structure U ∪ diagonal (structure A) = structure A
    ∧ transpose (structure L) = structure U.
Proof.
  intros HA Hf Hb Hs.
  destruct (tricount_prep_outputs pf hA A st (Some None) (Some None) HA Hf (proj1 Hs) Hb)
    as (l & u & st' & E & Hl & Hu).
  exists (fallthrough_status pf), l, u, st', (lower_of pf A), (upper_of pf A).
  split; [exact E|]. split; [apply Hl; eauto|]. split; [apply Hu; eauto|].
  rewrite (structure_lower_of pf A Hb Hs), (structure_upper_of pf A Hb Hs).
  split; [apply split_structure | apply transpose_strictly_lower; exact Hs].
Qed.

Lemma tricount_prep_round_trip_witness :
  ∃ info l u st' L U,
    tricount_prep plain_graphblas (Some None) (Some None) (Some 0) (graph_state (complete 3) [])
    = (info, (Some (Some l), Some (Some u)), st')
    ∧ heap st' !! l = Some (Matrix_object L)
    ∧ heap st' !! u = Some (Matrix_object U)
    ∧ structure L ∪ structure U ∪ diagonal (structure (complete 3)) = structure (complete 3)
    ∧ transpose (structure L) = structure U.
Proof.
  apply (tricount_prep_round_trip plain_graphblas 0 (complete 3)).
  - reflexivity.
  - reflexivity.
  - apply complete_in_bounds.
  - apply complete_symmetric.
Defined.

(** C5: for every symmetric matrix A and every combination of requested
    outputs, when no call fails, tricount_prep compiled with GxB_select and
    tricount_prep compiled with extractTuples and build leave matrices of
    the same dimensions and the same structure in L and in U: the strictly
    lower and the strictly upper part of the structure of A, n by n; an
    output that was not requested holds nothing under either. *)
Theorem tricount_prep_strategies_agree pf1 pf2 hA A st (L U : option GrB_Matrix) :
  have_select pf1 = true → have_select pf2 = false →
  heap st !! hA = Some (Matrix_object A) → faults st = [] →
  in_bounds A → symmetric A →
  let '(_, (L1, U1), st1) := tricount_prep pf1 L U (Some hA) st in
  let '(_, (L2, U2), st2) := tricount_prep pf2 L U (Some hA) st in
  output_structure st1 L1 = output_structure st2 L2
  ∧ output_structure st1 U1 = output_structure st2 U2
  ∧ output_structure st1 L1 = (λ _, (nrows A, nrows A, strictly_lower (structure A))) <$> L
  ∧ output_structure st1 U1 = (λ _, (nrows A, nrows A, strictly_upper (structure A))) <$> U.
Proof.
  intros _ _ HA Hf Hb Hs.
  destruct (tricount_prep_outputs pf1 hA A st L U HA Hf (proj1 Hs) Hb)
    as (l1 & u1 & st1 & -> & Hl1 & Hu1).
  destruct (tricount_prep_outputs pf2 hA A st L U HA Hf (proj1 Hs) Hb)
    as (l2 & u2 & st2 & -> & Hl2 & Hu2).
  rewrite (output_structure_lower pf1 A st1 l1 L Hb Hs Hl1),
    (output_structure_lower pf2 A st2 l2 L Hb Hs Hl2),
    (output_structure_upper pf1 A st1 u1 U Hb Hs Hu1),
    (output_structure_upper pf2 A st2 u2 U Hb Hs Hu2).
  repeat split.
Qed.

Lemma tricount_prep_strategies_agree_witness :
  let '(_, (L1, U1), st1) :=
    tricount_prep suitesparse_3_2 (Some None) None (Some 0) (graph_state (complete 3) []) in
  let '(_, (L2, U2), st2) :=
    tricount_prep plain_graphblas (Some None) None (Some 0) (graph_state (complete 3) []) in
  output_structure st1 L1 = output_structure st2 L2
  ∧ output_structure st1 U1 = output_structure st2 U2
  ∧ output_structure st1 L1 = Some (3, 3, strictly_lower (structure (complete 3)))
  ∧ output_structure st1 U1 = None.
Proof.
  apply (tricount_prep_strategies_agree suitesparse_3_2 plain_graphblas 0 (complete 3)
           (graph_state (complete 3) []) (Some None) None).
  - reflexivity.
  - reflexivity.
  - reflexivity.
  - reflexivity.
  - apply complete_in_bounds.
  - apply complete_symmetric.
Defined.

(** ** The values before the division *)

Section Raw_values.
Local Open Scope Z_scope.
Context (pf : platform) (hA : handle) (A : Matrix) (st : state).
Hypothesis HA : heap st !! hA = Some (Matrix_object A).
Hypothesis Hquiet : faults st = [].
Hypothesis Hbounds : in_bounds A.
Hypothesis Hsym : symmetric A.
Hypothesis Hloops : no_self_edges A.
Hypothesis Hvalues : have_pair pf = true ∨ binary A.

(** What methods 1 and 2 store through [ntri]: the reduction, then the
    quotient. *)
Lemma ntri_burkhardt :
  (LAGraph_tricount pf 1 (Some hA) st).1 = GrB_SUCCESS
  ∧ ntri (LAGraph_tricount pf 1 (Some hA) st).2
    = div_int64 (wrap64 (6 * triangles A)) 6 :: wrap64 (6 * triangles A) :: ntri st.
Proof.
  destruct (LAGraph_tricount_run pf 1 hA A st HA Hquiet (proj1 Hsym) Hbounds)
    as (Hi & Hn & _ & _); [lia|left; reflexivity|].
  split; [exact Hi|]. etransitivity; [exact Hn|].
  unfold stores, divisor. rewrite raw_burkhardt by assumption. reflexivity.
Qed.

Lemma ntri_cohen :
  fallthrough_status pf = GrB_SUCCESS →
  (LAGraph_tricount pf 2 (Some hA) st).1 = GrB_SUCCESS
  ∧ ntri (LAGraph_tricount pf 2 (Some hA) st).2
    = div_int64 (wrap64 (2 * triangles A)) 2 :: wrap64 (2 * triangles A) :: ntri st.
Proof.
  intros Hft.
  destruct (LAGraph_tricount_run pf 2 hA A st HA Hquiet (proj1 Hsym) Hbounds)
    as (Hi & Hn & _ & _); [lia|right; exact Hft|].
  split; [exact Hi|]. etransitivity; [exact Hn|].
  unfold stores, divisor. rewrite raw_cohen by assumption. reflexivity.
Qed.

End Raw_values.

Lemma div_int64_even z : (2 | z)%Z → (wrap64 z = 2 * div_int64 (wrap64 z) 2)%Z.
Proof.
  intros H. apply wrap64_even in H as [k Hk].
  pose proof (wrap64_range z) as Hr. rewrite Hk in *. unfold div_int64.
  rewrite Z.quot_mul by lia. rewrite wrap64_small; [lia|].
  unfold INT64_MIN, INT64_MAX in *. lia.
Qed.

(** C6 (amended): for every symmetric matrix A without self-edges (binary,
    unless the PAIR semiring is in use), with or without a triangle, when no
    call fails: if 6 times the triangle count of A fits in a signed 64-bit
    integer, the value the reduction of method 1 stores before the division
    is exactly 6 times the triangle count; if 2 times the triangle count
    fits and tricount_prep leaves GrB_SUCCESS, the value the reduction of
    method 2 stores is exactly 2 times the triangle count; in both cases the
    division then stores the triangle count. *)
Theorem tricount_raw_values pf hA A st :
  heap st !! hA = Some (Matrix_object A) → faults st = [] →
  in_bounds A → symmetric A → no_self_edges A → have_pair pf = true ∨ binary A →
  ((6 * triangles A ≤ INT64_MAX)%Z →
     ntri (LAGraph_tricount pf 1 (Some hA) st).2
     = (triangles A :: 6 * triangles A :: ntri st)%Z)
  ∧ ((2 * triangles A ≤ INT64_MAX)%Z → fallthrough_status pf = GrB_SUCCESS →
     ntri (LAGraph_tricount pf 2 (Some hA) st).2
     = (triangles A :: 2 * triangles A :: ntri st)%Z).
Proof.
  intros HA Hf Hb Hs Hl Hv.
  pose proof (triangles_nonneg A) as H0. split.
  - intros Hfit.
    pose proof (ntri_burkhardt pf hA A st HA Hf Hb Hs Hl Hv) as [_ H1].
    rewrite H1, div_int64_exact by lia.
    rewrite wrap64_small by (unfold INT64_MIN, INT64_MAX in *; lia). reflexivity.
  - intros Hfit Hft.
    pose proof (ntri_cohen pf hA A st HA Hf Hb Hs Hl Hv Hft) as [_ H2].
    rewrite H2, div_int64_exact by lia.
    rewrite wrap64_small by (unfold INT64_MIN, INT64_MAX in *; lia). reflexivity.
Qed.

Lemma tricount_raw_values_witness :
  ntri (LAGraph_tricount suitesparse_3_2 1 (Some 0) (graph_state (complete 4) [])).2
    = (triangles (complete 4) :: 6 * triangles (complete 4) :: [])%Z
  ∧ ntri (LAGraph_tricount suitesparse_3_2 2 (Some 0) (graph_state (complete 4) [])).2
    = (triangles (complete 4) :: 2 * triangles (complete 4) :: [])%Z.
Proof.
  destruct (tricount_raw_values suitesparse_3_2 0 (complete 4) (graph_state (complete 4) []))
    as [H1 H2].
  - reflexivity.
  - reflexivity.
  - apply complete_in_bounds.
  - apply complete_symmetric.
  - apply complete_no_self_edges.
  - left. reflexivity.
  - split.
    + apply H1. vm_compute. intros H. discriminate H.
    + apply H2; [|reflexivity]. vm_compute. intros H. discriminate H.
Defined.

(** On the complete graph on 2097154 nodes, 6 times the triangle count is
    9223385230998503424, and method 1 stores -9223358842711048192 before the
    division. On the complete graph on 3024618 nodes, 2 times the triangle
    count is 9223375962672822832, and method 2 stores -9223368111036728784
    before the division. *)
Lemma tricount_raw_value_overflow :
  (symmetric (complete huge) ∧ no_self_edges (complete huge)
   ∧ (0 < triangles (complete huge))%Z
   ∧ (6 * triangles (complete huge) = 9223385230998503424)%Z
   ∧ ntri (LAGraph_tricount suitesparse_3_2 1 (Some 0) (graph_state (complete huge) [])).2
     = [-1537226473785174698; -9223358842711048192]%Z)
  ∧ (symmetric (complete huger) ∧ no_self_edges (complete huger)
     ∧ (0 < triangles (complete huger))%Z
     ∧ (2 * triangles (complete huger) = 9223375962672822832)%Z
     ∧ ntri (LAGraph_tricount suitesparse_3_2 2 (Some 0) (graph_state (complete huger) [])).2
       = [-4611684055518364392; -9223368111036728784]%Z).
Proof.
  split.
  - split; [apply complete_symmetric|]. split; [apply complete_no_self_edges|].
    split; [rewrite triangles_huge; reflexivity|].
    split; [apply triangles_huge_6 | apply ntri_huge_1].
  - split; [apply complete_symmetric|]. split; [apply complete_no_self_edges|].
    split; [rewrite triangles_huger; reflexivity|].
    split; [rewrite triangles_huger; reflexivity | apply ntri_huger_2].
Qed.

(** C9 (amended): for every symmetric matrix A without self-edges (binary,
    unless the PAIR semiring is in use), when no call fails: the value the
    reduction of method 2 stores is always 2 times the quotient stored after
    it (tricount_prep leaving GrB_SUCCESS), and the value the reduction of
    method 1 stores is 6 times the quotient stored after it when 6 times the
    triangle count fits in a signed 64-bit integer. *)
Theorem tricount_divisions_exact pf hA A st :
  heap st !! hA = Some (Matrix_object A) → faults st = [] →
  in_bounds A → symmetric A → no_self_edges A → have_pair pf = true ∨ binary A →
  ((6 * triangles A ≤ INT64_MAX)%Z →
     ∃ q, ntri (LAGraph_tricount pf 1 (Some hA) st).2 = (q :: 6 * q :: ntri st)%Z)
  ∧ (fallthrough_status pf = GrB_SUCCESS →
     ∃ q, ntri (LAGraph_tricount pf 2 (Some hA) st).2 = (q :: 2 * q :: ntri st)%Z).
Proof.
  intros HA Hf Hb Hs Hl Hv. pose proof (triangles_nonneg A) as H0. split.
  - intros Hfit. exists (triangles A).
    pose proof (ntri_burkhardt pf hA A st HA Hf Hb Hs Hl Hv) as [_ H1]. rewrite H1.
    rewrite div_int64_exact by lia.
    rewrite wrap64_small by (unfold INT64_MIN, INT64_MAX in *; lia). reflexivity.
  - intros Hft. exists (div_int64 (wrap64 (2 * triangles A)) 2).
    pose proof (ntri_cohen pf hA A st HA Hf Hb Hs Hl Hv Hft) as [_ H2]. rewrite H2.
    rewrite <- div_int64_even by (exists (triangles A); lia). reflexivity.
Qed.

Lemma tricount_divisions_exact_witness :
  ((6 * triangles (complete 3) ≤ INT64_MAX)%Z →
     ∃ q, ntri (LAGraph_tricount plain_graphblas 1 (Some 0) (graph_state (complete 3) [])).2
          = (q :: 6 * q :: [])%Z)
  ∧ (fallthrough_status plain_graphblas = GrB_SUCCESS →
     ∃ q, ntri (LAGraph_tricount plain_graphblas 2 (Some 0) (graph_state (complete 3) [])).2
          = (q :: 2 * q :: [])%Z).
Proof.
  apply (tricount_divisions_exact plain_graphblas 0 (complete 3) (graph_state (complete 3) [])).
  - reflexivity.
  - reflexivity.
  - apply complete_in_bounds.
  - apply complete_symmetric.
  - apply complete_no_self_edges.
  - right. apply complete_binary.
Defined.

(** On the complete graph on 2097154 nodes, the reduction of method 1
    stores -9223358842711048192, which leaves remainder 2 modulo 6 and is not
    6 times the quotient stored after it. *)
Lemma tricount_division_inexact :
  symmetric (complete huge) ∧ no_self_edges (complete huge)
  ∧ ntri (LAGraph_tricount suitesparse_3_2 1 (Some 0) (graph_state (complete huge) [])).2
    = [-1537226473785174698; -9223358842711048192]%Z
  ∧ ((-9223358842711048192) mod 6 = 2)%Z
  ∧ (6 * -1537226473785174698 = -9223358842711048188)%Z.
Proof.
  split; [apply complete_symmetric|]. split; [apply complete_no_self_edges|].
  split; [apply ntri_huge_1|]. split; reflexivity.
Qed.

(** ** The descriptor of the multiply *)

(** C8 (amended): for every method in 1..6, when no call fails, the call
    makes one GrB_mxm, and the descriptor it passes asks for the second
    operand transposed exactly when the method is 5 or 6: two methods, not
    one, read their second operand transposed (both pass desc_st1). *)
Theorem tricount_transposed_operand pf method hA A st :
  heap st !! hA = Some (Matrix_object A) → faults st = [] →
  in_bounds A → nrows A = ncols A →
  (1 ≤ method ≤ 6)%Z → method = 1%Z ∨ fallthrough_status pf = GrB_SUCCESS →
  ∃ d, mxm_descriptors (trace (LAGraph_tricount pf method (Some hA) st).2)
       = d :: mxm_descriptors (trace st)
       ∧ (inp1_tran d = true ↔ method = 5%Z ∨ method = 6%Z).
Proof.
  intros HA Hf Hb Hsq Hm Hft.
  destruct (LAGraph_tricount_run pf method hA A st HA Hf Hsq Hb Hm Hft) as (_ & _ & _ & Hd).
  exists (method_descriptor pf method). split; [exact Hd|].
  assert (method = 1 ∨ method = 2 ∨ method = 3 ∨ method = 4 ∨ method = 5 ∨ method = 6)%Z
    as [->|[->|[->|[->|[->| ->]]]]] by lia;
    unfold method_descriptor, desc_st1_of, desc_s_of; destruct (have_pair pf);
    cbn; split; intros H; first [discriminate H | lia | reflexivity | auto].
Qed.

Lemma tricount_transposed_operand_witness :
  ∃ d, mxm_descriptors
         (trace (LAGraph_tricount suitesparse_3_2 3 (Some 0) (graph_state (complete 3) [])).2)
       = d :: []
       ∧ (inp1_tran d = true ↔ 3%Z = 5%Z ∨ 3%Z = 6%Z).
Proof.
  apply (tricount_transposed_operand suitesparse_3_2 3 0 (complete 3)
           (graph_state (complete 3) [])).
  - reflexivity.
  - reflexivity.
  - apply complete_in_bounds.
  - reflexivity.
  - lia.
  - right. reflexivity.
Defined.

(** Methods 5 and 6 on a triangle: each makes one GrB_mxm, and both pass a
    descriptor with the second operand transposed. *)
Lemma tricount_two_transposed :
  inp1_tran <$> mxm_descriptors
      (trace (LAGraph_tricount suitesparse_3_2 5 (Some 0) (graph_state (complete 3) [])).2)
  = [true]
  ∧ inp1_tran <$> mxm_descriptors
      (trace (LAGraph_tricount suitesparse_3_2 6 (Some 0) (graph_state (complete 3) [])).2)
  = [true].
Proof. split; vm_compute; reflexivity. Qed.

(** ** Self-edges *)

Lemma triangle_with_loop_in_bounds : in_bounds triangle_with_loop.
Proof. apply (bool_decide_unpack _). vm_compute. reflexivity. Qed.

Lemma triangle_with_loop_symmetric : symmetric triangle_with_loop.
Proof. apply (bool_decide_unpack _). vm_compute. reflexivity. Qed.

Lemma triangle_with_loop_binary : binary triangle_with_loop.
Proof. apply (bool_decide_unpack _). vm_compute. reflexivity. Qed.

(** C10: for every symmetric matrix A (binary, unless the PAIR semiring is
    in use), with any diagonal entries, and every method in 3..6, when no
    call fails and tricount_prep leaves GrB_SUCCESS, the call on A and the
    call on A with its diagonal removed succeed and store the same count.
    Methods 1 and 2 are affected: on a triangle with a self-edge at one node
    they store 2, and 1 once the diagonal is removed. *)
Theorem tricount_ignores_diagonal pf method hA A st hB stB :
  heap st !! hA = Some (Matrix_object A) → faults st = [] →
  heap stB !! hB = Some (Matrix_object (strip_diagonal A)) → faults stB = [] →
  in_bounds A → symmetric A → have_pair pf = true ∨ binary A →
  (3 ≤ method ≤ 6)%Z → fallthrough_status pf = GrB_SUCCESS →
  (∃ x, returns (LAGraph_tricount pf method (Some hA) st) x
        ∧ returns (LAGraph_tricount pf method (Some hB) stB) x)
  ∧ returns (LAGraph_tricount suitesparse_3_2 1 (Some 0) (graph_state triangle_with_loop [])) 2
  ∧ returns (LAGraph_tricount suitesparse_3_2 1 (Some 0)
               (graph_state (strip_diagonal triangle_with_loop) [])) 1
  ∧ returns (LAGraph_tricount suitesparse_3_2 2 (Some 0) (graph_state triangle_with_loop [])) 2
  ∧ returns (LAGraph_tricount suitesparse_3_2 2 (Some 0)
               (graph_state (strip_diagonal triangle_with_loop) [])) 1.
Proof.
  intros HA Hf HB HfB Hb Hs Hv Hm Hft. split.
  - exists (div_int64 (wrap64 (divisor method * triangles A)) (divisor method)). split.
    + apply LAGraph_tricount_value; auto; [lia | lia].
    + rewrite <- (triangles_strip_diagonal A). apply LAGraph_tricount_value; auto.
      * apply strip_diagonal_in_bounds. exact Hb.
      * apply strip_diagonal_symmetric. exact Hs.
      * destruct Hv as [?|Hv]; [left; assumption|right].
        apply strip_diagonal_binary. exact Hv.
      * intros _. apply strip_diagonal_no_self_edges.
      * lia.
  - repeat split; vm_compute; reflexivity.
Qed.

Lemma tricount_ignores_diagonal_witness :
  ∃ x, returns (LAGraph_tricount plain_graphblas 4 (Some 0) (graph_state triangle_with_loop [])) x
       ∧ returns (LAGraph_tricount plain_graphblas 4 (Some 0)
                    (graph_state (strip_diagonal triangle_with_loop) [])) x.
Proof.
  refine (proj1 (tricount_ignores_diagonal plain_graphblas 4 0 triangle_with_loop
                   (graph_state triangle_with_loop []) 0
                   (graph_state (strip_diagonal triangle_with_loop) []) _ _ _ _ _ _ _ _ _)).
  - reflexivity.
  - reflexivity.
  - reflexivity.
  - reflexivity.
  - apply triangle_with_loop_in_bounds.
  - apply triangle_with_loop_symmetric.
  - right. apply triangle_with_loop_binary.
  - lia.
  - reflexivity.
Defined.

(** ** Failures *)

(** C7: for every method, every input and every schedule of failures, if
    some call made by LAGraph_tricount fails (GrB_Matrix_nrows, the
    allocation of C, any call of tricount_prep including its allocations,
    GrB_mxm, GrB_reduce), then the status returned is the status of the
    first call that failed, every object the call created (C, L, U and the
    scalar of tricount_prep) has been released, so that the live objects are
    among those live before the call, and nothing has been stored through
    ntri. *)
Theorem tricount_failure pf method A st e :
  let r := LAGraph_tricount pf method A st in
  first_failure (new_events (trace st) (trace r.2)) = Some e →
  r.1 = e ∧ dom (heap r.2) ⊆ dom (heap st) ∧ ntri r.2 = ntri st.
Proof.
  intros r. subst r. apply (settled_contract st). apply LAGraph_tricount_settled.
Qed.

Lemma tricount_failure_witness :
  let st := graph_state (complete 3) (replicate 11 GrB_SUCCESS ++ [GrB_OUT_OF_MEMORY]) in
  let r := LAGraph_tricount plain_graphblas 2 (Some 0) st in
  (returned <$> trace r.2 = GrB_OUT_OF_MEMORY :: replicate 11 GrB_SUCCESS)
  ∧ r.1 = GrB_OUT_OF_MEMORY ∧ dom (heap r.2) ⊆ dom (heap st) ∧ ntri r.2 = ntri st.
Proof.
  split; [vm_compute; reflexivity|].
  apply (tricount_failure plain_graphblas 2 (Some 0)
           (graph_state (complete 3) (replicate 11 GrB_SUCCESS ++ [GrB_OUT_OF_MEMORY]))
           GrB_OUT_OF_MEMORY).
  vm_compute. reflexivity.
Defined.

(** ** Further properties *)

Lemma LAGraph_tricount_run_blocks pf method hA A st :
  heap st !! hA = Some (Matrix_object A) → faults st = [] →
  nrows A = ncols A → in_bounds A →
  (1 ≤ method ≤ 6)%Z → method = 1%Z ∨ fallthrough_status pf = GrB_SUCCESS →
  blocks (LAGraph_tricount pf method (Some hA) st).2 = blocks st.
Proof.
  destruct st as [h f tr b nt]. cbn [heap faults blocks]. intros HA -> Hsq Hb Hm Hft.
  destruct (LAGraph_tricount_quiet pf hA A h tr b nt HA Hsq Hb method Hm Hft) as (tr' & -> & _).
  reflexivity.
Qed.

(** X1: a call in which nothing fails leaves no intermediate behind: for
    every method in 1..6 and every square matrix A, the call succeeds, the
    live engine objects afterwards are exactly those live before (C, L, U
    and the scalar of tricount_prep are released), and as many arrays are
    allocated afterwards as before (I, J, X are freed). *)
Theorem tricount_success_releases pf method hA A st :
  heap st !! hA = Some (Matrix_object A) → faults st = [] →
  nrows A = ncols A → in_bounds A →
  (1 ≤ method ≤ 6)%Z → method = 1%Z ∨ fallthrough_status pf = GrB_SUCCESS →
  let r := LAGraph_tricount pf method (Some hA) st in
  r.1 = GrB_SUCCESS ∧ heap r.2 = heap st ∧ blocks r.2 = blocks st.
Proof.
  intros HA Hf Hsq Hb Hm Hft r. subst r.
  destruct (LAGraph_tricount_run pf method hA A st HA Hf Hsq Hb Hm Hft) as (Hi & _ & Hh & _).
  split; [exact Hi|]. split; [exact Hh|].
  exact (LAGraph_tricount_run_blocks pf method hA A st HA Hf Hsq Hb Hm Hft).
Qed.

Lemma tricount_success_releases_witness :
  let r := LAGraph_tricount plain_graphblas 6 (Some 0) (graph_state (complete 4) []) in
  r.1 = GrB_SUCCESS ∧ heap r.2 = heap (graph_state (complete 4) []) ∧ blocks r.2 = 0.
Proof.
  apply (tricount_success_releases plain_graphblas 6 0 (complete 4)
           (graph_state (complete 4) [])).
  - reflexivity.
  - reflexivity.
  - reflexivity.
  - apply complete_in_bounds.
  - lia.
  - right. reflexivity.
Defined.

(** X3: the count stored whatever its size: for every symmetric matrix A
    without self-edges (binary, unless the PAIR semiring is in use) and
    every method in 1..6, when no call fails and tricount_prep leaves
    GrB_SUCCESS, the call stores the 64-bit wrap-around of the method's
    multiple of the triangle count, divided by the method's divisor with
    truncation toward zero. *)
Theorem tricount_stored_value pf method hA A st :
  heap st !! hA = Some (Matrix_object A) → faults st = [] →
  in_bounds A → symmetric A → no_self_edges A → have_pair pf = true ∨ binary A →
  (1 ≤ method ≤ 6)%Z → method = 1%Z ∨ fallthrough_status pf = GrB_SUCCESS →
  returns (LAGraph_tricount pf method (Some hA) st)
          (wrap64 (Z.quot (wrap64 (divisor method * triangles A)) (divisor method))).
Proof.
  intros HA Hf Hb Hs Hl Hv Hm Hft.
  apply (LAGraph_tricount_value pf method hA A st HA Hf Hb Hs Hv (λ _, Hl) Hm Hft).
Qed.

Lemma tricount_stored_value_witness :
  returns (LAGraph_tricount suitesparse_3_0 2 (Some 0) (graph_state (complete 4) []))
          (wrap64 (Z.quot (wrap64 (divisor 2 * triangles (complete 4))) (divisor 2)))
  ∧ wrap64 (Z.quot (wrap64 (divisor 2 * triangles (complete 4))) (divisor 2)) = 4%Z.
Proof.
  split; [|vm_compute; reflexivity].
  apply (tricount_stored_value suitesparse_3_0 2 0 (complete 4) (graph_state (complete 4) [])).
  - reflexivity.
  - reflexivity.
  - apply complete_in_bounds.
  - apply complete_symmetric.
  - apply complete_no_self_edges.
  - right. apply complete_binary.
  - lia.
  - right. reflexivity.
Defined.

(** * Further properties of tricount_prep and LAGraph_tricount *)

(** ** tricount_prep on its own *)

(** X4: whatever is scheduled to fail and whichever outputs are requested,
    when a call made by tricount_prep fails, tricount_prep returns the
    status of the first call that failed, leaves NULL in each requested
    output, has released every object it created (the live objects are among
    those live before), and has stored nothing through ntri. *)
Theorem tricount_prep_failure pf L U A st info out st' e :
  tricount_prep pf L U A st = (info, out, st') →
  first_failure (new_events (trace st) (trace st')) = Some e →
  info = e ∧ out = (nulled L, nulled U)
  ∧ dom (heap st') ⊆ dom (heap st) ∧ ntri st' = ntri st.
Proof.
  intros E Hff.
  destruct (tricount_prep_tracked pf st ∅ L U A st (tracked_start st) info out st' E)
    as [[_ (evs & Htr & Hnone & _)]|[(evs & Htr & Hsome & Hnt & Hdom) Hout]].
  - rewrite Htr, new_events_app, Hnone in Hff. discriminate.
  - rewrite Htr, new_events_app, Hsome in Hff. cbn [fst snd] in *.
    injection Hff as <-. repeat split; [exact Hout | set_solver | exact Hnt].
Qed.

Lemma tricount_prep_failure_witness :
  ∃ st',
    tricount_prep suitesparse_3_2 (Some None) (Some None) (Some 0)
      (graph_state (complete 3) (replicate 5 GrB_SUCCESS ++ [GrB_OUT_OF_MEMORY]))
    = (GrB_OUT_OF_MEMORY, (Some None, Some None), st')
    ∧ dom (heap st') ⊆ dom (heap (graph_state (complete 3) [])) ∧ ntri st' = [].
Proof.
  destruct (tricount_prep suitesparse_3_2 (Some None) (Some None) (Some 0)
      (graph_state (complete 3) (replicate 5 GrB_SUCCESS ++ [GrB_OUT_OF_MEMORY])))
    as [[info out] st'] eqn:E.
  destruct (tricount_prep_failure _ _ _ _ _ _ _ _ GrB_OUT_OF_MEMORY E) as (-> & -> & Hd & Hn).
  - assert (trace st' = trace (tricount_prep suitesparse_3_2 (Some None) (Some None) (Some 0)
      (graph_state (complete 3) (replicate 5 GrB_SUCCESS ++ [GrB_OUT_OF_MEMORY]))).2) as ->
      by (rewrite E; reflexivity).
    vm_compute. reflexivity.
  - exists st'. repeat split; assumption.
Defined.

(** ** The input handle *)

Lemma matrix_at_faults st f A : matrix_at (set_faults f st) A = matrix_at st A.
Proof. reflexivity. Qed.

(** X5: when A is NULL or does not name a live matrix, GrB_Matrix_nrows, the
    first call of LAGraph_tricount, rejects it, and for every method (in
    range or not) and every schedule the call returns the status
    GrB_Matrix_nrows gave, which is not GrB_SUCCESS: it has created no
    object, obtained no array and made no computing call, and the live
    objects, the allocated arrays and what ntri holds are as before. *)
Theorem tricount_invalid_input pf method A st :
  matrix_at st A = None →
  let r := LAGraph_tricount pf method A st in
  let evs := new_events (trace st) (trace r.2) in
  r.1 = (GrB_Matrix_nrows A st).1.1 ∧ r.1 ≠ GrB_SUCCESS
  ∧ allocations evs = 0 ∧ Forall (λ e, is_computation e = false) evs
  ∧ heap r.2 = heap st ∧ blocks r.2 = blocks st ∧ ntri r.2 = ntri st.
Proof.
  intros HA r evs. subst evs r.
  unfold LAGraph_tricount, run. cbv zeta.
  unfold mbind, body_bind, LAGr, LAGRAPH_OK.
  destruct (GrB_Matrix_nrows A st) as [[i n] st1] eqn:E1.
  assert (i ≠ GrB_SUCCESS ∧ st1 = log Matrix_nrows i (set_faults (tail (faults st)) st))
    as [Hi ->].
  { unfold GrB_Matrix_nrows, primitive in E1. case_decide as Hs.
    - rewrite matrix_at_faults, HA in E1. injection E1 as <- <- <-.
      split; [discriminate|reflexivity].
    - injection E1 as <- <- <-. split; [exact Hs|reflexivity]. }
  rewrite decide_False by exact Hi.
  cbn [fails LAGRAPH_FREE_ALL GrB_free fst snd log set_faults heap trace blocks ntri].
  change (Event Matrix_nrows i :: trace st) with ([Event Matrix_nrows i] ++ trace st).
  rewrite new_events_app.
  split; [reflexivity|]. split; [exact Hi|].
  split; [destruct i; reflexivity|]. split; [repeat constructor|]. repeat split.
Qed.

Lemma tricount_invalid_input_witness :
  let st := graph_state (complete 3) [] in
  let r := LAGraph_tricount plain_graphblas 3 None st in
  let evs := new_events [] (trace r.2) in
  r.1 = (GrB_Matrix_nrows None st).1.1 ∧ r.1 ≠ GrB_SUCCESS
  ∧ allocations evs = 0 ∧ Forall (λ e, is_computation e = false) evs
  ∧ heap r.2 = heap st ∧ blocks r.2 = 0 ∧ ntri r.2 = [].
Proof.
  apply (tricount_invalid_input plain_graphblas 3 None (graph_state (complete 3) [])).
  reflexivity.
Defined.

(** ** The count on small and on large graphs *)

Section Bounds.
Local Open Scope Z_scope.

Lemma sum3_le n f g :
  (∀ i j k, (i < n)%nat → (j < n)%nat → (k < n)%nat → f i j k ≤ g i j k) →
  sum3 n f ≤ sum3 n g.
Proof.
  intros H. unfold sum3. apply sum_below_le. intros i Hi.
  apply sum_below_le. intros j Hj. apply sum_below_le. intros k Hk. auto.
Qed.

(** No graph on [n] nodes has more triangles than the complete one. *)
Lemma triangles_le_complete A : triangles A ≤ triangles (complete (nrows A)).
Proof.
  unfold triangles. change (nrows (complete (nrows A))) with (nrows A).
  apply sum3_le. intros i j k Hi Hj Hk. unfold is_triangle, triangle_at.
  rewrite !edge_complete.
  destruct (decide (i < j)%nat) as [Hij|Hij].
  2: { rewrite (bool_decide_eq_false_2 (i < j)%nat) by exact Hij. reflexivity. }
  destruct (decide (j < k)%nat) as [Hjk|Hjk].
  2: { rewrite (bool_decide_eq_false_2 (j < k)%nat) by exact Hjk.
       rewrite !andb_false_r. reflexivity. }
  rewrite !(bool_decide_eq_true_2 (_ ∧ _)) by lia.
  rewrite !(bool_decide_eq_true_2 (_ ≠ _)) by lia.
  rewrite (bool_decide_eq_true_2 (i < j)%nat), (bool_decide_eq_true_2 (j < k)%nat) by assumption.
  destruct (edge A i j), (edge A j k), (edge A i k); simpl; lia.
Qed.

Lemma falling_product_mono n m :
  0 ≤ n ≤ m → n * (n - 1) * (n - 2) ≤ m * (m - 1) * (m - 2).
Proof.
  intros H.
  assert (∀ k, 0 ≤ k → 0 ≤ k * (k - 1) * (k - 2)) as Hpos.
  { intros k Hk. destruct (decide (k < 2)) as [Hk2|Hk2].
    - assert (k = 0 ∨ k = 1) as [-> | ->] by lia; lia.
    - apply Z.mul_nonneg_nonneg; [apply Z.mul_nonneg_nonneg|]; lia. }
  destruct (decide (n < 2)) as [Hn|Hn].
  - assert (n = 0 ∨ n = 1) as [-> | ->] by lia;
      (etransitivity; [|apply Hpos; lia]); lia.
  - apply Z.mul_le_mono_nonneg; [|apply Z.mul_le_mono_nonneg; lia|lia|lia].
    apply Z.mul_nonneg_nonneg; lia.
Qed.

Lemma triangles_6_bound A :
  6 * triangles A ≤ Z.of_nat (nrows A) * (Z.of_nat (nrows A) - 1) * (Z.of_nat (nrows A) - 2).
Proof.
  rewrite <- triangles_complete_6. pose proof (triangles_le_complete A). lia.
Qed.

Lemma exact_nodes_fit A :
  (nrows A ≤ exact_nodes)%nat → 6 * triangles A ≤ INT64_MAX.
Proof.
  intros Hn. pose proof (triangles_6_bound A) as H6.
  assert (Z.of_nat (nrows A) ≤ 2097153) as Hz.
  { unfold exact_nodes in Hn. apply Nat2Z.inj_le in Hn. rewrite Z2Nat.id in Hn; lia. }
  pose proof (falling_product_mono (Z.of_nat (nrows A)) 2097153 ltac:(lia)) as Hm.
  unfold INT64_MAX. lia.
Qed.

Lemma small_graph_no_triangle A : (nrows A < 3)%nat → triangles A = 0.
Proof.
  intros Hn. pose proof (triangles_6_bound A) as H6. pose proof (triangles_nonneg A) as H0.
  assert (Z.of_nat (nrows A) = 0 ∨ Z.of_nat (nrows A) = 1 ∨ Z.of_nat (nrows A) = 2)
    as [E|[E|E]] by lia; rewrite E in H6; lia.
Qed.

Lemma sum3_zero n : sum3 n (λ _ _ _, 0) = 0.
Proof.
  unfold sum3. rewrite (sum_below_ext n _ (λ _, 0)); [apply sum_below_zero|].
  intros i _. rewrite (sum_below_ext n _ (λ _, 0)); [apply sum_below_zero|].
  intros j _. apply sum_below_zero.
Qed.

Lemma empty_graph_no_triangle A : entries A = ∅ → triangles A = 0.
Proof.
  intros HE. unfold triangles. rewrite <- (sum3_zero (nrows A)).
  apply sum3_ext. intros i j k _ _ _. unfold is_triangle, triangle_at, edge. rewrite HE.
  rewrite !lookup_empty.
  rewrite (bool_decide_eq_false_2 (is_Some None)) by (intros [? ?]; discriminate).
  rewrite !andb_false_r. reflexivity.
Qed.

End Bounds.

(** X6: for every symmetric matrix A without self-edges (binary, unless the
    PAIR semiring is in use) with at most 2097153 rows, every method in 1..6
    stores the true triangle count when no call fails and tricount_prep
    leaves GrB_SUCCESS: six times the count of any such graph fits in a
    signed 64-bit integer. The bound cannot be raised: the complete graph on
    2097154 nodes has one node more, and method 1 does not store its
    triangle count. *)
Theorem tricount_exact_up_to pf method hA A st :
  heap st !! hA = Some (Matrix_object A) → faults st = [] →
  in_bounds A → symmetric A → no_self_edges A → have_pair pf = true ∨ binary A →
  (1 ≤ method ≤ 6)%Z → method = 1%Z ∨ fallthrough_status pf = GrB_SUCCESS →
  nrows A ≤ exact_nodes →
  returns (LAGraph_tricount pf method (Some hA) st) (triangles A)
  ∧ nrows (complete huge) = S exact_nodes
  ∧ ¬ returns (LAGraph_tricount suitesparse_3_2 1 (Some 0) (graph_state (complete huge) []))
              (triangles (complete huge)).
Proof.
  intros HA Hf Hb Hs Hl Hv Hm Hft Hn. split; [|split]; [| |intros [_ Hc]]; cycle 2.
  { unfold count_of in Hc. rewrite ntri_huge_1, triangles_huge in Hc.
    cbn [head] in Hc. injection Hc as Hc. lia. }
  - pose proof (LAGraph_tricount_value pf method hA A st HA Hf Hb Hs Hv (λ _, Hl) Hm Hft) as Hr.
    pose proof (exact_nodes_fit A Hn) as Hfit. pose proof (triangles_nonneg A) as H0.
    rewrite div_int64_exact in Hr; [exact Hr|apply divisor_pos|exact H0|].
    assert (divisor method ≤ 6)%Z
      by (destruct method as [|[[[]|[]|]|[[]|[]|]|]|]; cbn; lia).
    pose proof (divisor_pos method). nia.
  - cbn [nrows complete]. unfold huge, exact_nodes. lia.
Qed.

Lemma tricount_exact_up_to_witness :
  returns (LAGraph_tricount suitesparse_3_2 1 (Some 0) (graph_state (complete 5) []))
          (triangles (complete 5))
  ∧ nrows (complete huge) = S exact_nodes
  ∧ ¬ returns (LAGraph_tricount suitesparse_3_2 1 (Some 0) (graph_state (complete huge) []))
              (triangles (complete huge)).
Proof.
  apply (tricount_exact_up_to suitesparse_3_2 1 0 (complete 5) (graph_state (complete 5) [])).
  - reflexivity.
  - reflexivity.
  - apply complete_in_bounds.
  - apply complete_symmetric.
  - apply complete_no_self_edges.
  - left. reflexivity.
  - lia.
  - left. reflexivity.
  - unfold exact_nodes. cbn [nrows complete]. lia.
Defined.

(** X7: on a graph with fewer than three nodes, or with no stored entry,
    every method in 1..6 stores 0 (the matrix being symmetric, which for an
    empty one means square; no call failing, tricount_prep leaving
    GrB_SUCCESS). *)
Theorem tricount_small_or_empty pf method hA A st :
  heap st !! hA = Some (Matrix_object A) → faults st = [] →
  in_bounds A → symmetric A → no_self_edges A → have_pair pf = true ∨ binary A →
  (1 ≤ method ≤ 6)%Z → method = 1%Z ∨ fallthrough_status pf = GrB_SUCCESS →
  nrows A < 3 ∨ entries A = ∅ →
  returns (LAGraph_tricount pf method (Some hA) st) 0.
Proof.
  intros HA Hf Hb Hs Hl Hv Hm Hft Hsmall.
  pose proof (LAGraph_tricount_value pf method hA A st HA Hf Hb Hs Hv (λ _, Hl) Hm Hft) as Hr.
  assert (triangles A = 0%Z) as H0
    by (destruct Hsmall; [apply small_graph_no_triangle|apply empty_graph_no_triangle]; assumption).
  rewrite H0, Z.mul_0_r in Hr.
  replace (div_int64 (wrap64 0) (divisor method)) with 0%Z in Hr; [exact Hr|].
  unfold div_int64. rewrite wrap64_0, Z.quot_0_l; [reflexivity|].
  pose proof (divisor_pos method). lia.
Qed.

Lemma tricount_small_or_empty_witness :
  returns (LAGraph_tricount plain_graphblas 2 (Some 0)
             (graph_state (Mat GrB_BOOL 7 7 ∅) [])) 0
  ∧ returns (LAGraph_tricount plain_graphblas 2 (Some 0) (graph_state (complete 2) [])) 0.
Proof.
  split.
  - apply (tricount_small_or_empty plain_graphblas 2 0 (Mat GrB_BOOL 7 7 ∅)).
    + reflexivity.
    + reflexivity.
    + apply map_Forall_empty.
    + split; [reflexivity|apply map_Forall_empty].
    + apply map_Forall_empty.
    + right. apply map_Forall_empty.
    + lia.
    + right. reflexivity.
    + right. reflexivity.
  - apply (tricount_small_or_empty plain_graphblas 2 0 (complete 2)).
    + reflexivity.
    + reflexivity.
    + apply complete_in_bounds.
    + apply complete_symmetric.
    + apply complete_no_self_edges.
    + right. apply complete_binary.
    + lia.
    + right. reflexivity.
    + left. cbn [nrows complete]. lia.
Defined.

(** ** What the count depends on *)

Lemma edge_structure A B i j : structure A = structure B → edge A i j = edge B i j.
Proof.
  intros H. pose proof (elem_of_structure A i j) as HA. pose proof (elem_of_structure B i j) as HB.
  rewrite H in HA. destruct (edge A i j), (edge B i j); try reflexivity.
  - symmetry. apply HB, HA. reflexivity.
  - apply HA, HB. reflexivity.
Qed.

Lemma triangles_structure A B :
  nrows A = nrows B → structure A = structure B → triangles A = triangles B.
Proof.
  intros Hn Hs. unfold triangles. rewrite Hn. apply sum3_ext. intros i j k _ _ _.
  unfold is_triangle, triangle_at. rewrite !(edge_structure A B _ _ Hs). reflexivity.
Qed.

Lemma structure_is_Some A p : p ∈ structure A ↔ is_Some (entries A !! p).
Proof. unfold structure. apply elem_of_dom. Qed.

Lemma lookup_structure A B p v :
  structure A = structure B → entries B !! p = Some v → ∃ w, entries A !! p = Some w.
Proof.
  intros Hs Hv. apply structure_is_Some. rewrite Hs. apply structure_is_Some. eauto.
Qed.

Lemma in_bounds_structure A B :
  nrows A = nrows B → ncols A = ncols B → structure A = structure B →
  in_bounds A → in_bounds B.
Proof.
  intros Hr Hc Hs Hb p v Hv. destruct (lookup_structure A B p v Hs Hv) as [w Hw].
  rewrite <- Hr, <- Hc. exact (Hb p w Hw).
Qed.

Lemma symmetric_structure A B :
  nrows A = nrows B → ncols A = ncols B → structure A = structure B →
  symmetric A → symmetric B.
Proof.
  intros Hr Hc Hs [Hsq Hsym]. split; [congruence|]. intros [i j] v Hv. cbn [fst snd].
  destruct (lookup_structure A B (i, j) v Hs Hv) as [w Hw].
  pose proof (Hsym (i, j) w Hw) as Hji. cbn [fst snd] in Hji.
  apply structure_is_Some. rewrite <- Hs. apply structure_is_Some. exact Hji.
Qed.

Lemma no_self_edges_structure A B :
  structure A = structure B → no_self_edges A → no_self_edges B.
Proof.
  intros Hs Hl p v Hv. destruct (lookup_structure A B p v Hs Hv) as [w Hw]. exact (Hl p w Hw).
Qed.

(** X8: with the PAIR semiring the stored values of A are not read: two
    symmetric matrices without self-edges, of the same dimensions and the
    same structure, whatever their values and types, get the same count from
    every method in 1..6 (no call failing, tricount_prep leaving
    GrB_SUCCESS). *)
Theorem tricount_ignores_values pf method hA A st hB B stB :
  have_pair pf = true →
  heap st !! hA = Some (Matrix_object A) → faults st = [] →
  heap stB !! hB = Some (Matrix_object B) → faults stB = [] →
  in_bounds A → symmetric A → no_self_edges A →
  nrows A = nrows B → ncols A = ncols B → structure A = structure B →
  (1 ≤ method ≤ 6)%Z → method = 1%Z ∨ fallthrough_status pf = GrB_SUCCESS →
  ∃ x, returns (LAGraph_tricount pf method (Some hA) st) x
       ∧ returns (LAGraph_tricount pf method (Some hB) stB) x.
Proof.
  intros Hp HA Hf HB HfB Hb Hs Hl Hr Hc Hst Hm Hft.
  exists (div_int64 (wrap64 (divisor method * triangles A)) (divisor method)). split.
  - apply LAGraph_tricount_value; auto.
  - rewrite (triangles_structure A B Hr Hst).
    apply LAGraph_tricount_value; auto.
    + exact (in_bounds_structure A B Hr Hc Hst Hb).
    + exact (symmetric_structure A B Hr Hc Hst Hs).
    + intros _. exact (no_self_edges_structure A B Hst Hl).
Qed.

Lemma tricount_ignores_values_witness :
  ∃ x, returns (LAGraph_tricount suitesparse_3_2 5 (Some 0) (graph_state (complete 4) [])) x
       ∧ returns (LAGraph_tricount suitesparse_3_2 5 (Some 0)
                    (graph_state (weighted (complete 4) 7) [])) x.
Proof.
  apply (tricount_ignores_values suitesparse_3_2 5 0 (complete 4) (graph_state (complete 4) [])
           0 (weighted (complete 4) 7) (graph_state (weighted (complete 4) 7) [])).
  - reflexivity.
  - reflexivity.
  - reflexivity.
  - reflexivity.
  - reflexivity.
  - apply complete_in_bounds.
  - apply complete_symmetric.
  - apply complete_no_self_edges.
  - reflexivity.
  - reflexivity.
  - unfold structure, weighted. cbn [entries]. symmetry. apply dom_fmap_L.
  - lia.
  - right. reflexivity.
Defined.

(** X9: the count does not depend on the GraphBLAS in use: for every
    symmetric binary matrix A without self-edges and every method in 1..6,
    any two platforms (with or without GxB_select, with or without the PAIR
    semiring) on which tricount_prep leaves GrB_SUCCESS store the same
    count when no call fails. *)
Theorem tricount_platform_independent pf1 pf2 method hA A st :
  heap st !! hA = Some (Matrix_object A) → faults st = [] →
  in_bounds A → symmetric A → no_self_edges A → binary A →
  (1 ≤ method ≤ 6)%Z →
  fallthrough_status pf1 = GrB_SUCCESS → fallthrough_status pf2 = GrB_SUCCESS →
  ∃ x, returns (LAGraph_tricount pf1 method (Some hA) st) x
       ∧ returns (LAGraph_tricount pf2 method (Some hA) st) x.
Proof.
  intros HA Hf Hb Hs Hl Hv Hm Hft1 Hft2.
  exists (div_int64 (wrap64 (divisor method * triangles A)) (divisor method)).
  split; apply LAGraph_tricount_value; auto.
Qed.

Lemma tricount_platform_independent_witness :
  ∃ x, returns (LAGraph_tricount suitesparse_3_2 2 (Some 0) (graph_state (complete 4) [])) x
       ∧ returns (LAGraph_tricount plain_graphblas 2 (Some 0) (graph_state (complete 4) [])) x.
Proof.
  apply (tricount_platform_independent suitesparse_3_2 plain_graphblas 2 0 (complete 4)).
  - reflexivity.
  - reflexivity.
  - apply complete_in_bounds.
  - apply complete_symmetric.
  - apply complete_no_self_edges.
  - apply complete_binary.
  - lia.
  - reflexivity.
  - reflexivity.
Defined.

(** ** One call after another *)

Lemma head_stores_app pf method A l :
  (1 ≤ method ≤ 6)%Z → head (stores pf method A ++ l) = head (stores pf method A).
Proof.
  intros Hm.
  assert (method = 1 ∨ method = 2 ∨ method = 3 ∨ method = 4 ∨ method = 5 ∨ method = 6)%Z
    as [->|[->|[->|[->|[->| ->]]]]] by lia; reflexivity.
Qed.

(** X10: calls do not interfere: after a call with method m1 in which
    nothing failed, a call with any method m2 on the state it left succeeds,
    stores the count it would have stored on the initial state, and leaves
    the live objects of the initial state (A square, its entries inside its
    dimensions, tricount_prep leaving GrB_SUCCESS). *)
Theorem tricount_repeatable pf m1 m2 hA A st :
  heap st !! hA = Some (Matrix_object A) → faults st = [] →
  in_bounds A → nrows A = ncols A →
  (1 ≤ m1 ≤ 6)%Z → (1 ≤ m2 ≤ 6)%Z → fallthrough_status pf = GrB_SUCCESS →
  let r1 := LAGraph_tricount pf m1 (Some hA) st in
  let r2 := LAGraph_tricount pf m2 (Some hA) r1.2 in
  r1.1 = GrB_SUCCESS ∧ r2.1 = GrB_SUCCESS
  ∧ count_of r2.2 = count_of (LAGraph_tricount pf m2 (Some hA) st).2
  ∧ heap r2.2 = heap st.
Proof.
  destruct st as [h f tr b nt]. cbn [heap faults]. intros HA -> Hb Hsq Hm1 Hm2 Hft.
  cbv zeta.
  destruct (LAGraph_tricount_quiet pf hA A h tr b nt HA Hsq Hb m1 Hm1 (or_intror Hft))
    as (tr1 & E1 & _).
  destruct (LAGraph_tricount_quiet pf hA A h tr b nt HA Hsq Hb m2 Hm2 (or_intror Hft))
    as (tr2 & E2 & _).
  rewrite E1. cbn [fst snd].
  destruct (LAGraph_tricount_quiet pf hA A h tr1 b (stores pf m1 A ++ nt) HA Hsq Hb m2 Hm2
              (or_intror Hft)) as (tr3 & E3 & _).
  rewrite E2, E3. cbn [fst snd heap]. unfold count_of. cbn [ntri].
  rewrite !head_stores_app by exact Hm2. repeat split.
Qed.

Lemma tricount_repeatable_witness :
  let st := graph_state (complete 4) [] in
  let r1 := LAGraph_tricount plain_graphblas 1 (Some 0) st in
  let r2 := LAGraph_tricount plain_graphblas 6 (Some 0) r1.2 in
  r1.1 = GrB_SUCCESS ∧ r2.1 = GrB_SUCCESS
  ∧ count_of r2.2 = count_of (LAGraph_tricount plain_graphblas 6 (Some 0) st).2
  ∧ heap r2.2 = heap st.
Proof.
  apply (tricount_repeatable plain_graphblas 1 6 0 (complete 4) (graph_state (complete 4) [])).
  - reflexivity.
  - reflexivity.
  - apply complete_in_bounds.
  - reflexivity.
  - lia.
  - lia.
  - reflexivity.
Defined.

(** ** Method 1 on any square matrix *)

(** X11: what method 1 computes when A is not known to be symmetric or free
    of self-edges: for every square matrix A (binary, unless the PAIR
    semiring is in use), when no call fails, GrB_reduce stores the 64-bit
    wrap-around of the number of ordered index triples (i,j,k) with (i,j),
    (i,k) and (k,j) all stored in A, and the division stores a sixth of it,
    truncated toward zero. *)
Theorem burkhardt_ordered_triples pf hA A st :
  heap st !! hA = Some (Matrix_object A) → faults st = [] →
  in_bounds A → nrows A = ncols A → have_pair pf = true ∨ binary A →
  let r := LAGraph_tricount pf 1 (Some hA) st in
  r.1 = GrB_SUCCESS
  ∧ ntri r.2 = div_int64 (wrap64 (ordered_triples A)) 6 :: wrap64 (ordered_triples A) :: ntri st.
Proof.
  intros HA Hf Hb Hsq Hv r. subst r.
  destruct (LAGraph_tricount_run pf 1 hA A st HA Hf Hsq Hb) as (Hi & Hn & _ & _);
    [lia|left; reflexivity|].
  split; [exact Hi|]. etransitivity; [exact Hn|].
  unfold stores, divisor, raw_value. cbv zeta.
  rewrite (masked_sum_edges pf A false A A A) by
    (first [symmetry; exact Hsq | destruct Hv as [?|?]; [left; assumption|right; auto]]).
  reflexivity.
Qed.

Lemma burkhardt_ordered_triples_witness :
  let r := LAGraph_tricount suitesparse_3_0 1 (Some 0) (graph_state triangle_with_loop []) in
  (r.1 = GrB_SUCCESS
   ∧ ntri r.2 = div_int64 (wrap64 (ordered_triples triangle_with_loop)) 6
                :: wrap64 (ordered_triples triangle_with_loop) :: [])
  ∧ ordered_triples triangle_with_loop = 13%Z.
Proof.
  split; [|vm_compute; reflexivity].
  apply (burkhardt_ordered_triples suitesparse_3_0 0 triangle_with_loop
           (graph_state triangle_with_loop [])).
  - reflexivity.
  - reflexivity.
  - apply triangle_with_loop_in_bounds.
  - reflexivity.
  - right. apply triangle_with_loop_binary.
Defined.

(** * Calls, arrays and the caller's objects under any schedule *)

(** ** What each call records and touches *)

Section Records.

Lemma heap_put_other x o st k : k ∉ held x → heap (put x o st) !! k = heap st !! k.
Proof.
  destruct x as [h|]; simpl; [|reflexivity]. intros Hk.
  apply lookup_insert_ne. set_solver.
Qed.

Lemma blocks_put x o st : blocks (put x o st) = blocks st.
Proof. destruct x; reflexivity. Qed.

Lemma fresh_unused (h : gmap handle object) : h !! fresh (dom h) = None.
Proof. apply not_elem_of_dom. apply is_fresh. Qed.

Local Arguments put : simpl never.

Local Ltac split_calls H :=
  repeat first
    [ case_decide
    | case_bool_decide
    | match type of H with
      | context [ match matrix_at ?s ?x with _ => _ end ] =>
          let E := fresh "E" in destruct (matrix_at s x) eqn:E
      | context [ match scalar_at ?s ?x with _ => _ end ] =>
          let E := fresh "E" in destruct (scalar_at s x) as [[? ?]|] eqn:E
      | context [ match optional_matrix ?s ?x with _ => _ end ] =>
          let E := fresh "E" in destruct (optional_matrix s x) eqn:E
      end ].

Local Ltac record_of op :=
  let H := fresh "H" in
  intros ? ? ? H; unfold op, primitive in H; split_calls H; simplify_eq;
  unfold call_record; simpl; rewrite ?trace_put, ?blocks_put;
  repeat split; try reflexivity; try congruence; try discriminate;
  try (intros k Hk; rewrite ?heap_put_other by set_solver; simpl;
       first [reflexivity | apply lookup_insert_ne; set_solver]);
  try (intros ? [= <-]; apply fresh_unused).

Lemma GrB_Matrix_nrows_record A st :
  ∀ info x st', GrB_Matrix_nrows A st = (info, x, st') →
                call_record Matrix_nrows None None st info st'.
Proof. record_of GrB_Matrix_nrows. Qed.

Lemma GrB_Matrix_nvals_record A st :
  ∀ info x st', GrB_Matrix_nvals A st = (info, x, st') →
                call_record Matrix_nvals None None st info st'.
Proof. record_of GrB_Matrix_nvals. Qed.

Lemma GrB_Matrix_new_record ty r c st :
  ∀ info x st', GrB_Matrix_new ty r c st = (info, x, st') →
                call_record (Matrix_new ty r c) None x st info st'.
Proof. record_of GrB_Matrix_new. Qed.

Lemma GxB_Scalar_new_record ty st :
  ∀ info x st', GxB_Scalar_new ty st = (info, x, st') →
                call_record (Scalar_new ty) None x st info st'.
Proof. record_of GxB_Scalar_new. Qed.

Lemma GxB_Scalar_setElement_record s v st :
  ∀ info x st', GxB_Scalar_setElement s v st = (info, x, st') →
                call_record (Scalar_setElement v) s None st info st'.
Proof. record_of GxB_Scalar_setElement. Qed.

Lemma GxB_select_record C M accum op A thunk desc st :
  ∀ info x st', GxB_select C M accum op A thunk desc st = (info, x, st') →
                call_record (Select op) C None st info st'.
Proof. record_of GxB_select. Qed.

Lemma GrB_mxm_record C M accum s A B desc st :
  ∀ info x st', GrB_mxm C M accum s A B desc st = (info, x, st') →
                call_record (Mxm s (settings desc)) C None st info st'.
Proof. record_of GrB_mxm. Qed.

Lemma GrB_reduce_record accum monoid A desc st :
  ∀ info x st', GrB_reduce accum monoid A desc st = (info, x, st') →
                call_record Reduce None None st info st'.
Proof. record_of GrB_reduce. Qed.

Lemma GrB_Matrix_extractTuples_record (I_ J_ : list nat) (X_ : list Z) n A st :
  ∀ info x st', GrB_Matrix_extractTuples I_ J_ X_ n A st = (info, x, st') →
                call_record Matrix_extractTuples None None st info st'.
Proof. record_of GrB_Matrix_extractTuples. Qed.

Lemma GrB_Matrix_build_record C (I_ J_ : list nat) (X_ : list Z) n dup st :
  ∀ info x st', GrB_Matrix_build C I_ J_ X_ n dup st = (info, x, st') →
                call_record Matrix_build C None st info st'.
Proof. record_of GrB_Matrix_build. Qed.

End Records.

(** ** Following a call with its arrays and the caller's objects *)

Section Audit.
Context (st0 : state) (sel pair : bool) (G : Prop).

Local Notation audited := (audited st0 sel pair G).

Lemma audited_start owned :
  (G → owned ## dom (heap st0)) → audited owned None 0 0 false st0.
Proof.
  intros HG. exists []. repeat split; auto.
Qed.

Lemma audited_shrink owned owned' status a k m st :
  owned' ⊆ owned → audited owned status a k m st → audited owned' status a k m st.
Proof.
  intros Hsub (evs & ? & ? & ? & ? & ? & ? & ? & HF). exists evs. repeat split; auto.
  - destruct (HF ltac:(assumption)) as [Hd _]. set_solver.
  - intros h Hh. destruct (HF ltac:(assumption)) as [_ Ha]. auto.
Qed.

Lemma arrays_cons e evs :
  arrays (e :: evs) = (if is_array e then 1 else 0) + arrays evs.
Proof.
  unfold arrays. rewrite filter_cons. destruct (is_array e); case_decide; try congruence; reflexivity.
Qed.

Lemma created_not_initial st created :
  (∀ h, h ∈ dom (heap st0) → heap st !! h = heap st0 !! h) →
  (∀ h, created = Some h → heap st !! h = None) →
  held created ## dom (heap st0).
Proof.
  intros Hag Hnew. destruct created as [h|]; cbn [held]; [|set_solver].
  apply disjoint_singleton_l. intros Hin.
  pose proof (Hnew h eq_refl) as Hn. rewrite (Hag h Hin) in Hn.
  apply elem_of_dom in Hin as [o Ho]. congruence.
Qed.

Lemma first_failure_None_succeeded evs :
  first_failure evs = None → forallb succeeded evs = true.
Proof.
  unfold first_failure. intros H. apply last_None in H.
  apply forallb_forall. intros e He. apply bool_decide_eq_true.
  destruct (decide (returned e = GrB_SUCCESS)) as [Hs|Hs]; [exact Hs|].
  assert (returned e ∈ filter (λ i, i ≠ GrB_SUCCESS) (returned <$> evs)) as Hin.
  { apply list_elem_of_filter. split; [exact Hs|]. apply list_elem_of_fmap.
    exists e. split; [reflexivity|]. apply list_elem_of_In. exact He. }
  rewrite H in Hin. apply not_elem_of_nil in Hin. contradiction.
Qed.

Lemma audited_call owned a k m c target created info st st' :
  audited owned None a k m st →
  call_record c target created st info st' →
  held target ⊆ owned →
  permitted sel pair (Event c info) = true →
  is_array (Event c info) = false →
  audited (owned ∪ held created)
    (if decide (info = GrB_SUCCESS) then None else Some info)
    a k (m || is_mxm (Event c info)) st'.
Proof.
  intros (evs & Htr & Hff & Hp & Ha & Hm & Hb & Hpr & HF) (Htr' & Hb' & Hfr & Hnew & _) Ht Hperm Harr.
  exists (Event c info :: evs). repeat split.
  - rewrite Htr', Htr. reflexivity.
  - case_decide as Hi.
    + subst info. rewrite first_failure_cons_ok. exact Hff.
    + apply first_failure_cons_first; assumption.
  - constructor; assumption.
  - rewrite arrays_cons, Harr. exact Ha.
  - unfold multiplied in *. cbn [existsb]. rewrite Hm. apply orb_comm.
  - congruence.
  - cbn [prompt]. rewrite (first_failure_None_succeeded evs Hff), orb_true_r. exact Hpr.
  - destruct (HF ltac:(assumption)) as [Hd Hag].
    pose proof (created_not_initial st created Hag Hnew) as Hc. set_solver.
  - intros h Hh. destruct (HF ltac:(assumption)) as [Hd Hag].
    pose proof (created_not_initial st created Hag Hnew) as Hc.
    rewrite Hfr; [apply Hag; exact Hh|]. set_solver.
Qed.

Lemma audited_malloc {T} owned status a k m (filler : T) n (p : option (list T)) st st' :
  sel = false →
  audited owned status a k m st →
  LAGraph_malloc filler n st = (p, st') →
  audited owned
    (match status with
     | Some i => Some i
     | None => match p with Some _ => None | None => Some GrB_OUT_OF_MEMORY end
     end)
    (match p with Some _ => S a | None => a end)
    (match p with Some _ => S k | None => k end) m st'.
Proof.
  intros Hsel (evs & Htr & Hff & Hp & Ha & Hm & Hb & Hpr & HF) E.
  unfold LAGraph_malloc in E. case_decide as Hs; injection E as <- <-.
  - exists (Event (Malloc n) GrB_SUCCESS :: evs). cbn [trace blocks heap log set_blocks set_faults].
    repeat split.
    + rewrite Htr. reflexivity.
    + rewrite first_failure_cons_ok. destruct status; exact Hff.
    + constructor; [|exact Hp]. cbn. rewrite Hsel. reflexivity.
    + rewrite arrays_cons. cbn. rewrite Ha. reflexivity.
    + exact Hm.
    + rewrite Hb. lia.
    + exact Hpr.
    + apply HF. assumption.
    + apply HF. assumption.
  - exists (Event (Malloc n) GrB_OUT_OF_MEMORY :: evs). cbn [trace blocks heap log set_faults].
    repeat split.
    + rewrite Htr. reflexivity.
    + destruct status as [i|].
      * apply first_failure_cons_later. exact Hff.
      * apply first_failure_cons_first; [discriminate|exact Hff].
    + constructor; [|exact Hp]. cbn. rewrite Hsel. reflexivity.
    + rewrite arrays_cons. cbn. exact Ha.
    + exact Hm.
    + exact Hb.
    + exact Hpr.
    + apply HF. assumption.
    + apply HF. assumption.
Qed.

Lemma audited_free owned status a k m x st :
  held x ⊆ owned → audited owned status a k m st → audited owned status a k m (GrB_free x st).
Proof.
  intros Hx (evs & Htr & Hff & Hp & Ha & Hm & Hb & Hpr & HF).
  exists evs. rewrite trace_GrB_free. destruct x as [h|]; cbn [GrB_free]; repeat split; auto;
    try (apply HF; assumption).
  intros h' Hh'. cbn [heap set_heap]. destruct (HF ltac:(assumption)) as [Hd Hag].
  rewrite lookup_delete_ne; [apply Hag; exact Hh'|]. cbn [held] in Hx. set_solver.
Qed.

Lemma audited_free_through owned status a k m p st :
  held_through p ⊆ owned → audited owned status a k m st →
  audited owned status a k m (free_through p st).
Proof. destruct p as [x|]; [apply audited_free|auto]. Qed.

Lemma audited_LAGRAPH_FREE {T} owned status a k m (p : list T) st :
  audited owned status a (S k) m st → audited owned status a k m (LAGRAPH_FREE (Some p) st).
Proof.
  intros (evs & Htr & Hff & Hp & Ha & Hm & Hb & Hpr & HF).
  exists evs. cbn [LAGRAPH_FREE set_blocks trace blocks heap]. repeat split; auto;
    try (apply HF; assumption).
  rewrite Hb. lia.
Qed.

(** Rules for the statements of a body. *)

Lemma wp_LAGr_audit {R X} c target (created : X → option handle) onf
    (op : state → GrB_Info * X * state) Qn (Qe : R → state → Prop) owned a k m st :
  audited owned None a k m st →
  (∀ info x st', op st = (info, x, st') → call_record c target (created x) st info st') →
  held target ⊆ owned →
  (∀ info, permitted sel pair (Event c info) = true) →
  (∀ info, is_array (Event c info) = false) →
  (∀ x st', audited (owned ∪ held (created x)) None a k
              (m || is_mxm (Event c GrB_SUCCESS)) st' → Qn x st') →
  (∀ info st', audited owned (Some info) a k (m || is_mxm (Event c info)) st' →
               wp (onf info) Qn Qe st') →
  wp (LAGr onf op) Qn Qe st.
Proof.
  intros HA Hrec Ht Hperm Harr Hn He. apply wp_LAGRAPH_OK. intros info x st' E.
  pose proof (Hrec _ _ _ E) as Hc.
  pose proof (audited_call owned a k m c target (created x) info st st' HA Hc Ht
                (Hperm info) (Harr info)) as HA'.
  cbv beta iota in HA'. case_decide as Hi.
  - subst info. apply Hn. exact HA'.
  - apply He. destruct Hc as (_ & _ & _ & _ & Hnone). rewrite (Hnone Hi) in HA'.
    eapply audited_shrink; [|exact HA']. set_solver.
Qed.

Lemma wp_malloc_audit {R T} (filler : T) n Qn (Qe : R → state → Prop) owned status a k m st :
  sel = false →
  audited owned status a k m st →
  (∀ (p : option (list T)) st',
     audited owned
       (match status with
        | Some i => Some i
        | None => match p with Some _ => None | None => Some GrB_OUT_OF_MEMORY end
        end)
       (match p with Some _ => S a | None => a end)
       (match p with Some _ => S k | None => k end) m st' → Qn p st') →
  wp (malloc filler n) Qn Qe st.
Proof.
  intros Hsel HA H. unfold wp, malloc.
  destruct (LAGraph_malloc filler n st) as [p st'] eqn:E.
  apply H. exact (audited_malloc owned status a k m filler n p st st' Hsel HA E).
Qed.

End Audit.

(** ** tricount_prep, audited *)

Section Prep_audited.
Context (pf : platform) (st0 : state) (pair : bool) (G : Prop) (owned0 : gset handle).

Local Notation prep_audit_exit := (audit_exit st0 pair G owned0).
Local Notation prep_audit_end := (audit_end st0 pair G owned0).

Lemma wp_prep_fails_audit {X} L0 U0 sel thunk L U info (Qn : X → state → Prop) owned a st :
  nulled L = nulled L0 → nulled U = nulled U0 →
  audited st0 sel pair G owned (Some info) a a false st →
  held thunk ∪ held_through L ∪ held_through U ⊆ owned → owned0 ⊆ owned →
  wp (prep_fails thunk L U info) Qn (prep_audit_exit L0 U0 sel) st.
Proof.
  intros HL HU HA Hsub H0. unfold wp, prep_fails, audit_exit, prep_FREE_ALL. cbn [fst snd].
  split; [congruence|].
  exists a. eapply audited_shrink; [exact H0|].
  apply audited_free_through; [set_solver|].
  apply audited_free_through; [set_solver|].
  apply audited_free; [set_solver|]. exact HA.
Qed.

Local Ltac sets := cbn [held held_through fst snd]; set_solver.

Local Ltac failure :=
  let HA := fresh "HA" in
  intros ? ? HA; eapply wp_prep_fails_audit; [reflexivity | reflexivity | exact HA | sets | sets].

Local Ltac call sel c target created lem :=
  apply wp_bind; eapply (wp_LAGr_audit st0 sel pair G c target created);
  [ eassumption | intros ? ? ?; apply lem | sets
  | intros ?; first [reflexivity | apply bool_decide_eq_true_2; reflexivity]
  | intros ?; reflexivity | | failure ].

Local Ltac done_ :=
  apply wp_ret; unfold audit_end; cbn [fst snd]; eexists;
  eapply audited_shrink; [|eassumption]; sets.

Hypothesis Hthunk : held (indeterminate_thunk pf) ⊆ owned0.

Lemma tricount_prep_select_audited L0 U0 A st :
  held_through L0 ∪ held_through U0 ⊆ owned0 →
  audited st0 true pair G owned0 None 0 0 false st →
  wp (tricount_prep_select pf L0 U0 A) (prep_audit_end true) (prep_audit_exit L0 U0 true) st.
Proof.
  intros Hin HT. unfold tricount_prep_select. cbv zeta.
  call true Matrix_nrows (@None handle) (λ _ : nat, @None handle) GrB_Matrix_nrows_record.
  intros n st1 HT1.
  call true (Scalar_new GrB_INT64) (@None handle) (λ x : GxB_Scalar, x) GxB_Scalar_new_record.
  intros thunk st2 HT2.
  destruct L0 as [L|], U0 as [U|]; cbv beta iota.
  - apply wp_bind.
    call true (Matrix_new GrB_BOOL n n) (@None handle) (λ x : GrB_Matrix, x) GrB_Matrix_new_record.
    intros l st3 HT3.
    call true (Scalar_setElement (-1)) thunk (λ _ : unit, @None handle)
      GxB_Scalar_setElement_record.
    intros _ st4 HT4.
    call true (Select GxB_TRIL) l (λ _ : unit, @None handle) GxB_select_record.
    intros _ st5 HT5. apply wp_ret. cbv beta.
    apply wp_bind.
    call true (Matrix_new GrB_BOOL n n) (@None handle) (λ x : GrB_Matrix, x) GrB_Matrix_new_record.
    intros u st6 HT6.
    call true (Scalar_setElement 1) thunk (λ _ : unit, @None handle)
      GxB_Scalar_setElement_record.
    intros _ st7 HT7.
    call true (Select GxB_TRIU) u (λ _ : unit, @None handle) GxB_select_record.
    intros _ st8 HT8. apply wp_ret. cbv beta.
    apply wp_bind, wp_LAGRAPH_OK. intros info x st9 [= <- <- <-]. cbv beta iota.
    apply (audited_free st0 true pair G _ _ _ _ _ thunk) in HT8; [|sets].
    done_.
  - apply wp_bind.
    call true (Matrix_new GrB_BOOL n n) (@None handle) (λ x : GrB_Matrix, x) GrB_Matrix_new_record.
    intros l st3 HT3.
    call true (Scalar_setElement (-1)) thunk (λ _ : unit, @None handle)
      GxB_Scalar_setElement_record.
    intros _ st4 HT4.
    call true (Select GxB_TRIL) l (λ _ : unit, @None handle) GxB_select_record.
    intros _ st5 HT5. apply wp_ret. cbv beta.
    apply wp_bind, wp_ret. cbv beta.
    apply wp_bind, wp_LAGRAPH_OK. intros info x st9 [= <- <- <-]. cbv beta iota.
    apply (audited_free st0 true pair G _ _ _ _ _ thunk) in HT5; [|sets].
    done_.
  - apply wp_bind, wp_ret. cbv beta. apply wp_bind.
    call true (Matrix_new GrB_BOOL n n) (@None handle) (λ x : GrB_Matrix, x) GrB_Matrix_new_record.
    intros u st6 HT6.
    call true (Scalar_setElement 1) thunk (λ _ : unit, @None handle)
      GxB_Scalar_setElement_record.
    intros _ st7 HT7.
    call true (Select GxB_TRIU) u (λ _ : unit, @None handle) GxB_select_record.
    intros _ st8 HT8. apply wp_ret. cbv beta.
    apply wp_bind, wp_LAGRAPH_OK. intros info x st9 [= <- <- <-]. cbv beta iota.
    apply (audited_free st0 true pair G _ _ _ _ _ thunk) in HT8; [|sets].
    done_.
  - apply wp_bind, wp_ret. cbv beta. apply wp_bind, wp_ret. cbv beta.
    apply wp_bind, wp_LAGRAPH_OK. intros info x st9 [= <- <- <-]. cbv beta iota.
    apply (audited_free st0 true pair G _ _ _ _ _ thunk) in HT2; [|sets].
    done_.
Qed.

Local Ltac alloc :=
  apply wp_bind; eapply (wp_malloc_audit st0 false pair G); [reflexivity | eassumption | ].

Local Ltac release :=
  do 3 (apply wp_bind, wp_effect); apply wp_ret;
  unfold audit_end; cbn [fst snd]; eexists;
  do 3 apply audited_LAGRAPH_FREE;
  eapply audited_shrink; [|eassumption]; sets.

Lemma tricount_prep_extract_audited L0 U0 A st :
  held_through L0 ∪ held_through U0 ⊆ owned0 →
  audited st0 false pair G owned0 None 0 0 false st →
  wp (tricount_prep_extract pf L0 U0 A) (prep_audit_end false) (prep_audit_exit L0 U0 false) st.
Proof.
  intros Hin HT. unfold tricount_prep_extract. cbv zeta.
  call false Matrix_nrows (@None handle) (λ _ : nat, @None handle) GrB_Matrix_nrows_record.
  intros n st1 HT1.
  case_bool_decide as Hwant; [|done_].
  call false Matrix_nvals (@None handle) (λ _ : nat, @None handle) GrB_Matrix_nvals_record.
  intros nvals st2 HT2.
  alloc. intros I_ st3 HT3. alloc. intros J_ st4 HT4. alloc. intros X_ st5 HT5.
  destruct I_ as [I_|], J_ as [J_|], X_ as [X_|]; cbv beta iota in HT5 |- *;
    try (eapply wp_prep_fails_audit; [reflexivity | reflexivity | exact HT5 | sets | sets]).
  call false Matrix_extractTuples (@None handle)
    (λ _ : list nat * list nat * list Z * nat, @None handle) GrB_Matrix_extractTuples_record.
  intros [[[I' J'] X'] nvals'] st6 HT6. cbv beta iota.
  destruct (compact I' J' X' nvals') as [[[I2 J2] X2] nedges].
  destruct L0 as [L|], U0 as [U|]; cbv beta iota.
  - apply wp_bind.
    call false (Matrix_new GrB_BOOL n n) (@None handle) (λ x : GrB_Matrix, x)
      GrB_Matrix_new_record.
    intros l st7 HT7.
    call false Matrix_build l (λ _ : unit, @None handle) GrB_Matrix_build_record.
    intros _ st8 HT8. apply wp_ret. cbv beta.
    apply wp_bind.
    call false (Matrix_new GrB_BOOL n n) (@None handle) (λ x : GrB_Matrix, x)
      GrB_Matrix_new_record.
    intros u st9 HT9.
    call false Matrix_build u (λ _ : unit, @None handle) GrB_Matrix_build_record.
    intros _ st10 HT10. apply wp_ret. cbv beta.
    release.
  - apply wp_bind.
    call false (Matrix_new GrB_BOOL n n) (@None handle) (λ x : GrB_Matrix, x)
      GrB_Matrix_new_record.
    intros l st7 HT7.
    call false Matrix_build l (λ _ : unit, @None handle) GrB_Matrix_build_record.
    intros _ st8 HT8. apply wp_ret. cbv beta.
    apply wp_bind, wp_ret. cbv beta.
    release.
  - apply wp_bind, wp_ret. cbv beta. apply wp_bind.
    call false (Matrix_new GrB_BOOL n n) (@None handle) (λ x : GrB_Matrix, x)
      GrB_Matrix_new_record.
    intros u st9 HT9.
    call false Matrix_build u (λ _ : unit, @None handle) GrB_Matrix_build_record.
    intros _ st10 HT10. apply wp_ret. cbv beta.
    release.
  - exfalso. destruct Hwant as [H|H]; apply H; reflexivity.
Qed.

(** [tricount_prep] with the body its platform compiles. *)
Lemma tricount_prep_audited L0 U0 A st :
  held_through L0 ∪ held_through U0 ⊆ owned0 →
  audited st0 (have_select pf) pair G owned0 None 0 0 false st →
  ∀ info out st', tricount_prep pf L0 U0 A st = (info, out, st') →
    (info = fallthrough_status pf ∧ prep_audit_end (have_select pf) out st')
    ∨ prep_audit_exit L0 U0 (have_select pf) (info, out) st'.
Proof.
  intros Hin HT info out st' H. unfold tricount_prep in H.
  assert (wp (if have_select pf then tricount_prep_select pf L0 U0 A
              else tricount_prep_extract pf L0 U0 A)
             (prep_audit_end (have_select pf)) (prep_audit_exit L0 U0 (have_select pf)) st) as Hwp.
  { destruct (have_select pf);
      [apply tricount_prep_select_audited|apply tricount_prep_extract_audited]; assumption. }
  unfold wp in Hwp.
  destruct ((if have_select pf then tricount_prep_select pf L0 U0 A
             else tricount_prep_extract pf L0 U0 A) st) as [[o|[i o]] s].
  - injection H as <- <- <-. left. split; [reflexivity|exact Hwp].
  - injection H as <- <- <-. right. exact Hwp.
Qed.

End Prep_audited.

(** ** LAGraph_tricount, audited *)

Section Main_audited.
Context (pf : platform) (st0 : state) (G : Prop).

Local Notation sel := (have_select pf).
Local Notation owned0 := (held (indeterminate_thunk pf)).

Lemma audited_same pair owned status a k m st st' :
  trace st' = trace st → blocks st' = blocks st → heap st' = heap st →
  audited st0 sel pair G owned status a k m st → audited st0 sel pair G owned status a k m st'.
Proof.
  intros Ht Hb Hh (evs & ? & ? & ? & ? & ? & ? & ? & HF). exists evs.
  rewrite Ht, Hb, Hh. repeat split; auto; apply HF; assumption.
Qed.

Lemma audited_accounted pair owned status a k m st :
  audited st0 sel pair G owned status a k m st →
  k = match status with Some _ => if m then 0 else a | None => 0 end →
  accounted st0 sel pair G st.
Proof.
  intros (evs & Htr & Hff & Hp & Ha & Hm & Hb & Hpr & HF) Hk. exists evs.
  split; [exact Htr|]. split; [exact Hp|].
  split; [|split; [exact Hpr|intros HG; exact (proj2 (HF HG))]].
  rewrite Hb. f_equal. unfold leaked. rewrite Hff, Hm, Ha, Hk.
  destruct status as [i|].
  - rewrite bool_decide_eq_true_2 by discriminate. destruct m; reflexivity.
  - rewrite bool_decide_eq_false_2 by (intros H; apply H; reflexivity). reflexivity.
Qed.

Lemma wp_fails_audit {X} pair owned status a k m C L U info (Qn : X → state → Prop) st :
  audited st0 sel pair G owned status a k m st →
  held C ∪ held L ∪ held U ⊆ owned →
  k = match status with Some _ => if m then 0 else a | None => 0 end →
  wp (fails C L U info) Qn (λ _ st', accounted st0 sel pair G st') st.
Proof.
  intros HA Hsub Hk. unfold wp, fails, LAGRAPH_FREE_ALL.
  apply (audited_accounted pair owned status a k m); [|exact Hk].
  apply audited_free; [set_solver|]. apply audited_free; [set_solver|].
  apply audited_free; [set_solver|]. exact HA.
Qed.

Local Ltac sets := rewrite ?held_after; cbn [held held_through fst snd]; set_solver.

Local Ltac failure :=
  let HA := fresh "HA" in
  intros ? ? HA; eapply wp_fails_audit; [exact HA | sets | reflexivity].

Local Ltac call c target created lem :=
  apply wp_bind; eapply (wp_LAGr_audit st0 sel _ G c target created);
  [ eassumption | intros ? ? ?; apply lem | sets
  | intros ?; first [reflexivity | apply bool_decide_eq_true_2; reflexivity]
  | intros ?; reflexivity | | failure ].

Local Ltac finish :=
  apply wp_ret; cbv beta iota; apply wp_bind, wp_effect, wp_ret;
  unfold LAGRAPH_FREE_ALL;
  match goal with
  | H : audited _ _ _ _ ?owned ?status ?a ?k ?m _ |- accounted _ _ ?pair _ (GrB_free _ (GrB_free _ (GrB_free _ ?st))) =>
      match type of H with
      | audited _ _ _ _ _ _ _ _ _ st =>
          apply (audited_accounted pair owned status a k m); [|reflexivity];
          apply audited_free; [sets|]; apply audited_free; [sets|];
          apply audited_free; [sets|]; exact H
      end
  end.

Local Ltac prep HT :=
  let Hend := fresh "Hend" in let Hexit := fresh "Hexit" in let Hout := fresh "Hout" in
  let E := fresh "E" in let Hft := fresh "Hft" in let a := fresh "a" in
  let Hth := fresh "Hth" in let Hin := fresh "Hin" in
  apply wp_bind, wp_LAGRAPH_OK; intros ? ? ? E;
  match type of HT with
  | audited _ _ ?pair _ ?owned _ _ _ _ ?st =>
      match type of E with
      | tricount_prep _ ?L0 ?U0 ?A _ = _ =>
          assert (held (indeterminate_thunk pf) ⊆ owned) as Hth by sets;
          assert (held_through L0 ∪ held_through U0 ⊆ owned) as Hin by sets;
          destruct (tricount_prep_audited pf st0 pair G owned Hth L0 U0 A st Hin HT _ _ _ E)
            as [[-> [a Hend]]|[Hout [a Hexit]]]
      end
  end;
  [ case_decide as Hft;
    [ cbv beta zeta
    | unfold prep_failed; eapply wp_fails_audit; [exact Hend | sets | reflexivity] ]
  | cbn [fst snd] in Hexit, Hout; case_decide as Hft;
    [ exfalso; destruct Hexit as (? & _ & Hff & _);
      apply first_failure_not_success in Hff; apply Hff; exact Hft
    | unfold prep_failed; rewrite Hout; cbn [after default from_option id nulled fst snd];
      eapply wp_fails_audit; [exact Hexit | sets | reflexivity] ] ].

Lemma LAGraph_tricount_accounted method A :
  (G → held (indeterminate_thunk pf) ## dom (heap st0)) →
  accounted st0 sel (have_pair pf) G (LAGraph_tricount pf method A st0).2.
Proof.
  intros HG.
  pose proof (audited_start st0 sel (have_pair pf) G owned0 HG) as HT0.
  destruct (decide (1 ≤ method ≤ 6)%Z) as [Hm|Hm].
  2: { rewrite (LAGraph_tricount_invalid pf method A st0 Hm).
       unfold LAGraph_tricount.
       apply (run_wp _ (λ _ st', accounted st0 sel (have_pair pf) G st')). cbv zeta.
       call Matrix_nrows (@None handle) (λ _ : nat, @None handle) GrB_Matrix_nrows_record.
       intros n st1 HT1.
       call (Matrix_new GrB_INT64 n n) (@None handle) (λ x : GrB_Matrix, x) GrB_Matrix_new_record.
       intros C st2 HT2. cbv iota.
       apply wp_bind, wp_return.
       eapply audited_accounted; [exact HT2|reflexivity]. }
  unfold LAGraph_tricount.
  apply (run_wp _ (λ _ st', accounted st0 sel (have_pair pf) G st')). cbv zeta.
  destruct (have_pair pf).
  - call Matrix_nrows (@None handle) (λ _ : nat, @None handle) GrB_Matrix_nrows_record.
    intros n st1 HT1.
    call (Matrix_new GrB_INT64 n n) (@None handle) (λ x : GrB_Matrix, x) GrB_Matrix_new_record.
    intros C st2 HT2.
    apply wp_bind.
    assert (method = 1 ∨ method = 2 ∨ method = 3 ∨ method = 4 ∨ method = 5 ∨ method = 6)%Z
      as [->|[->|[->|[->|[->| ->]]]]] by lia; cbv iota.
    + call (Mxm GxB_PLUS_PAIR_INT64 GrB_DESC_S) C (λ _ : unit, @None handle) GrB_mxm_record.
      intros _ st3 HT3.
      call Reduce (@None handle) (λ _ : unit, @None handle) GrB_reduce_record.
      intros _ st4 HT4. apply wp_bind, wp_effect.
      apply (audited_same _ _ _ _ _ _ _ (divide_ntri 6 st4) eq_refl eq_refl eq_refl) in HT4.
      finish.
    + prep HT2.
      call (Mxm GxB_PLUS_PAIR_INT64 GrB_DESC_S) C (λ _ : unit, @None handle) GrB_mxm_record.
      intros _ st4 HT4.
      call Reduce (@None handle) (λ _ : unit, @None handle) GrB_reduce_record.
      intros _ st5 HT5. apply wp_bind, wp_effect.
      apply (audited_same _ _ _ _ _ _ _ (divide_ntri 2 st5) eq_refl eq_refl eq_refl) in HT5.
      finish.
    + prep HT2.
      call (Mxm GxB_PLUS_PAIR_INT64 GrB_DESC_S) C (λ _ : unit, @None handle) GrB_mxm_record.
      intros _ st4 HT4.
      call Reduce (@None handle) (λ _ : unit, @None handle) GrB_reduce_record.
      intros _ st5 HT5. finish.
    + prep HT2.
      call (Mxm GxB_PLUS_PAIR_INT64 GrB_DESC_S) C (λ _ : unit, @None handle) GrB_mxm_record.
      intros _ st4 HT4.
      call Reduce (@None handle) (λ _ : unit, @None handle) GrB_reduce_record.
      intros _ st5 HT5. finish.
    + prep HT2.
      call (Mxm GxB_PLUS_PAIR_INT64 GrB_DESC_ST1) C (λ _ : unit, @None handle) GrB_mxm_record.
      intros _ st4 HT4.
      call Reduce (@None handle) (λ _ : unit, @None handle) GrB_reduce_record.
      intros _ st5 HT5. finish.
    + prep HT2.
      call (Mxm GxB_PLUS_PAIR_INT64 GrB_DESC_ST1) C (λ _ : unit, @None handle) GrB_mxm_record.
      intros _ st4 HT4.
      call Reduce (@None handle) (λ _ : unit, @None handle) GrB_reduce_record.
      intros _ st5 HT5. finish.
  - call Matrix_nrows (@None handle) (λ _ : nat, @None handle) GrB_Matrix_nrows_record.
    intros n st1 HT1.
    call (Matrix_new GrB_INT64 n n) (@None handle) (λ x : GrB_Matrix, x) GrB_Matrix_new_record.
    intros C st2 HT2.
    apply wp_bind.
    assert (method = 1 ∨ method = 2 ∨ method = 3 ∨ method = 4 ∨ method = 5 ∨ method = 6)%Z
      as [->|[->|[->|[->|[->| ->]]]]] by lia; cbv iota.
    + call (Mxm LAGraph_PLUS_TIMES_INT64 desc_default) C (λ _ : unit, @None handle)
        GrB_mxm_record.
      intros _ st3 HT3.
      call Reduce (@None handle) (λ _ : unit, @None handle) GrB_reduce_record.
      intros _ st4 HT4. apply wp_bind, wp_effect.
      apply (audited_same _ _ _ _ _ _ _ (divide_ntri 6 st4) eq_refl eq_refl eq_refl) in HT4.
      finish.
    + prep HT2.
      call (Mxm LAGraph_PLUS_TIMES_INT64 desc_default) C (λ _ : unit, @None handle)
        GrB_mxm_record.
      intros _ st4 HT4.
      call Reduce (@None handle) (λ _ : unit, @None handle) GrB_reduce_record.
      intros _ st5 HT5. apply wp_bind, wp_effect.
      apply (audited_same _ _ _ _ _ _ _ (divide_ntri 2 st5) eq_refl eq_refl eq_refl) in HT5.
      finish.
    + prep HT2.
      call (Mxm LAGraph_PLUS_TIMES_INT64 desc_default) C (λ _ : unit, @None handle)
        GrB_mxm_record.
      intros _ st4 HT4.
      call Reduce (@None handle) (λ _ : unit, @None handle) GrB_reduce_record.
      intros _ st5 HT5. finish.
    + prep HT2.
      call (Mxm LAGraph_PLUS_TIMES_INT64 desc_default) C (λ _ : unit, @None handle)
        GrB_mxm_record.
      intros _ st4 HT4.
      call Reduce (@None handle) (λ _ : unit, @None handle) GrB_reduce_record.
      intros _ st5 HT5. finish.
    + prep HT2.
      call (Mxm LAGraph_PLUS_TIMES_INT64 LAGraph_desc_otoo) C (λ _ : unit, @None handle)
        GrB_mxm_record.
      intros _ st4 HT4.
      call Reduce (@None handle) (λ _ : unit, @None handle) GrB_reduce_record.
      intros _ st5 HT5. finish.
    + prep HT2.
      call (Mxm LAGraph_PLUS_TIMES_INT64 LAGraph_desc_otoo) C (λ _ : unit, @None handle)
        GrB_mxm_record.
      intros _ st4 HT4.
      call Reduce (@None handle) (λ _ : unit, @None handle) GrB_reduce_record.
      intros _ st5 HT5. finish.
Qed.

End Main_audited.

(** * What a call leaves behind, whatever fails *)

Lemma accounted_events st0 sel pair G st :
  accounted st0 sel pair G st →
  Forall (λ e, permitted sel pair e = true) (new_events (trace st0) (trace st))
  ∧ blocks st = blocks st0 + leaked (new_events (trace st0) (trace st))
  ∧ prompt (new_events (trace st0) (trace st)) = true
  ∧ (G → ∀ h, h ∈ dom (heap st0) → heap st !! h = heap st0 !! h).
Proof.
  intros (evs & Htr & Hp & Hb & Hpr & HF). rewrite Htr, new_events_app. auto.
Qed.

(** X12: LAGraph_tricount never touches the caller's objects: for every
    method, every input and every schedule of failures, each object live
    before the call (the matrix A among them) is live and unchanged after
    it, and when some call failed the live objects afterwards are exactly
    those live before. The proviso: the uninitialised local thunk of
    tricount_prep, which every failure path hands to GrB_free, does not
    happen to name a live object. *)
Theorem tricount_keeps_objects pf method A st :
  held (indeterminate_thunk pf) ## dom (heap st) →
  let r := LAGraph_tricount pf method A st in
  (∀ h, h ∈ dom (heap st) → heap r.2 !! h = heap st !! h)
  ∧ (first_failure (new_events (trace st) (trace r.2)) ≠ None → heap r.2 = heap st).
Proof.
  intros Hthunk r. subst r.
  pose proof (LAGraph_tricount_accounted pf st True method A (λ _, Hthunk)) as Hacc.
  apply accounted_events in Hacc as (_ & _ & _ & Hframe). specialize (Hframe I).
  split; [exact Hframe|]. intros Hfail.
  destruct (first_failure (new_events (trace st) (trace (LAGraph_tricount pf method A st).2)))
    as [e|] eqn:Hff; [|destruct Hfail; reflexivity].
  destruct (settled_contract st _ _ (LAGraph_tricount_settled pf st method A) e Hff)
    as (_ & Hdom & _).
  apply map_eq. intros h. destruct (decide (h ∈ dom (heap st))) as [Hin|Hout].
  - apply Hframe. exact Hin.
  - rewrite (not_elem_of_dom_1 (heap st) h Hout).
    apply not_elem_of_dom. intros Hin'. apply Hout. apply Hdom. exact Hin'.
Qed.

Lemma tricount_keeps_objects_witness :
  let st := graph_state (complete 3) (replicate 8 GrB_SUCCESS ++ [GrB_PANIC]) in
  let r := LAGraph_tricount suitesparse_3_2 6 (Some 0) st in
  first_failure (new_events (trace st) (trace r.2)) = Some GrB_PANIC
  ∧ (∀ h, h ∈ dom (heap st) → heap r.2 !! h = heap st !! h)
  ∧ (first_failure (new_events (trace st) (trace r.2)) ≠ None → heap r.2 = heap st).
Proof.
  split; [vm_compute; reflexivity|].
  apply (tricount_keeps_objects suitesparse_3_2 6 (Some 0)
           (graph_state (complete 3) (replicate 8 GrB_SUCCESS ++ [GrB_PANIC]))).
  cbn [indeterminate_thunk suitesparse_3_2 held]. set_solver.
Defined.

(** X2: the arrays I, J and X of the extractTuples body are freed at the
    end of its block and nowhere else: for every method, input and schedule,
    a call in which nothing failed, or which reached GrB_mxm, leaves as many
    arrays allocated as before, and a call that failed before reaching
    GrB_mxm leaves allocated every array it obtained from LAGraph_malloc. *)
Theorem tricount_arrays pf method A st :
  let r := LAGraph_tricount pf method A st in
  let evs := new_events (trace st) (trace r.2) in
  (first_failure evs = None → blocks r.2 = blocks st)
  ∧ (multiplied evs = true → blocks r.2 = blocks st)
  ∧ (first_failure evs ≠ None → multiplied evs = false →
     blocks r.2 = blocks st + arrays evs).
Proof.
  intros r evs. subst evs r.
  pose proof (LAGraph_tricount_accounted pf st False method A (λ H, False_rect _ H)) as Hacc.
  apply accounted_events in Hacc as (_ & Hb & _ & _). rewrite Hb. unfold leaked.
  split; [|split].
  - intros ->. rewrite bool_decide_eq_false_2 by (intros H; apply H; reflexivity).
    cbn. lia.
  - intros ->. rewrite andb_false_r. lia.
  - intros Hf ->. rewrite bool_decide_eq_true_2 by exact Hf. reflexivity.
Qed.

Lemma tricount_arrays_witness :
  let st := graph_state (complete 3) (replicate 11 GrB_SUCCESS ++ [GrB_OUT_OF_MEMORY]) in
  let r := LAGraph_tricount plain_graphblas 2 (Some 0) st in
  let evs := new_events (trace st) (trace r.2) in
  (first_failure evs ≠ None ∧ multiplied evs = false ∧ arrays evs = 3)
  ∧ blocks r.2 = blocks st + arrays evs.
Proof.
  split; [vm_compute; repeat split; discriminate|].
  apply (tricount_arrays plain_graphblas 2 (Some 0)
           (graph_state (complete 3) (replicate 11 GrB_SUCCESS ++ [GrB_OUT_OF_MEMORY]))).
  - vm_compute. discriminate.
  - vm_compute. reflexivity.
Defined.

(** X14: the calls LAGraph_tricount can make, for every method, input and
    schedule: with GxB_select available it obtains no array and never calls
    GrB_Matrix_nvals, extractTuples or build; without it, it creates no
    scalar and never calls GxB_select; every matrix it creates is square;
    and GrB_mxm is called only with the semiring bound at the top of the
    function (PLUS_PAIR when available, PLUS_TIMES otherwise) and one of its
    two descriptors. *)
Theorem tricount_calls_permitted pf method A st :
  Forall (λ e, permitted (have_select pf) (have_pair pf) e = true)
         (new_events (trace st) (trace (LAGraph_tricount pf method A st).2)).
Proof.
  pose proof (LAGraph_tricount_accounted pf st False method A (λ H, False_rect _ H)) as Hacc.
  apply accounted_events in Hacc as (Hp & _ & _ & _). exact Hp.
Qed.

Lemma prompt_later later f earlier :
  prompt (later ++ f :: earlier) = true → returned f ≠ GrB_SUCCESS →
  Forall (λ e, is_malloc e = true) later.
Proof.
  intros Hp Hf. induction later as [|e later IH]; [constructor|].
  cbn [app prompt] in Hp. apply andb_true_iff in Hp as [He Hp].
  constructor; [|apply IH; exact Hp].
  apply orb_true_iff in He as [He|He]; [exact He|].
  rewrite forallb_app in He. apply andb_true_iff in He as [_ He].
  cbn [forallb] in He. apply andb_true_iff in He as [He _].
  apply bool_decide_eq_true in He. contradiction.
Qed.

(** X13: a failure stops the call: for every method, input and schedule,
    once a call made by LAGraph_tricount has failed, the only calls that
    follow are calls of LAGraph_malloc (the three allocations of the
    extractTuples body are all made before their results are tested) and the
    releases of the cleanup, GrB_free in LAGRAPH_FREE_ALL, which the trace
    does not record: no call that creates, reads, sets or computes an object
    follows a failed call. *)
Theorem tricount_stops_at_failure pf method A st later f earlier :
  new_events (trace st) (trace (LAGraph_tricount pf method A st).2) = later ++ f :: earlier →
  returned f ≠ GrB_SUCCESS →
  Forall (λ e, is_malloc e = true) later.
Proof.
  intros Hev Hf.
  pose proof (LAGraph_tricount_accounted pf st False method A (λ H, False_rect _ H)) as Hacc.
  apply accounted_events in Hacc as (_ & _ & Hpr & _). rewrite Hev in Hpr.
  exact (prompt_later later f earlier Hpr Hf).
Qed.

Lemma tricount_stops_at_failure_witness :
  let st := graph_state (complete 3) (replicate 4 GrB_SUCCESS ++ [GrB_OUT_OF_MEMORY]) in
  let r := LAGraph_tricount plain_graphblas 3 (Some 0) st in
  new_events (trace st) (trace r.2)
  = [Event (Malloc 6) GrB_SUCCESS; Event (Malloc 6) GrB_SUCCESS]
    ++ Event (Malloc 6) GrB_OUT_OF_MEMORY
       :: [Event Matrix_nvals GrB_SUCCESS; Event Matrix_nrows GrB_SUCCESS;
           Event (Matrix_new GrB_INT64 3 3) GrB_SUCCESS; Event Matrix_nrows GrB_SUCCESS]
  ∧ Forall (λ e, is_malloc e = true)
      [Event (Malloc 6) GrB_SUCCESS; Event (Malloc 6) GrB_SUCCESS].
Proof.
  assert (new_events
            (trace (graph_state (complete 3) (replicate 4 GrB_SUCCESS ++ [GrB_OUT_OF_MEMORY])))
            (trace (LAGraph_tricount plain_graphblas 3 (Some 0)
                      (graph_state (complete 3)
                         (replicate 4 GrB_SUCCESS ++ [GrB_OUT_OF_MEMORY]))).2)
          = [Event (Malloc 6) GrB_SUCCESS; Event (Malloc 6) GrB_SUCCESS]
            ++ Event (Malloc 6) GrB_OUT_OF_MEMORY
               :: [Event Matrix_nvals GrB_SUCCESS; Event Matrix_nrows GrB_SUCCESS;
                   Event (Matrix_new GrB_INT64 3 3) GrB_SUCCESS;
                   Event Matrix_nrows GrB_SUCCESS]) as E
    by (vm_compute; reflexivity).
  split; [exact E|].
  apply (tricount_stops_at_failure plain_graphblas 3 (Some 0) _ _ _ _ E). discriminate.
Defined.

(** * The two bodies of tricount_prep in detail *)

(** ** The loop that keeps the strictly lower tuples *)

(** X15: the loop of the extractTuples body, run over the first n slots of
    three arrays of equal length: it keeps exactly the tuples with
    I[k] > J[k], in their original order, in the first nedges slots, nedges
    being their number; the arrays keep their length and the slots from n on
    are untouched. *)
Theorem compact_keeps_strictly_lower (I_ J_ : list nat) (X_ : list Z) n :
  length I_ = length J_ → length J_ = length X_ → n ≤ length I_ →
  ∃ I' J' X' nedges,
    compact I_ J_ X_ n = (I', J', X', nedges)
    ∧ nedges ≤ n
    ∧ length I' = length I_ ∧ length J' = length J_ ∧ length X' = length X_
    ∧ zip3 nedges I' J' X'
      = filter (λ t : nat * nat * Z, t.1.2 < t.1.1) (zip3 n I_ J_ X_)
    ∧ drop n (zip (zip I' J') X') = drop n (zip (zip I_ J_) X_).
Proof.
  intros HIJ HJX Hn.
  destruct (compact_invariant I_ J_ X_ n HIJ HJX Hn)
    as (I' & J' & X' & ne & Hfold & HI & HJ & HX & Hne & Htake & Hdrop).
  exists I', J', X', ne. repeat split; auto.
Qed.

Lemma compact_keeps_strictly_lower_witness :
  ∃ I' J' X' nedges,
    compact [2; 0; 1; 7] [0; 1; 0; 7] [1; 1; 0; 5]%Z 3 = (I', J', X', nedges)
    ∧ nedges ≤ 3
    ∧ length I' = 4 ∧ length J' = 4 ∧ length X' = 4
    ∧ zip3 nedges I' J' X'
      = filter (λ t : nat * nat * Z, t.1.2 < t.1.1)
          (zip3 3 [2; 0; 1; 7] [0; 1; 0; 7] [1; 1; 0; 5]%Z)
    ∧ drop 3 (zip (zip I' J') X') = drop 3 (zip (zip [2; 0; 1; 7] [0; 1; 0; 7]) [1; 1; 0; 5]%Z).
Proof.
  apply (compact_keeps_strictly_lower [2; 0; 1; 7] [0; 1; 0; 7] [1; 1; 0; 5]%Z 3).
  - reflexivity.
  - reflexivity.
  - cbn [length]. lia.
Defined.

(** ** The matrices built from a binary input *)

Lemma binary_matrix_eq M n s :
  mtype M = GrB_BOOL → nrows M = n → ncols M = n → binary M → structure M = s →
  M = ones_at n s.
Proof.
  destruct M as [ty r c e]. cbn [mtype nrows ncols]. intros -> -> -> Hb Hs.
  unfold ones_at. f_equal. apply map_eq. intros p. rewrite lookup_gset_to_gmap.
  unfold structure in Hs. cbn [entries] in Hs. unfold binary in Hb. cbn [entries] in Hb.
  destruct (e !! p) as [v|] eqn:E.
  - rewrite (Hb p v E). rewrite option_guard_True; [reflexivity|].
    rewrite <- Hs. apply elem_of_dom. eauto.
  - rewrite option_guard_False; [reflexivity|].
    rewrite <- Hs. intros Hin. apply elem_of_dom in Hin as [v Hv]. congruence.
Qed.

Lemma mtype_lower_of pf A : mtype (lower_of pf A) = GrB_BOOL.
Proof. unfold lower_of. destruct (have_select pf); reflexivity. Qed.

Lemma mtype_upper_of pf A : mtype (upper_of pf A) = GrB_BOOL.
Proof. unfold upper_of. destruct (have_select pf); reflexivity. Qed.

Lemma lower_of_binary pf A :
  in_bounds A → symmetric A → binary A →
  lower_of pf A = ones_at (nrows A) (strictly_lower (structure A)).
Proof.
  intros Hb Hs Hv. apply binary_matrix_eq.
  - apply mtype_lower_of.
  - apply dims_lower_of.
  - apply dims_lower_of.
  - apply binary_lower_of. exact Hv.
  - apply structure_lower_of; assumption.
Qed.

Lemma upper_of_binary pf A :
  in_bounds A → symmetric A → binary A →
  upper_of pf A = ones_at (nrows A) (strictly_upper (structure A)).
Proof.
  intros Hb Hs Hv. apply binary_matrix_eq.
  - apply mtype_upper_of.
  - apply dims_upper_of.
  - apply dims_upper_of.
  - apply binary_upper_of. exact Hv.
  - apply structure_upper_of; assumption.
Qed.

(** X16: on a symmetric binary matrix A, when no call fails, tricount_prep
    leaves in each requested output exactly the boolean n by n matrix that
    holds 1 at the strictly lower (for L) or strictly upper (for U)
    positions of A, whichever of its two bodies is compiled: type,
    dimensions, structure and values all agree. *)
Theorem tricount_prep_binary pf hA A st (L U : option GrB_Matrix) info out st' :
  heap st !! hA = Some (Matrix_object A) → faults st = [] →
  in_bounds A → symmetric A → binary A →
  tricount_prep pf L U (Some hA) st = (info, out, st') →
  output_matrix st' out.1 = (λ _, ones_at (nrows A) (strictly_lower (structure A))) <$> L
  ∧ output_matrix st' out.2 = (λ _, ones_at (nrows A) (strictly_upper (structure A))) <$> U.
Proof.
  intros HA Hf Hb Hs Hv E.
  destruct (tricount_prep_outputs pf hA A st L U HA Hf (proj1 Hs) Hb)
    as (l & u & st1 & E1 & Hl & Hu).
  rewrite E1 in E. injection E as <- <- <-. cbn [fst snd]. split.
  - destruct L as [x|]; [|reflexivity].
    unfold output_matrix, matrix_at. cbn [fmap option_fmap option_map mbind option_bind].
    rewrite (Hl (mk_is_Some _ _ eq_refl)). cbn [mbind option_bind].
    rewrite (lower_of_binary pf A Hb Hs Hv). reflexivity.
  - destruct U as [x|]; [|reflexivity].
    unfold output_matrix, matrix_at. cbn [fmap option_fmap option_map mbind option_bind].
    rewrite (Hu (mk_is_Some _ _ eq_refl)). cbn [mbind option_bind].
    rewrite (upper_of_binary pf A Hb Hs Hv). reflexivity.
Qed.

Lemma tricount_prep_binary_witness :
  ∃ info out st',
    tricount_prep plain_graphblas (Some None) (Some None) (Some 0) (graph_state (complete 3) [])
    = (info, out, st')
    ∧ output_matrix st' out.1 = Some (ones_at 3 (strictly_lower (structure (complete 3))))
    ∧ output_matrix st' out.2 = Some (ones_at 3 (strictly_upper (structure (complete 3)))).
Proof.
  destruct (tricount_prep plain_graphblas (Some None) (Some None) (Some 0)
              (graph_state (complete 3) [])) as [[info out] st'] eqn:E.
  exists info, out, st'. split; [reflexivity|].
  apply (tricount_prep_binary plain_graphblas 0 (complete 3) (graph_state (complete 3) [])
           (Some None) (Some None) info out st').
  - reflexivity.
  - reflexivity.
  - apply complete_in_bounds.
  - apply complete_symmetric.
  - apply complete_binary.
  - exact E.
Defined.

(** * A matrix that is not square *)

Lemma LAGr_fail {R X B} onf (op : state → GrB_Info * X * state) (k : X → body R B)
    st info x st' :
  op st = (info, x, st') → info ≠ GrB_SUCCESS →
  (LAGr onf op ≫= k) st = (onf info ≫= k) st'.
Proof. apply LAGRAPH_OK_fail. Qed.

Section Mismatch.
Context (h : gmap handle object) (tr : list event) (b : nat) (nt : list Z).

Lemma GxB_select_mismatch c C0 op a A thunk :
  h !! c = Some (Matrix_object C0) →
  h !! a = Some (Matrix_object A) →
  ¬ (nrows A = nrows C0 ∧ ncols A = ncols C0) →
  GxB_select (Some c) None None op (Some a) thunk None (State h [] tr b nt) =
  (GrB_DIMENSION_MISMATCH, (),
   State h [] (Event (Select op) GrB_DIMENSION_MISMATCH :: tr) b nt).
Proof.
  intros Hc Ha Hd. unfold GxB_select, primitive, matrix_at, optional_matrix.
  simpl. rewrite Hc, Ha. simpl.
  rewrite bool_decide_eq_false_2; [reflexivity|]. simpl. tauto.
Qed.

Lemma GrB_mxm_mismatch c C0 m M s a A b' B desc :
  h !! c = Some (Matrix_object C0) →
  h !! m = Some (Matrix_object M) →
  h !! a = Some (Matrix_object A) →
  h !! b' = Some (Matrix_object B) →
  ¬ (rows_of (inp0_tran (settings desc)) A = nrows C0
     ∧ cols_of (inp1_tran (settings desc)) B = ncols C0
     ∧ cols_of (inp0_tran (settings desc)) A = rows_of (inp1_tran (settings desc)) B
     ∧ nrows M = nrows C0 ∧ ncols M = ncols C0) →
  GrB_mxm (Some c) (Some m) None s (Some a) (Some b') desc (State h [] tr b nt) =
  (GrB_DIMENSION_MISMATCH, (),
   State h [] (Event (Mxm s (settings desc)) GrB_DIMENSION_MISMATCH :: tr) b nt).
Proof.
  intros Hc Hm Ha Hb Hd.
  unfold GrB_mxm, primitive, matrix_at, optional_matrix, matrix_at.
  simpl. rewrite Hc, Hm, Ha, Hb. simpl.
  rewrite bool_decide_eq_false_2; [reflexivity|]. simpl. tauto.
Qed.

End Mismatch.

Section Not_square.
Context (pf : platform) (hA : handle) (A : Matrix).
Context (h : gmap handle object) (tr : list event) (b : nat) (nt : list Z).
Hypothesis HA : h !! hA = Some (Matrix_object A).
Hypothesis Hns : nrows A ≠ ncols A.

Local Ltac rejected :=
  cbv beta iota delta [LAGRAPH_FREE_ALL prep_FREE_ALL free_through GrB_free set_heap
                       heap faults trace blocks ntri after default from_option id
                       nulled fst snd];
  eexists; f_equal; f_equal; [heap_eq | reflexivity..].

Lemma LAGraph_tricount_1_not_square :
  ∃ tr', LAGraph_tricount pf 1 (Some hA) (State h [] tr b nt)
         = (GrB_DIMENSION_MISMATCH, State h [] tr' b nt).
Proof.
  unfold LAGraph_tricount, run. cbv zeta. destruct (have_pair pf).
  - erewrite LAGr_ok by (apply GrB_Matrix_nrows_quiet; eassumption). cbv beta.
    erewrite LAGr_ok by apply GrB_Matrix_new_quiet. cbv beta iota. name_fresh c.
    rewrite bind_assoc.
    erewrite LAGr_fail;
      [|eapply GrB_mxm_mismatch; [lookup|lookup|lookup|lookup|cbn; intros (_ & H & _); congruence]
       |discriminate].
    unfold fails, mbind, body_bind. rejected.
  - erewrite LAGr_ok by (apply GrB_Matrix_nrows_quiet; eassumption). cbv beta.
    erewrite LAGr_ok by apply GrB_Matrix_new_quiet. cbv beta iota. name_fresh c.
    rewrite bind_assoc.
    erewrite LAGr_fail;
      [|eapply GrB_mxm_mismatch; [lookup|lookup|lookup|lookup|cbn; intros (_ & H & _); congruence]
       |discriminate].
    unfold fails, mbind, body_bind. rejected.
Qed.

Lemma tricount_prep_not_square (L U : option GrB_Matrix) :
  have_select pf = true → L ≠ None ∨ U ≠ None →
  L = None ∨ L = Some None → U = None ∨ U = Some None →
  ∃ tr', tricount_prep pf L U (Some hA) (State h [] tr b nt)
         = (GrB_DIMENSION_MISMATCH, (nulled L, nulled U), State h [] tr' b nt).
Proof.
  intros Hsel Hwant [-> | ->] [-> | ->]; unfold tricount_prep; rewrite Hsel;
    [exfalso; destruct Hwant as [H|H]; apply H; reflexivity|..].
  - unfold tricount_prep_select. cbv zeta.
    erewrite LAGr_ok by (apply GrB_Matrix_nrows_quiet; eassumption). cbv beta.
    erewrite LAGr_ok by apply GxB_Scalar_new_quiet. cbv beta.
    name_fresh t. cbv beta iota.
    rewrite ret_bind. cbv beta. rewrite bind_assoc.
    erewrite LAGr_ok by apply GrB_Matrix_new_quiet. cbv beta. name_fresh u.
    rewrite bind_assoc.
    erewrite LAGr_ok by (eapply GxB_Scalar_setElement_quiet; lookup). cbv beta.
    rewrite bind_assoc.
    erewrite LAGr_fail;
      [|eapply GxB_select_mismatch; [lookup|lookup|cbn; intros [_ Hcols]; congruence]
       |discriminate].
    unfold prep_fails, mbind, body_bind. rejected.
  - unfold tricount_prep_select. cbv zeta.
    erewrite LAGr_ok by (apply GrB_Matrix_nrows_quiet; eassumption). cbv beta.
    erewrite LAGr_ok by apply GxB_Scalar_new_quiet. cbv beta.
    name_fresh t. cbv beta iota.
    rewrite bind_assoc.
    erewrite LAGr_ok by apply GrB_Matrix_new_quiet. cbv beta. name_fresh l.
    rewrite bind_assoc.
    erewrite LAGr_ok by (eapply GxB_Scalar_setElement_quiet; lookup). cbv beta.
    rewrite bind_assoc.
    erewrite LAGr_fail;
      [|eapply GxB_select_mismatch; [lookup|lookup|cbn; intros [_ Hcols]; congruence]
       |discriminate].
    unfold prep_fails, mbind, body_bind. rejected.
  - unfold tricount_prep_select. cbv zeta.
    erewrite LAGr_ok by (apply GrB_Matrix_nrows_quiet; eassumption). cbv beta.
    erewrite LAGr_ok by apply GxB_Scalar_new_quiet. cbv beta.
    name_fresh t. cbv beta iota.
    rewrite bind_assoc.
    erewrite LAGr_ok by apply GrB_Matrix_new_quiet. cbv beta. name_fresh l.
    rewrite bind_assoc.
    erewrite LAGr_ok by (eapply GxB_Scalar_setElement_quiet; lookup). cbv beta.
    rewrite bind_assoc.
    erewrite LAGr_fail;
      [|eapply GxB_select_mismatch; [lookup|lookup|cbn; intros [_ Hcols]; congruence]
       |discriminate].
    unfold prep_fails, mbind, body_bind. rejected.
Qed.

End Not_square.

Section Not_square_select.
Context (pf : platform) (hA : handle) (A : Matrix).
Context (h : gmap handle object) (tr : list event) (b : nat) (nt : list Z).
Hypothesis HA : h !! hA = Some (Matrix_object A).
Hypothesis Hns : nrows A ≠ ncols A.

Local Ltac rejected :=
  cbv beta iota delta [LAGRAPH_FREE_ALL prep_FREE_ALL free_through GrB_free set_heap
                       heap faults trace blocks ntri after default from_option id
                       nulled fst snd];
  eexists; f_equal; f_equal; [heap_eq | reflexivity..].

Local Ltac start c :=
  unfold LAGraph_tricount, run; cbv zeta; destruct (have_pair pf);
  erewrite LAGr_ok by (apply GrB_Matrix_nrows_quiet; eassumption); cbv beta;
  erewrite LAGr_ok by apply GrB_Matrix_new_quiet; cbv beta iota;
  name_fresh c.

Local Ltac prep_rejects L U :=
  let tr1 := fresh "tr1" in let Hrun := fresh "Hrun" in
  match goal with
  | |- context [ State ?h1 [] ?tr0 _ _ ] =>
      destruct (tricount_prep_not_square pf hA A h1 tr0 b nt ltac:(lookup) Hns L U)
        as [tr1 Hrun]; [assumption | first [left; discriminate | right; discriminate]
                       | first [left; reflexivity | right; reflexivity]
                       | first [left; reflexivity | right; reflexivity] | ]
  end;
  rewrite bind_assoc;
  erewrite LAGRAPH_OK_fail by first [exact Hrun | discriminate];
  unfold prep_failed, fails, mbind, body_bind; rejected.

Lemma LAGraph_tricount_select_not_square method :
  have_select pf = true → (2 ≤ method ≤ 6)%Z →
  ∃ tr', LAGraph_tricount pf method (Some hA) (State h [] tr b nt)
         = (GrB_DIMENSION_MISMATCH, State h [] tr' b nt).
Proof.
  intros Hsel Hm.
  assert (method = 2 ∨ method = 3 ∨ method = 4 ∨ method = 5 ∨ method = 6)%Z
    as [->|[->|[->|[->| ->]]]] by lia.
  - start c; prep_rejects (Some (@None handle)) (Some (@None handle)).
  - start c; prep_rejects (Some (@None handle)) (@None GrB_Matrix).
  - start c; prep_rejects (@None GrB_Matrix) (Some (@None handle)).
  - start c; prep_rejects (Some (@None handle)) (Some (@None handle)).
  - start c; prep_rejects (Some (@None handle)) (Some (@None handle)).
Qed.

End Not_square_select.

(** X17: a matrix that is not square is rejected: when no failure is
    scheduled, method 1 on every platform, and every method in 1..6 when
    tricount_prep is compiled with GxB_select, returns
    GrB_DIMENSION_MISMATCH (from GrB_mxm for method 1, from the first
    GxB_select otherwise), with the live objects as before the call and
    nothing stored through ntri. *)
Theorem tricount_not_square pf method hA A st :
  heap st !! hA = Some (Matrix_object A) → faults st = [] →
  nrows A ≠ ncols A →
  (1 ≤ method ≤ 6)%Z → method = 1%Z ∨ have_select pf = true →
  let r := LAGraph_tricount pf method (Some hA) st in
  r.1 = GrB_DIMENSION_MISMATCH ∧ heap r.2 = heap st ∧ ntri r.2 = ntri st.
Proof.
  destruct st as [h f tr b nt]. cbn [heap faults ntri]. intros HA -> Hns Hm Hcase.
  cbv zeta.
  destruct (decide (method = 1%Z)) as [->|Hne].
  - destruct (LAGraph_tricount_1_not_square pf hA A h tr b nt HA Hns) as [tr' ->].
    repeat split.
  - destruct Hcase as [?|Hsel]; [contradiction|].
    destruct (LAGraph_tricount_select_not_square pf hA A h tr b nt HA Hns method Hsel
                ltac:(lia)) as [tr' ->].
    repeat split.
Qed.

Lemma tricount_not_square_witness :
  let st := graph_state (Mat GrB_BOOL 2 3 {[ (0, 2) := 1%Z ]}) [] in
  let r := LAGraph_tricount suitesparse_3_0 4 (Some 0) st in
  r.1 = GrB_DIMENSION_MISMATCH ∧ heap r.2 = heap st ∧ ntri r.2 = ntri st.
Proof.
  apply (tricount_not_square suitesparse_3_0 4 0 (Mat GrB_BOOL 2 3 {[ (0, 2) := 1%Z ]})).
  - reflexivity.
  - reflexivity.
  - cbn [nrows ncols]. lia.
  - lia.
  - right. reflexivity.
Defined.
